(** * DVID: storage routing, append-only log and the labelsz index

    A shallow embedding of the parts of DVID that answer label-size
    queries (datatype/labelsz), route data instances to stores
    (storage manager) and frame mutation-log records (storage/filelog),
    together with the properties proved about them; with them the
    conversion of Raveler superpixel images to 64-bit labels
    (datatype/labels64) and the severity filter of the log functions
    (package dvid).

    Conventions.
    - Go's [int] is 64 bits wide; sums that the source computes on [int]
      are wrapped with [wrap_int].  [uint16], [uint32] and [uint64] are
      integers reduced modulo their width at every conversion.
    - A byte slice is a [list byte]; a nil slice or interface is [None].
    - A Go [(value, error)] pair is a [Result].
    - A call that panics, or that ends the program, has no result:
      [None].  A slice whose length the caller chooses is allocated by
      [makeslice], which fails beyond what the machine grants. *)

From Stdlib Require Import ZArith Lia List Bool.
From Stdlib Require Import Strings.Byte.
From stdpp Require Import base option list strings gmap fin_maps sorting.

Local Open Scope Z_scope.

(** * Part I: the program *)

(** ** Machine integers and byte codecs *)

Module Bin.

Definition MaxUint16 : Z := 2 ^ 16 - 1.
Definition MaxUint32 : Z := 2 ^ 32 - 1.
Definition MaxUint64 : Z := 2 ^ 64 - 1.
Definition MaxInt : Z := 2 ^ 63 - 1.
Definition MinInt : Z := - 2 ^ 63.

Definition uint16 (z : Z) : Z := z mod 2 ^ 16.
Definition uint32 (z : Z) : Z := z mod 2 ^ 32.
Definition uint64 (z : Z) : Z := z mod 2 ^ 64.

(** Two's-complement wrap-around of a 64-bit signed [int]. *)
Definition wrap_int (z : Z) : Z := (z + 2 ^ 63) mod 2 ^ 64 - 2 ^ 63.

Definition Z_of_byte (b : byte) : Z := Z.of_N (Byte.to_N b).

(** [byte(z)]: the low eight bits. *)
Definition byte_of_Z (z : Z) : byte :=
  default "000"%byte (Byte.of_N (Z.to_N (z mod 256))).

(** [binary.BigEndian.PutUintN] for an [n]-byte field: most significant
    byte first, byte [k] from the left is [byte(z >> 8*(n-1-k))]. *)
Fixpoint be_encode (n : nat) (z : Z) : list byte :=
  match n with
  | O => []
  | S n' => byte_of_Z (Z.shiftr z (8 * Z.of_nat n')) :: be_encode n' z
  end.

(** [binary.BigEndian.UintN]. *)
Fixpoint be_decode (bs : list byte) : Z :=
  match bs with
  | [] => 0
  | b :: bs' => Z.shiftl (Z_of_byte b) (8 * Z.of_nat (length bs')) + be_decode bs'
  end.

(** [binary.LittleEndian.PutUintN]: least significant byte first. *)
Fixpoint le_encode (n : nat) (z : Z) : list byte :=
  match n with
  | O => []
  | S n' => byte_of_Z z :: le_encode n' (Z.shiftr z 8)
  end.

(** [binary.LittleEndian.UintN]. *)
Fixpoint le_decode (bs : list byte) : Z :=
  match bs with
  | [] => 0
  | b :: bs' => Z_of_byte b + Z.shiftl (le_decode bs') 8
  end.

(** [bytes.Compare]: unsigned lexicographic comparison. *)
Fixpoint bytes_compare (a b : list byte) : comparison :=
  match a, b with
  | [], [] => Eq
  | [], _ :: _ => Lt
  | _ :: _, [] => Gt
  | x :: a', y :: b' =>
      match Z.compare (Z_of_byte x) (Z_of_byte y) with
      | Eq => bytes_compare a' b'
      | c => c
      end
  end.

Definition bytes_lt (a b : list byte) : Prop := bytes_compare a b = Lt.

Definition bytes_leb (a b : list byte) : bool :=
  match bytes_compare a b with Gt => false | _ => true end.

Definition bytes_eqb (a b : list byte) : bool :=
  match bytes_compare a b with Eq => true | _ => false end.

End Bin.

(** A Go [(value, error)] result. *)
Inductive Result (E A : Type) : Type :=
  | Ok (a : A)
  | Err (e : E).

Arguments Ok {E A} a.
Arguments Err {E A} e.

(** ** Allocation of slices by the Go runtime *)

Module GoRuntime.

(** [maxAlloc] of runtime/malloc.go on a 64-bit platform: the size of
    the address space the heap can use, in bytes. *)
Definition maxAlloc : Z := 2 ^ 48.

(** The machine the program runs on: [heap] is the largest number of
    bytes it grants to one allocation. *)
Class Machine : Type := mkMachine { heap : Z }.

(** [makeslice] of runtime/slice.go, for [n] elements of [size] bytes
    each: a negative length and a size beyond [maxAlloc] panic (len out
    of range); a size that the machine does not grant ends the program
    (out of memory).  Both are [None].  Otherwise the slice holds [n]
    zero values. *)
Definition makeslice {A : Type} {machine : Machine} (size : Z) (zero : A) (n : Z)
    : option (list A) :=
  if (0 <=? n) && (n * size <=? maxAlloc) && (n * size <=? heap)
  then Some (replicate (Z.to_nat n) zero)
  else None.

(** A machine that grants up to one gibibyte. *)
#[export] Instance example_machine : Machine := mkMachine (2 ^ 30).

End GoRuntime.

(** ** The labelsz index: datatype/labelsz *)

Module Labelsz.

Import Bin GoRuntime.

(** *** Keys

    [storage.TKey] is a byte string: a one-byte key class followed by
    the class-specific bytes ([storage.NewTKey]). *)
Abbreviation TKey := (list byte) (only parsing).

Definition NewTKey (class : byte) (ibytes : list byte) : TKey := class :: ibytes.

(** Modelled from the spec: the [IndexType] of keys.go, which travels
    as one byte (u8) in every key. *)
Abbreviation IndexType := byte (only parsing).

(** Modelled from the spec: the key classes of keys.go, which is not
    among the sources.  [RecKey] carries tag byte [R], [SizeKey] tag
    byte [S]. *)
Definition keyTypeLabel : byte := "R"%byte.

Definition keyTypeSizeLabel : byte := "S"%byte.

(** Modelled from the spec: [NewTypeLabelTKey] of keys.go.
    [RecKey(i, label)]: tag byte || index-type (u8) || label (u64 BE). *)
Definition NewTypeLabelTKey (i : IndexType) (label : Z) : TKey :=
  NewTKey keyTypeLabel (i :: be_encode 8 (uint64 label)).

(** Modelled from the spec: [NewTypeSizeLabelTKey] of keys.go.
    [SizeKey(i, count, label)]: tag byte || index-type (u8) ||
    (u32_MAX - count) BE || label (u64 BE); the count is inverted so that
    ascending iteration yields descending counts. *)
Definition NewTypeSizeLabelTKey (i : IndexType) (sz : Z) (label : Z) : TKey :=
  NewTKey keyTypeSizeLabel
    (i :: be_encode 4 (uint32 (MaxUint32 - uint32 sz)) ++ be_encode 8 (uint64 label)).

Inductive error : Type :=
  | ErrNoStore
  | ErrStoreIO
  | ErrBadKey
  | ErrBadIteration (expected got : IndexType)
  | ErrBadValueSize (i : IndexType) (label : Z) (len : Z)
  | ErrBadN (n : Z)
  | ErrBadNum (num : Z)
  | shortCircuitErr.

(** [err == shortCircuitErr]: the sentinel is compared by identity. *)
Definition is_shortCircuit (e : error) : bool :=
  match e with shortCircuitErr => true | _ => false end.

(** Modelled from the spec: [DecodeTypeSizeLabelTKey] of keys.go, the
    inverse of [NewTypeSizeLabelTKey]; a key of another class or of a
    wrong length is rejected. *)
Definition DecodeTypeSizeLabelTKey (tk : TKey) : Result error (IndexType * Z * Z) :=
  match tk with
  | class :: i :: ibytes =>
      if negb (Byte.eqb class keyTypeSizeLabel) then Err ErrBadKey
      else if negb (Nat.eqb (length ibytes) 12) then Err ErrBadKey
      else Ok (i, MaxUint32 - be_decode (take 4 ibytes), be_decode (drop 4 ibytes))
  | _ => Err ErrBadKey
  end.

(** *** The ordered key-value store seen through a versioned context

    Modelled from the spec: [storage.Chunk], the key and value handed
    to a range visitor. *)
Record Chunk : Type := mkChunk { K : TKey; V : list byte }.

(** Modelled from the spec: the engine contract of OrderedKeyValueDB
    (the drivers are not among the sources).  [db_kvs] is what the
    versioned context exposes of one data instance at one version, in
    the engine's ascending key order; [db_broken] is a backend whose
    calls fail with a store-io error. *)
Record OrderedKeyValueDB : Type := mkDB { db_kvs : list Chunk; db_broken : bool }.

(** Ascending key order of the engine. *)
Definition ascending (db : OrderedKeyValueDB) : Prop :=
  StronglySorted bytes_lt (K <$> db_kvs db).

Fixpoint ascendingb (ks : list TKey) : bool :=
  match ks with
  | [] => true
  | k :: ks' =>
      forallb (fun k' => match bytes_compare k k' with Lt => true | _ => false end) ks'
      && ascendingb ks'
  end.

(** [store.Get(ctx, tk)]: [None] is Go's nil value (key absent). *)
Definition Get (db : OrderedKeyValueDB) (tk : TKey) : Result error (option (list byte)) :=
  if db_broken db then Err ErrStoreIO
  else Ok (V <$> List.find (fun c => bytes_eqb (K c) tk) (db_kvs db)).

Definition in_range (begTKey endTKey : TKey) (c : Chunk) : bool :=
  bytes_leb begTKey (K c) && bytes_leb (K c) endTKey.

(** A run-time panic (index out of range, a slice that cannot be
    made) is [None]. *)
Definition Go (A : Type) : Type := option A.

(** The visitor loop of [ProcessRange]: chunks are handed over in
    order, the first error returned by the visitor ends the scan and is
    what [ProcessRange] returns. *)
Fixpoint process_chunks {S : Type} (f : Chunk -> S -> Go (S * option error))
    (cs : list Chunk) (st : S) : Go (S * option error) :=
  match cs with
  | [] => Some (st, None)
  | c :: cs' =>
      match f c st with
      | None => None
      | Some (st', Some e) => Some (st', Some e)
      | Some (st', None) => process_chunks f cs' st'
      end
  end.

(** [store.ProcessRange(ctx, begTKey, endTKey, nil, f)] over the keys
    between the two bounds, both included. *)
Definition ProcessRange {S : Type} (db : OrderedKeyValueDB) (begTKey endTKey : TKey)
    (f : Chunk -> S -> Go (S * option error)) (st : S) : Go (S * option error) :=
  if db_broken db then Some (st, Some ErrStoreIO)
  else process_chunks f (List.filter (in_range begTKey endTKey) (db_kvs db)) st.

(** *** Label sizes *)

Record LabelSize : Type := mkLabelSize { Label : Z; Size : Z }.

Abbreviation LabelSizes := (list LabelSize) (only parsing).

Definition MaxLabelsReturned : Z := 10000.

(** A [LabelSize] takes 16 bytes: a [uint64], a [uint32] and the
    padding that aligns the next element. *)
Definition sizeof_LabelSize : Z := 16.

(** [make(LabelSizes, n)]: [n] zero values, when the runtime can
    allocate them. *)
Definition make {machine : Machine} (n : Z) : Go LabelSizes :=
  makeslice sizeof_LabelSize (mkLabelSize 0 0) n.

(** [s[i] = x]; an index outside the slice panics. *)
Definition slice_set (s : LabelSizes) (i : Z) (x : LabelSize) : Go LabelSizes :=
  if (0 <=? i) && (i <? Z.of_nat (length s)) then Some (<[Z.to_nat i := x]> s) else None.

(** [s[:k]]; a bound outside the slice panics. *)
Definition slice_to (s : LabelSizes) (k : Z) : Go LabelSizes :=
  if (0 <=? k) && (k <=? Z.of_nat (length s)) then Some (take (Z.to_nat k) s) else None.

(** *** ROI (datatype/roi, external) *)

Definition Point3d : Type := (Z * Z * Z)%type.

Record ElementPos : Type := mkElementPos { Pos : Point3d }.

(** Modelled from the spec: [roi.Immutable], an immutable set of
    positions with its [VoxelWithin] test. *)
Record Immutable : Type := mkImmutable { VoxelWithin : Point3d -> bool }.

(** *** Data *)

Record Data : Type := mkData {
  StaticROI : string;
  (** outcome of [d.GetOrderedKeyValueDB()] *)
  GetOrderedKeyValueDB : Result error OrderedKeyValueDB;
  iROI : option Immutable;
  roiChecked : bool
}.

(** The variables captured and updated by the range visitors. *)
Record scan : Type := mkScan { lsz : LabelSizes; rank : Z; saved : Z }.

(** [inROI].  [ImmutableBySpec k spec] is the outcome of the call
    [roi.ImmutableBySpec(spec)] when [k] such calls were made before;
    the third component of the result counts the calls made so far. *)
Definition inROI (ImmutableBySpec : nat -> string -> Result error (option Immutable))
    (loads : nat) (d : Data) (e : ElementPos) : bool * Data * nat :=
  if String.eqb (StaticROI d) "" then (true, d, loads)
  else
    let step :=
      if negb (roiChecked d) then
        let d1 := mkData (StaticROI d) (GetOrderedKeyValueDB d) (iROI d) true in
        match ImmutableBySpec loads (StaticROI d) with
        | Err _ => (Some false, d1, S loads)
        | Ok r => (None, mkData (StaticROI d) (GetOrderedKeyValueDB d) r true, S loads)
        end
      else (None, d, loads) in
    match step with
    | (Some b, d', loads') => (b, d', loads')
    | (None, d', loads') =>
        match iROI d' with
        | None => (false, d', loads')
        | Some r => (VoxelWithin r (Pos e), d', loads')
        end
    end.

(** A sequence of [inROI] calls on the same data instance. *)
Fixpoint inROI_all (ImmutableBySpec : nat -> string -> Result error (option Immutable))
    (loads : nat) (d : Data) (es : list ElementPos) : list bool * Data * nat :=
  match es with
  | [] => ([], d, loads)
  | e :: es' =>
      let '(b, d', loads') := inROI ImmutableBySpec loads d e in
      let '(bs, d'', loads'') := inROI_all ImmutableBySpec loads' d' es' in
      (b :: bs, d'', loads'')
  end.

(** [GetCountElementType]. *)
Definition GetCountElementType (d : Data) (label : Z) (i : IndexType) : Result error Z :=
  match GetOrderedKeyValueDB d with
  | Err e => Err e
  | Ok store =>
      match Get store (NewTypeLabelTKey i label) with
      | Err e => Err e
      | Ok None => Ok 0
      | Ok (Some val) =>
          if negb (Nat.eqb (length val) 4)
          then Err (ErrBadValueSize i label (Z.of_nat (length val)))
          else Ok (le_decode val)
      end
  end.

(** Bounds of the size-key span of index type [i]. *)
Definition begTKey (i : IndexType) : TKey := NewTypeSizeLabelTKey i (MaxUint32 - 1) 0.

Definition endTKey (i : IndexType) : TKey := NewTypeSizeLabelTKey i 0 MaxUint64.

(** The visitor closure of [GetTopElementType]. *)
Definition top_visitor (i : IndexType) (n : Z) (chunk : Chunk) (st : scan)
    : Go (scan * option error) :=
  match DecodeTypeSizeLabelTKey (K chunk) with
  | Err e => Some (st, Some e)
  | Ok (idxType, sz, label) =>
      if negb (Byte.eqb idxType i) then Some (st, Some (ErrBadIteration i idxType))
      else
        match slice_set (lsz st) (rank st) (mkLabelSize label sz) with
        | None => None
        | Some l =>
            let st' := mkScan l (wrap_int (rank st + 1)) (saved st) in
            if rank st' >=? n then Some (st', Some shortCircuitErr)
            else Some (st', None)
        end
  end.

(** [GetTopElementType]. *)
Definition GetTopElementType {machine : Machine} (d : Data) (n : Z) (i : IndexType)
    : Go (Result error LabelSizes) :=
  if n <? 0 then Some (Err (ErrBadN n))
  else if n =? 0 then Some (Ok [])
  else
    match GetOrderedKeyValueDB d with
    | Err e => Some (Err e)
    | Ok store =>
        match make n with
        | None => None
        | Some lsz0 =>
            match ProcessRange store (begTKey i) (endTKey i) (top_visitor i n)
                    (mkScan lsz0 0 0) with
            | None => None
            | Some (st, err) =>
                match err with
                | Some e =>
                    if is_shortCircuit e then Ok <$> slice_to (lsz st) (rank st)
                    else Some (Err e)
                | None => Ok <$> slice_to (lsz st) (rank st)
                end
            end
        end
    end.

(** The visitor closure of [GetLabelsByThreshold]. *)
Definition threshold_visitor (i : IndexType) (minSize offset nReturns : Z)
    (chunk : Chunk) (st : scan) : Go (scan * option error) :=
  match DecodeTypeSizeLabelTKey (K chunk) with
  | Err e => Some (st, Some e)
  | Ok (idxType, sz, label) =>
      if negb (Byte.eqb idxType i) then Some (st, Some (ErrBadIteration i idxType))
      else if sz <? minSize then Some (st, Some shortCircuitErr)
      else if (rank st >=? offset) && (rank st <? wrap_int (offset + nReturns)) then
        match slice_set (lsz st) (saved st) (mkLabelSize label sz) with
        | None => None
        | Some l =>
            let st' := mkScan l (rank st) (wrap_int (saved st + 1)) in
            if saved st' =? nReturns then Some (st', Some shortCircuitErr)
            else Some (mkScan l (wrap_int (rank st + 1)) (saved st'), None)
        end
      else Some (mkScan (lsz st) (wrap_int (rank st + 1)) (saved st), None)
  end.

(** [GetLabelsByThreshold]; [minSize] is a [uint32]. *)
Definition GetLabelsByThreshold {machine : Machine} (d : Data) (i : IndexType)
    (minSize : Z) (offset num : Z) : Go (Result error LabelSizes) :=
  if num <? 0 then Some (Err (ErrBadNum num))
  else
    let nReturns := if num =? 0 then MaxLabelsReturned else num in
    match GetOrderedKeyValueDB d with
    | Err e => Some (Err e)
    | Ok store =>
        match make nReturns with
        | None => None
        | Some lsz0 =>
            match ProcessRange store (begTKey i) (endTKey i)
                    (threshold_visitor i minSize offset nReturns)
                    (mkScan lsz0 0 0) with
            | None => None
            | Some (st, err) =>
                match err with
                | Some e =>
                    if is_shortCircuit e then Ok <$> slice_to (lsz st) (saved st)
                    else Some (Err e)
                | None => Ok <$> slice_to (lsz st) (saved st)
                end
            end
        end
    end.

(** *** Specification-level views used in the statements *)

(** The chunks a scan of index type [i] is handed: the size-key span. *)
Definition span (i : IndexType) (db : OrderedKeyValueDB) : list Chunk :=
  List.filter (in_range (begTKey i) (endTKey i)) (db_kvs db).

(** What a visitor makes of one chunk before it looks at its counters. *)
Definition entry (i : IndexType) (c : Chunk) : Result error LabelSize :=
  match DecodeTypeSizeLabelTKey (K c) with
  | Err e => Err e
  | Ok (idxType, sz, label) =>
      if negb (Byte.eqb idxType i) then Err (ErrBadIteration i idxType)
      else Ok (mkLabelSize label sz)
  end.

(** A key as labelsz writes them: a 10-byte record key or a 14-byte
    size key. *)
Definition labelsz_key (k : TKey) : bool :=
  match k with
  | class :: rest =>
      (Byte.eqb class keyTypeLabel && Nat.eqb (length rest) 9)
      || (Byte.eqb class keyTypeSizeLabel && Nat.eqb (length rest) 13)
  | [] => false
  end.

Definition labelsz_store (db : OrderedKeyValueDB) : Prop :=
  Forall (fun c => labelsz_key (K c) = true) (db_kvs db).

(** Rank order of the answers: larger count first, equal counts by
    ascending label. *)
Definition ranked_before (a b : LabelSize) : Prop :=
  Size a > Size b \/ (Size a = Size b /\ Label a < Label b).

Fixpoint rankedb (l : LabelSizes) : bool :=
  match l with
  | [] => true
  | a :: l' =>
      forallb (fun b => (Size b <? Size a) || ((Size a =? Size b) && (Label a <? Label b))) l'
      && rankedb l'
  end.

(** The leading entries of a scan whose count is at least [minSize]:
    the scan gives up at the first entry below it. *)
Fixpoint qualifying (minSize : Z) (es : list LabelSize) : list LabelSize :=
  match es with
  | [] => []
  | x :: es' => if Size x <? minSize then [] else x :: qualifying minSize es'
  end.

(** [x] was decoded from a chunk of [cs]. *)
Definition decoded_from (i : IndexType) (cs : list Chunk) (x : LabelSize) : Prop :=
  exists c, In c cs /\ entry i c = Ok x.

Definition collected (i : IndexType) (cs : list Chunk) (cap : Z) (l : LabelSizes) (k : Z) : Prop :=
  Z.of_nat (length l) = cap /\ 0 <= k <= cap /\
  Forall (decoded_from i cs) (take (Z.to_nat k) l).

(** *** Worked examples *)

Definition example_index : IndexType := "002"%byte.

(** Labels 7 (three elements) and 42 (two elements): two record keys
    and their two size keys, in ascending key order. *)
Definition example_store : OrderedKeyValueDB :=
  mkDB [ mkChunk (NewTypeLabelTKey example_index 7) (le_encode 4 3);
         mkChunk (NewTypeLabelTKey example_index 42) (le_encode 4 2);
         mkChunk (NewTypeSizeLabelTKey example_index 3 7) [];
         mkChunk (NewTypeSizeLabelTKey example_index 2 42) [] ] false.

Definition example_data : Data := mkData "" (Ok example_store) None false.

(** A label that reached the largest count a [uint32] holds. *)
Definition saturated_store : OrderedKeyValueDB :=
  mkDB [ mkChunk (NewTypeSizeLabelTKey example_index MaxUint32 9) [];
         mkChunk (NewTypeSizeLabelTKey example_index 3 7) [] ] false.

Definition saturated_data : Data := mkData "" (Ok saturated_store) None false.

(** 10,001 labels of count 1. *)
Definition crowded_store : OrderedKeyValueDB :=
  mkDB (List.map (fun l => mkChunk (NewTypeSizeLabelTKey example_index 1 (Z.of_nat l)) [])
          (seq 0 (Z.to_nat 10001))) false.

Definition crowded_data : Data := mkData "" (Ok crowded_store) None false.

(** Number of labels a call returned; -1 when it failed. *)
Definition returned (r : Go (Result error LabelSizes)) : Z :=
  match r with
  | Some (Ok l) => Z.of_nat (length l)
  | _ => -1
  end.

(** A labelsz instance bound to a static ROI that cannot be loaded. *)
Definition roi_data : Data := mkData "someroi,99ef22cd" (Ok example_store) None false.

Definition failing_ImmutableBySpec (k : nat) (spec : string)
    : Result error (option Immutable) := Err ErrNoStore.

(** A size key that lost its label: six bytes where fourteen are
    due, within the span of the index type. *)
Definition malformed_chunk : Chunk :=
  mkChunk [keyTypeSizeLabel; example_index; "255"; "255"; "255"; "253"]%byte [].

Definition malformed_store : OrderedKeyValueDB :=
  mkDB [ mkChunk (NewTypeSizeLabelTKey example_index 3 7) []; malformed_chunk ] false.

Definition malformed_data : Data := mkData "" (Ok malformed_store) None false.

(** *** The sort interface of [LabelSizes] *)

(** [s[i]]; an index outside the slice panics. *)
Definition slice_get (s : LabelSizes) (i : Z) : Go LabelSize :=
  if (0 <=? i) && (i <? Z.of_nat (length s)) then s !! Z.to_nat i else None.

(** [LabelSizes.Len]. *)
Definition Len (s : LabelSizes) : Z := Z.of_nat (length s).

(** [LabelSizes.Less]. *)
Definition Less (s : LabelSizes) (i j : Z) : Go bool :=
  match slice_get s i, slice_get s j with
  | Some a, Some b => Some (Size a <? Size b)
  | _, _ => None
  end.

(** [LabelSizes.Swap]: [s[i], s[j] = s[j], s[i]] reads both elements
    and then assigns [s[i]] and [s[j]] in this order. *)
Definition Swap (s : LabelSizes) (i j : Z) : Go LabelSizes :=
  match slice_get s i, slice_get s j with
  | Some a, Some b => Some (<[Z.to_nat j := a]> (<[Z.to_nat i := b]> s))
  | _, _ => None
  end.

(** *** Further worked examples *)

(** A region of interest: the half space below x = 10. *)
Definition half_space : Immutable := mkImmutable (fun p => fst (fst p) <? 10).

Definition loading_ImmutableBySpec (k : nat) (spec : string)
    : Result error (option Immutable) := Ok (Some half_space).

End Labelsz.

(** ** Raveler superpixel labels: datatype/labels64 *)

Module Labels64.

Import Bin GoRuntime.

Abbreviation Go := Labelsz.Go (only parsing).

Inductive error : Type :=
  | ErrAlignment (len : Z)
  | ErrDimensions (n : Z).

Definition zero : byte := "000"%byte.

(** [make([]byte, n, n)]: [n] zero bytes of one byte each, when the
    runtime can allocate them; a negative length panics. *)
Definition make {machine : Machine} (n : Z) : Go (list byte) := makeslice 1 zero n.

(** [s[i]]; an index outside the slice panics. *)
Definition slice_get (s : list byte) (i : Z) : Go byte :=
  if (0 <=? i) && (i <? Z.of_nat (length s)) then s !! Z.to_nat i else None.

(** [copy(dst[i:i+8], src)] for an eight-byte [src]; the slice
    expression panics unless [0 <= i <= i+8 <= cap(dst)]. *)
Definition copy_at (dst : list byte) (i : Z) (src : list byte) : Go (list byte) :=
  let hi := wrap_int (i + 8) in
  if (0 <=? i) && (i <=? hi) && (hi <=? Z.of_nat (length dst))
  then Some (take (Z.to_nat i) dst ++ take 8 src ++ drop (Z.to_nat hi) dst)
  else None.

(** [RavelerSuperpixelBytes]; both arguments are [uint32]. *)
Definition RavelerSuperpixelBytes (slice superpixel32 : Z) : list byte :=
  if negb (superpixel32 =? 0)
  then be_encode 4 slice ++ be_encode 4 superpixel32
  else replicate 8 zero.

(** What [addLabelZ] reads of its [dvid.Geometry]: the coordinates of
    [geom.StartPoint()] and of [geom.Size()], each an [int32]. *)
Record Geometry : Type := mkGeometry { StartPoint : list Z; Size : list Z }.

(** [Point.NumDims] and [Point.Value]; a dimension the point does not
    have panics. *)
Definition NumDims (p : list Z) : Z := Z.of_nat (length p).

Definition Value (p : list Z) (dim : nat) : Go Z := p !! dim.

(** [zeroSuperpixelBytes := make([]byte, 8, 8)]. *)
Definition zeroSuperpixelBytes : list byte := replicate 8 zero.

(** The variables the two loops of [addLabelZ] update. *)
Record pixels : Type := mkPixels {
  srcI : Z;
  dstI : Z;
  data64 : list byte;
  superpixelBytes : list byte
}.

(** The body of the inner loop: one pixel of four bytes becomes one
    label of eight. *)
Definition pixel (data32 : list byte) (st : pixels) : Go pixels :=
  match slice_get data32 (srcI st), slice_get data32 (wrap_int (srcI st + 1)),
        slice_get data32 (wrap_int (srcI st + 2)) with
  | Some r, Some g, Some b =>
      let sp :=
        if Byte.eqb r zero && Byte.eqb g zero && Byte.eqb b zero
        then superpixelBytes st
        else <[7%nat := r]> (<[6%nat := g]> (<[5%nat := b]> (superpixelBytes st))) in
      let src :=
        if Byte.eqb r zero && Byte.eqb g zero && Byte.eqb b zero
        then zeroSuperpixelBytes
        else sp in
      match copy_at (data64 st) (dstI st) src with
      | None => None
      | Some out =>
          Some (mkPixels (wrap_int (srcI st + 4)) (wrap_int (dstI st + 8)) out sp)
      end
  | _, _, _ => None
  end.

(** The inner loop: [nx] pixels. *)
Fixpoint row (data32 : list byte) (nx : nat) (st : pixels) : Go pixels :=
  match nx with
  | O => Some st
  | S k =>
      match pixel data32 st with
      | None => None
      | Some st' => row data32 k st'
      end
  end.

(** The outer loop from row [y] on: [ny] rows, each starting at
    [srcI := y * int(stride)]. *)
Fixpoint rows (data32 : list byte) (stride : Z) (nx : nat) (y : Z) (ny : nat)
    (st : pixels) : Go pixels :=
  match ny with
  | O => Some st
  | S k =>
      match row data32 nx (mkPixels (wrap_int (y * stride)) (dstI st) (data64 st)
                             (superpixelBytes st)) with
      | None => None
      | Some st' => rows data32 stride nx (y + 1) k st'
      end
  end.

(** [addLabelZ]; the loop counters run over [0 <= x < nx] and
    [0 <= y < ny]. *)
Definition addLabelZ {machine : Machine} (geom : Geometry) (data32 : list byte) (stride : Z)
    : Go (Result error (list byte)) :=
  if negb (Z.of_nat (length data32) mod 4 =? 0)
  then Some (Err (ErrAlignment (Z.of_nat (length data32))))
  else
    let coord := StartPoint geom in
    if NumDims coord <? 3 then Some (Err (ErrDimensions (NumDims coord)))
    else
      match Value coord 2 with
      | None => None
      | Some z =>
          let sp0 := be_encode 4 (uint32 z) ++ replicate 4 zero in
          match Value (Size geom) 0, Value (Size geom) 1 with
          | Some nx, Some ny =>
              let numBytes := wrap_int (wrap_int (nx * ny) * 8) in
              match make numBytes with
              | None => None
              | Some buf =>
                  match rows data32 stride (Z.to_nat nx) 0 (Z.to_nat ny)
                          (mkPixels 0 0 buf sp0) with
                  | None => None
                  | Some st => Some (Ok (data64 st))
                  end
              end
          | _, _ => None
          end
      end.

(** *** Specification-level views used in the statements *)

(** The 24-bit superpixel of the pixel whose first byte is at [src]:
    its first three bytes, least significant first. *)
Definition superpixel (data32 : list byte) (src : Z) : Z :=
  Z_of_byte (default zero (data32 !! Z.to_nat src))
  + 2 ^ 8 * Z_of_byte (default zero (data32 !! Z.to_nat (src + 1)))
  + 2 ^ 16 * Z_of_byte (default zero (data32 !! Z.to_nat (src + 2))).

(** The label of that pixel in slice [z]. *)
Definition pixel_label (z : Z) (data32 : list byte) (src : Z) : list byte :=
  RavelerSuperpixelBytes (uint32 z) (superpixel data32 src).

(** The labels of [n] pixels from [src] on. *)
Fixpoint row_labels (z : Z) (data32 : list byte) (src : Z) (n : nat) : list byte :=
  match n with
  | O => []
  | S k => pixel_label z data32 src ++ row_labels z data32 (src + 4) k
  end.

(** The labels of [ny] rows of [nx] pixels from row [y] on. *)
Fixpoint image_labels (z : Z) (data32 : list byte) (stride : Z) (nx : nat)
    (y : Z) (ny : nat) : list byte :=
  match ny with
  | O => []
  | S k =>
      row_labels z data32 (y * stride) nx ++ image_labels z data32 stride nx (y + 1) k
  end.

(** The scratch buffer of [addLabelZ] keeps the slice in its first four
    bytes and a zero in the fifth. *)
Definition scratch_of (z : Z) (sp : list byte) : Prop :=
  exists b5 b6 b7, sp = be_encode 4 (uint32 z) ++ [zero; b5; b6; b7].

(** *** Worked examples *)

(** A 2 x 2 image at z = 5 with a stride of 12 bytes: superpixels 1 and
    0 in the first row, 0x030201 and 0x010000 in the second; the fourth
    byte of a pixel is its alpha channel. *)
Definition example_geometry : Geometry := mkGeometry [0; 0; 5] [2; 2].

Definition example_image : list byte :=
  ["001"; "000"; "000"; "255";  "000"; "000"; "000"; "255";  "009"; "009"; "009"; "009";
   "001"; "002"; "003"; "255";  "000"; "000"; "001"; "000";  "009"; "009"; "009"; "009"]%byte.

End Labels64.

(** ** Store configurations: package dvid *)

Module Dvid.

(** A value of Go's [interface{}] as it occurs in a parsed TOML table. *)
Inductive any : Type :=
  | AString (s : string)
  | ABool (b : bool)
  | AInt (z : Z).

(** Modelled from the spec: [dvid.StoreConfig], the engine name of a
    [store.<alias>] table and its engine-specific settings
    ([Config.GetAll()]). *)
Record StoreConfig : Type := mkStoreConfig {
  Engine : string;
  GetAll : gmap string any
}.

End Dvid.

(** ** Logging: package dvid *)

Module DvidLog.

(** [ModeFlag] is a [uint]; its constants are numbered by [iota]. *)
Definition DebugMode : Z := 0.
Definition InfoMode : Z := 1.
Definition WarningMode : Z := 2.
Definition ErrorMode : Z := 3.
Definition CriticalMode : Z := 4.
Definition SilentMode : Z := 5.

(** The method of the [Logger] that a queued message is bound to. *)
Inductive logFunc : Type :=
  | logger_Debugf
  | logger_Infof
  | logger_Warningf
  | logger_Errorf
  | logger_Criticalf.

Record logMessage : Type := mkLogMessage { f : logFunc; msg : string }.

(** The state of the package: the mode, the messages waiting in
    [logCh], oldest first, and the messages the logger was handed so
    far.  A send on the channel is modelled by the message joining the
    queue; that it may wait for room is left out. *)
Record logging : Type := mkLogging {
  mode : Z;
  logCh : list logMessage;
  logged : list logMessage
}.

(** [logCh <- m]. *)
Definition send (m : logMessage) (st : logging) : logging :=
  mkLogging (mode st) (logCh st ++ [m]) (logged st).

(** [SetLogMode]. *)
Definition SetLogMode (newMode : Z) (st : logging) : logging :=
  mkLogging newMode (logCh st) (logged st).

(** [Debugf], [Infof], [Warningf], [Errorf] and [Criticalf]; [s] is
    the text [fmt.Sprintf] made of the format and its arguments. *)
Definition Debugf (s : string) (st : logging) : logging :=
  if mode st <=? DebugMode then send (mkLogMessage logger_Debugf s) st else st.

Definition Infof (s : string) (st : logging) : logging :=
  if mode st <=? InfoMode then send (mkLogMessage logger_Infof s) st else st.

Definition Warningf (s : string) (st : logging) : logging :=
  if mode st <=? WarningMode then send (mkLogMessage logger_Warningf s) st else st.

Definition Errorf (s : string) (st : logging) : logging :=
  if mode st <=? ErrorMode then send (mkLogMessage logger_Errorf s) st else st.

Definition Criticalf (s : string) (st : logging) : logging :=
  if mode st <=? CriticalMode then send (mkLogMessage logger_Criticalf s) st else st.

(** [PendingLogMessages]. *)
Definition PendingLogMessages (st : logging) : Z := Z.of_nat (length (logCh st)).

(** One turn of the goroutine that [init] starts: [msg.f(msg.msg)] for
    the next message of the channel. *)
Definition deliver (st : logging) : logging :=
  match logCh st with
  | [] => st
  | m :: q => mkLogging (mode st) q (logged st ++ [m])
  end.

(** *** Views used in the statements *)

(** A call of one of the five package functions. *)
Definition call (c : logFunc * string) (st : logging) : logging :=
  match fst c with
  | logger_Debugf => Debugf (snd c) st
  | logger_Infof => Infof (snd c) st
  | logger_Warningf => Warningf (snd c) st
  | logger_Errorf => Errorf (snd c) st
  | logger_Criticalf => Criticalf (snd c) st
  end.

(** The severity of a call: the highest mode that still lets it through. *)
Definition severity (g : logFunc) : Z :=
  match g with
  | logger_Debugf => DebugMode
  | logger_Infof => InfoMode
  | logger_Warningf => WarningMode
  | logger_Errorf => ErrorMode
  | logger_Criticalf => CriticalMode
  end.

(** The goroutine taking [n] turns. *)
Fixpoint deliver_n (n : nat) (st : logging) : logging :=
  match n with
  | O => st
  | S k => deliver_n k (deliver st)
  end.

(** *** Worked examples *)

Definition example_calls : list (logFunc * string) :=
  [ (logger_Debugf, "opening"); (logger_Errorf, "bad store"); (logger_Infof, "done");
    (logger_Criticalf, "panic") ].

End DvidLog.

(** ** The file-based append-only log: storage/filelog *)

Module Filelog.

Import Bin Dvid.

Inductive error : Type :=
  | ErrPathMissing
  | ErrPathNotString
  | ErrTestingNotBool
  | ErrMkdir
  | ErrOpenFile
  | ErrWrite
  | ErrAppendOpen (cause : error)
  | ErrBadHeaderWrite (cause : error)
  | ErrAppendWrite (cause : error)
  | EOF
  | ErrUnexpectedEOF.

(** *** The operating system

    Files are byte strings by name; directories are a set of names;
    [unreachable] holds the paths that cannot be examined (no
    permission to search a directory on the way, a regular file on the
    way, ...).  [script] lists the outcome of the coming system calls
    that change the file system ([MkdirAll], [OpenFile], [Write]); when
    it runs out every such call succeeds.  A write that fails may still
    have put a prefix of its buffer into the file. *)
Inductive outcome : Type :=
  | Succeeds
  | Fails (written : nat).

Record OS : Type := mkOS {
  disk : gmap string (list byte);
  dirs : gset string;
  script : list outcome;
  unreachable : gset string
}.

Definition next_outcome (os : OS) : outcome * OS :=
  match script os with
  | [] => (Succeeds, os)
  | o :: rest => (o, mkOS (disk os) (dirs os) rest (unreachable os))
  end.

(** The error of [os.Stat], a [*PathError]: the path does not exist, or
    the call failed for another reason. *)
Inductive PathError : Type :=
  | ErrNotExist
  | ErrStat.

(** [os.Stat(path)], of which [newWriteLogs] keeps the error only:
    [None] is the nil error of a path that exists, as a directory or as
    a regular file. *)
Definition Stat (os : OS) (path : string) : option PathError :=
  if decide (path ∈ unreachable os) then Some ErrStat
  else if decide (path ∈ dirs os) then None
  else match disk os !! path with
       | Some _ => None
       | None => Some ErrNotExist
       end.

(** [os.IsNotExist(err)]. *)
Definition IsNotExist (err : option PathError) : bool :=
  match err with
  | Some ErrNotExist => true
  | _ => false
  end.

(** [os.MkdirAll(path, 0755)] after [os.Stat] reported the path missing. *)
Definition MkdirAll (os : OS) (path : string) : OS * option error :=
  match next_outcome os with
  | (Succeeds, os') =>
      (mkOS (disk os') ({[path]} ∪ dirs os') (script os') (unreachable os'), None)
  | (Fails _, os') => (os', Some ErrMkdir)
  end.

(** [os.OpenFile(name, O_WRONLY|O_CREATE|O_APPEND|O_SYNC, 0755)]: the
    file is created empty when it does not exist; the handle is the
    file's name. *)
Definition OpenFile (os : OS) (filename : string) : OS * Result error string :=
  match next_outcome os with
  | (Succeeds, os') =>
      let d := match disk os' !! filename with
               | Some _ => disk os'
               | None => <[filename := []]> (disk os')
               end in
      (mkOS d (dirs os') (script os') (unreachable os'), Ok filename)
  | (Fails _, os') => (os', Err ErrOpenFile)
  end.

(** [f.Write(buf)] on a file opened with [O_APPEND]: the bytes go to
    the end of the file. *)
Definition Write (os : OS) (f : string) (buf : list byte) : OS * option error :=
  let content := default [] (disk os !! f) in
  match next_outcome os with
  | (Succeeds, os') =>
      (mkOS (<[f := content ++ buf]> (disk os')) (dirs os') (script os') (unreachable os'),
       None)
  | (Fails k, os') =>
      (mkOS (<[f := content ++ take k buf]> (disk os')) (dirs os') (script os')
         (unreachable os'),
       Some ErrWrite)
  end.

(** What the process cannot decide: [os.TempDir()] and [filepath.Join]. *)
Record Platform : Type := mkPlatform {
  TempDir : string;
  Join : string -> string -> string
}.

(** *** The engine *)

(** [parseConfig]: the path of the log directory and the testing flag. *)
Definition parseConfig (pf : Platform) (config : StoreConfig) : Result error (string * bool) :=
  match GetAll config !! "path" with
  | None => Err ErrPathMissing
  | Some (AString path) =>
      match GetAll config !! "testing" with
      | None => Ok (path, false)
      | Some (ABool testing) =>
          if testing then Ok (Join pf (TempDir pf) path, true) else Ok (path, false)
      | Some _ => Err ErrTestingNotBool
      end
  | Some _ => Err ErrPathNotString
  end.

(** [flog]: an open log file (its mutex is left out: appends are
    modelled one at a time). *)
Record flog : Type := mkFlog { File : string }.

(** [writeLogs]. *)
Record writeLogs : Type := mkWriteLogs {
  path : string;
  config : StoreConfig;
  files : gmap string flog
}.

(** [Engine.newWriteLogs]: the directory is made when [os.Stat] says
    that the path does not exist; with any other answer of [os.Stat]
    the log counts as found. *)
Definition newWriteLogs (pf : Platform) (os : OS) (cfg : StoreConfig)
    : OS * Result error (writeLogs * bool) :=
  match parseConfig pf cfg with
  | Err e => (os, Err e)
  | Ok (p, _) =>
      if IsNotExist (Stat os p) then
        match MkdirAll os p with
        | (os', Some e) => (os', Err e)
        | (os', None) => (os', Ok (mkWriteLogs p cfg ∅, true))
        end
      else (os, Ok (mkWriteLogs p cfg ∅, false))
  end.

(** [writeLogs.Equal]. *)
Definition Equal (pf : Platform) (wlogs : writeLogs) (cfg : StoreConfig) : bool :=
  match parseConfig pf cfg with
  | Err _ => false
  | Ok (p, _) => String.eqb p (path wlogs)
  end.

(** Key of a log file: [dataID + "-" + version]. *)
Definition log_key (dataID version : string) : string :=
  (dataID ++ "-" ++ version)%string.

(** [writeLogs.getLogFile]. *)
Definition getLogFile (pf : Platform) (os : OS) (wlogs : writeLogs) (dataID version : string)
    : OS * writeLogs * Result error flog :=
  let k := log_key dataID version in
  match files wlogs !! k with
  | Some fl => (os, wlogs, Ok fl)
  | None =>
      let filename := Join pf (path wlogs) k in
      match OpenFile os filename with
      | (os', Err e) => (os', wlogs, Err e)
      | (os', Ok f) =>
          let fl := mkFlog f in
          (os', mkWriteLogs (path wlogs) (config wlogs) (<[k := fl]> (files wlogs)), Ok fl)
      end
  end.

(** [flog.writeHeader]: six bytes, the entry type as a little-endian
    u16 and [uint32(len(data))] as a little-endian u32. *)
Definition header (entryType : Z) (data : list byte) : list byte :=
  le_encode 2 (uint16 entryType) ++ le_encode 4 (uint32 (Z.of_nat (length data))).

Definition writeHeader (os : OS) (f : flog) (entryType : Z) (data : list byte)
    : OS * option error :=
  Write os (File f) (header entryType data).

(** [io.ReadFull(r, buf)] for a buffer of [n] bytes over what is left
    of a file: the bytes read and the rest. *)
Definition ReadFull (n : nat) (input : list byte) : Result error (list byte * list byte) :=
  match input with
  | [] => if Nat.eqb n 0 then Ok ([], []) else Err EOF
  | _ => if (n <=? length input)%nat then Ok (take n input, drop n input)
         else Err ErrUnexpectedEOF
  end.

(** [flog.readHeader] on what is left of the file. *)
Definition readHeader (input : list byte) : Result error (Z * Z * list byte) :=
  match ReadFull 6 input with
  | Err e => Err e
  | Ok (buf, rest) => Ok (le_decode (take 2 buf), le_decode (drop 2 buf), rest)
  end.

(** [writeLogs.Append]. *)
Definition Append (pf : Platform) (os : OS) (wlogs : writeLogs)
    (entryType : Z) (dataID version : string) (p : list byte)
    : OS * writeLogs * option error :=
  match getLogFile pf os wlogs dataID version with
  | (os1, wlogs1, Err e) => (os1, wlogs1, Some (ErrAppendOpen e))
  | (os1, wlogs1, Ok fl) =>
      match writeHeader os1 fl entryType p with
      | (os2, Some e) => (os2, wlogs1, Some (ErrBadHeaderWrite e))
      | (os2, None) =>
          match Write os2 (File fl) p with
          | (os3, Some e) => (os3, wlogs1, Some (ErrAppendWrite e))
          | (os3, None) => (os3, wlogs1, None)
          end
      end
  end.

(** A log record: entry type, length field, payload. *)
Record entry : Type := mkEntry { etype : Z; elen : Z; payload : list byte }.

(** A run of [Append] calls on the log of one [(dataID, version)];
    the result lists the error of each call. *)
Fixpoint Append_all (pf : Platform) (os : OS) (wlogs : writeLogs)
    (dataID version : string) (calls : list (Z * list byte))
    : OS * writeLogs * list (option error) :=
  match calls with
  | [] => (os, wlogs, [])
  | (t, p) :: calls' =>
      let '(os1, wlogs1, err) := Append pf os wlogs t dataID version p in
      let '(os2, wlogs2, errs) := Append_all pf os1 wlogs1 dataID version calls' in
      (os2, wlogs2, err :: errs)
  end.

(** The path of the log file of [(dataID, version)]. *)
Definition log_file (pf : Platform) (wlogs : writeLogs) (dataID version : string) : string :=
  Join pf (path wlogs) (log_key dataID version).

(** Every open log file of [wlogs] is the file [getLogFile] opens. *)
Definition open_files_ok (pf : Platform) (wlogs : writeLogs) : Prop :=
  forall k fl, files wlogs !! k = Some fl -> File fl = Join pf (path wlogs) k.

(** The frame of one record as the spec draws it: u16 type, u32 length,
    payload, integers little-endian. *)
Definition frame (t : Z) (p : list byte) : list byte :=
  le_encode 2 t ++ le_encode 4 (Z.of_nat (length p)) ++ p.

(** [rec] is a record of type [t] with payload [p]: a two-byte field
    that reads [t], a four-byte field that reads [len(p)], then [p]. *)
Definition well_framed (t : Z) (p rec : list byte) : Prop :=
  exists tb lb,
    rec = tb ++ lb ++ p /\ length tb = 2%nat /\ length lb = 4%nat /\
    le_decode tb = t /\ le_decode lb = Z.of_nat (length p).

(** [content] is the concatenation, in order, of one well-framed record
    per call. *)
Definition log_of (calls : list (Z * list byte)) (content : list byte) : Prop :=
  exists recs,
    Forall2 (fun c rec => well_framed (fst c) (snd c) rec) calls recs /\
    content = concat recs.

Definition entry_of (c : Z * list byte) : entry :=
  mkEntry (fst c) (Z.of_nat (length (snd c))) (snd c).

(** Reading a log back: a header through [readHeader], then as many
    payload bytes as its length field says, until the file ends at a
    record boundary.  [fuel] bounds the number of records; [None] is a
    reader that ran out of it. *)
Fixpoint read_log (fuel : nat) (input : list byte) : option (Result error (list entry)) :=
  match input with
  | [] => Some (Ok [])
  | _ =>
      match fuel with
      | O => None
      | S fuel' =>
          match readHeader input with
          | Err e => Some (Err e)
          | Ok (t, n, rest) =>
              match ReadFull (Z.to_nat n) rest with
              | Err e => Some (Err e)
              | Ok (p, rest') =>
                  match read_log fuel' rest' with
                  | None => None
                  | Some (Err e) => Some (Err e)
                  | Some (Ok es) => Some (Ok (mkEntry t n p :: es))
                  end
              end
          end
      end
  end.

(** *** Worked examples *)

Definition example_platform : Platform :=
  mkPlatform "/tmp" (fun a b => (a ++ "/" ++ b)%string).

(** A disk without files, on which no call fails. *)
Definition fresh_os : OS := mkOS ∅ ∅ [] ∅.

Definition example_config : StoreConfig :=
  mkStoreConfig "filelog" {[ "path" := AString "/data/mutationlogs" ]}.

Definition example_logs : writeLogs := mkWriteLogs "/data/mutationlogs" example_config ∅.

Definition example_calls : list (Z * list byte) :=
  [ (1, ["001"; "002"; "003"]%byte); (7, []); (513, ["255"]%byte) ].

(** A payload of 2^32 zero bytes. *)
Definition oversized_payload : list byte := replicate (Z.to_nat (2 ^ 32)) "000"%byte.

(** A system on which the file can be opened and the next write fails
    after two bytes. *)
Definition failing_os : OS := mkOS ∅ ∅ [Succeeds; Fails 2] ∅.

(** An [Append] whose header write fails. *)
Definition torn_append : OS * writeLogs * option error :=
  Append example_platform failing_os example_logs 1 "d" "v" ["001"; "002"; "003"]%byte.

(** The log file of [("d", "v")], opened on a fresh disk. *)
Definition opened_log : OS * writeLogs * Result error flog :=
  getLogFile example_platform fresh_os example_logs "d" "v".

(** The sample log opened on a fresh disk. *)
Definition new_logs : OS * Result error (writeLogs * bool) :=
  newWriteLogs example_platform fresh_os example_config.

(** A disk on which the path of the sample log is a regular file. *)
Definition occupied_os : OS := mkOS {[ "/data/mutationlogs" := [] ]} ∅ [] ∅.

(** A system on which the path of the sample log cannot be examined. *)
Definition closed_os : OS := mkOS ∅ ∅ [] {[ "/data/mutationlogs" ]}.

(** The same directory under another engine name. *)
Definition renamed_config : StoreConfig :=
  mkStoreConfig "otherlog" {[ "path" := AString "/data/mutationlogs"; "testing" := ABool false ]}.

End Filelog.

(** ** Backend routing: the storage manager (package storage) *)

Module Storage.

Import Dvid.

(** [storage.Alias], [dvid.TypeString], [dvid.DataSpecifier],
    [dvid.InstanceName] and [dvid.UUID] are all strings. *)
Inductive error : Type :=
  | ErrNotInitialized
  | ErrDuplicate (alias dbalias : string)
  | ErrBadStore (alias : string)
  | ErrNotWriteLog (alias : string)
  | ErrNoDefault
  | ErrGroupcache
  | ErrBadAlias (dataspec alias : string)
  | ErrBadSpec (dataspec : string)
  | ErrNotOrdered
  | ErrGraphStore
  | ErrNoGraphSetter
  | ErrNoGraphGetter
  | ErrCannotGetStore (dataname typename : string)
  | ErrCannotGetLog (dataname typename : string).

(** The errors of the lookups that take no data instance. *)
Inductive lookup_error : Type :=
  | NotInitialized
  | NoDefaultKV
  | NoDefaultLog
  | MetadataNotOrdered
  | DefaultNotOrdered
  | NoStoreWithAlias (alias : string).

(** *** Go's strings package *)

(** The double quote (code 34) and the colon (code 58). *)
Definition quote : Ascii.ascii := Ascii.ascii_of_nat 34.

Definition colon : Ascii.ascii := Ascii.ascii_of_nat 58.

Fixpoint trim_left (c : Ascii.ascii) (s : string) : string :=
  match s with
  | String a s' => if Ascii.eqb a c then trim_left c s' else s
  | EmptyString => EmptyString
  end.

(** [strings.Trim(s, cutset)] for a one-character cutset. *)
Definition Trim (s : string) (c : Ascii.ascii) : string :=
  String.rev (trim_left c (String.rev (trim_left c s))).

(** [strings.Split(s, sep)] for a one-character separator. *)
Fixpoint Split (s : string) (sep : Ascii.ascii) : list string :=
  match s with
  | EmptyString => [EmptyString]
  | String a s' =>
      if Ascii.eqb a sep then EmptyString :: Split s' sep
      else match Split s' sep with
           | h :: t => String a h :: t
           | [] => [String a EmptyString]
           end
  end.

(** Modelled from the spec: [storage.Backend], the [backend] table as
    [Initialize] reads it: the aliases of the default, metadata and log
    stores, the store configurations by alias, and the store and log
    assignments by datatype or ["name:uuid"]. *)
Record Backend (GroupcacheConfig : Type) : Type := mkBackend {
  Metadata : string;
  DefaultKVDB : string;
  DefaultLog : string;
  Stores : gmap string StoreConfig;
  KVStore : gmap string string;
  LogStore : gmap string string;
  Groupcache : GroupcacheConfig
}.

Arguments mkBackend {GroupcacheConfig}.
Arguments Metadata {GroupcacheConfig}.
Arguments DefaultKVDB {GroupcacheConfig}.
Arguments DefaultLog {GroupcacheConfig}.
Arguments Stores {GroupcacheConfig}.
Arguments KVStore {GroupcacheConfig}.
Arguments LogStore {GroupcacheConfig}.
Arguments Groupcache {GroupcacheConfig}.

(** Modelled from the spec: [groupcacheT], the cache and the set of
    data instances it serves. *)
Record groupcacheT (Cache : Type) : Type := mkGroupcache {
  cache : option Cache;
  supported : gset string
}.

Arguments mkGroupcache {Cache}.
Arguments cache {Cache}.
Arguments supported {Cache}.

(** [managerT].  An interface value is [None] when nil.  A [WriteLog]
    is the store itself seen through that interface. *)
Record managerT (Store GraphDB Cache : Type) : Type := mkManager {
  setup : bool;
  defaultKV : option Store;
  defaultLog : option Store;
  metadataStore : option Store;
  stores : gmap string Store;
  instanceStore : gmap string Store;
  datatypeStore : gmap string Store;
  instanceLog : gmap string Store;
  datatypeLog : gmap string Store;
  graphDB : option GraphDB;
  graphSetter : option GraphDB;
  graphGetter : option GraphDB;
  gcache : groupcacheT Cache
}.

Arguments mkManager {Store GraphDB Cache}.
Arguments setup {Store GraphDB Cache}.
Arguments defaultKV {Store GraphDB Cache}.
Arguments defaultLog {Store GraphDB Cache}.
Arguments metadataStore {Store GraphDB Cache}.
Arguments stores {Store GraphDB Cache}.
Arguments instanceStore {Store GraphDB Cache}.
Arguments datatypeStore {Store GraphDB Cache}.
Arguments instanceLog {Store GraphDB Cache}.
Arguments datatypeLog {Store GraphDB Cache}.
Arguments graphDB {Store GraphDB Cache}.
Arguments graphSetter {Store GraphDB Cache}.
Arguments graphGetter {Store GraphDB Cache}.
Arguments gcache {Store GraphDB Cache}.

(** What the manager is written against and the sources do not hold:
    the world the engines act on, the stores they open, and the helpers
    of other files. *)
Class Engines : Type := mkEngines {
  W : Type;
  Store : Type;
  GraphDB : Type;
  Cache : Type;
  GroupcacheConfig : Type;
  (** [store.Equal(config)] *)
  Equal : Store -> StoreConfig -> bool;
  (** [store.(WriteLog)] and [store.(OrderedKeyValueDB)] succeed *)
  isWriteLog : Store -> bool;
  isOrdered : Store -> bool;
  (** [NewStore(config)]: [None] is an error *)
  NewStore : W -> StoreConfig -> W * option (Store * bool);
  (** [setupGroupcache(config)]: the new [manager.gcache] and the error *)
  setupGroupcache : GroupcacheConfig -> groupcacheT Cache * option error;
  (** [wrapGroupcache(store, cache)] *)
  wrapGroupcache : option Store -> option Cache -> option Store * option error;
  (** [NewGraphStore(kvdb)] and the two assertions on its result *)
  NewGraphStore : Store -> option GraphDB;
  isGraphSetter : GraphDB -> bool;
  isGraphGetter : GraphDB -> bool;
  (** [dvid.GetDataSpecifier(name, uuid)] *)
  GetDataSpecifier : string -> string -> string;
  (** the order in which a [range] statement walks a map: Go leaves it
      unspecified, so it is any enumeration of the map's entries *)
  iter : forall V : Type, gmap string V -> list (string * V);
  iter_perm : forall (V : Type) (m : gmap string V), iter V m ≡ₚ map_to_list m
}.

Section Manager.

Context {engines : Engines}.

Local Abbreviation manager := (managerT Store GraphDB Cache).

(** The zero value [managerT{}]. *)
Definition zero : manager :=
  mkManager false None None None ∅ ∅ ∅ ∅ ∅ None None None (mkGroupcache None ∅).

Definition with_setup (b : bool) (m : manager) : manager :=
  mkManager b (defaultKV m) (defaultLog m) (metadataStore m) (stores m)
    (instanceStore m) (datatypeStore m) (instanceLog m) (datatypeLog m)
    (graphDB m) (graphSetter m) (graphGetter m) (gcache m).

Definition with_defaultKV (s : option Store) (m : manager) : manager :=
  mkManager (setup m) s (defaultLog m) (metadataStore m) (stores m)
    (instanceStore m) (datatypeStore m) (instanceLog m) (datatypeLog m)
    (graphDB m) (graphSetter m) (graphGetter m) (gcache m).

Definition with_defaultLog (s : option Store) (m : manager) : manager :=
  mkManager (setup m) (defaultKV m) s (metadataStore m) (stores m)
    (instanceStore m) (datatypeStore m) (instanceLog m) (datatypeLog m)
    (graphDB m) (graphSetter m) (graphGetter m) (gcache m).

Definition with_metadataStore (s : option Store) (m : manager) : manager :=
  mkManager (setup m) (defaultKV m) (defaultLog m) s (stores m)
    (instanceStore m) (datatypeStore m) (instanceLog m) (datatypeLog m)
    (graphDB m) (graphSetter m) (graphGetter m) (gcache m).

Definition with_stores (x : gmap string Store) (m : manager) : manager :=
  mkManager (setup m) (defaultKV m) (defaultLog m) (metadataStore m) x
    (instanceStore m) (datatypeStore m) (instanceLog m) (datatypeLog m)
    (graphDB m) (graphSetter m) (graphGetter m) (gcache m).

Definition with_kv_assignments (i t : gmap string Store) (m : manager) : manager :=
  mkManager (setup m) (defaultKV m) (defaultLog m) (metadataStore m) (stores m)
    i t (instanceLog m) (datatypeLog m)
    (graphDB m) (graphSetter m) (graphGetter m) (gcache m).

Definition with_log_assignments (i t : gmap string Store) (m : manager) : manager :=
  mkManager (setup m) (defaultKV m) (defaultLog m) (metadataStore m) (stores m)
    (instanceStore m) (datatypeStore m) i t
    (graphDB m) (graphSetter m) (graphGetter m) (gcache m).

Definition with_graph (g s t : option GraphDB) (m : manager) : manager :=
  mkManager (setup m) (defaultKV m) (defaultLog m) (metadataStore m) (stores m)
    (instanceStore m) (datatypeStore m) (instanceLog m) (datatypeLog m)
    g s t (gcache m).

Definition with_gcache (g : groupcacheT Cache) (m : manager) : manager :=
  mkManager (setup m) (defaultKV m) (defaultLog m) (metadataStore m) (stores m)
    (instanceStore m) (datatypeStore m) (instanceLog m) (datatypeLog m)
    (graphDB m) (graphSetter m) (graphGetter m) g.

(** *** Lookups *)

(** [assignedStoreByType]. *)
Definition assignedStoreByType (m : manager) (typename : string)
    : Result error (option Store) :=
  if negb (setup m) then Err ErrNotInitialized
  else
    match datatypeStore m !! typename with
    | None => Ok (defaultKV m)
    | Some store => Ok (Some store)
    end.

(** [GetAssignedStore]. *)
Definition GetAssignedStore (m : manager) (dataname root typename : string)
    : Result error (option Store) :=
  if negb (setup m) then Err ErrNotInitialized
  else
    let dataid := GetDataSpecifier dataname root in
    let found :=
      match instanceStore m !! dataid with
      | Some store => Ok (Some store)
      | None =>
          match assignedStoreByType m typename with
          | Err _ => Err (ErrCannotGetStore dataname typename)
          | Ok store => Ok store
          end
      end in
    match found with
    | Err e => Err e
    | Ok store =>
        if decide (dataid ∈ supported (gcache m))
        then Ok (fst (wrapGroupcache store (cache (gcache m))))
        else Ok store
    end.

(** [assignedLogByType]. *)
Definition assignedLogByType (m : manager) (typename : string)
    : Result error (option Store) :=
  if negb (setup m) then Err ErrNotInitialized
  else
    match datatypeLog m !! typename with
    | None =>
        match defaultLog m with
        | None => Ok None
        | Some l => Ok (Some l)
        end
    | Some store => Ok (Some store)
    end.

(** [GetAssignedLog]. *)
Definition GetAssignedLog (m : manager) (dataname root typename : string)
    : Result error (option Store) :=
  if negb (setup m) then Err ErrNotInitialized
  else
    let dataid := GetDataSpecifier dataname root in
    match instanceLog m !! dataid with
    | Some store => Ok (Some store)
    | None =>
        match assignedLogByType m typename with
        | Err _ => Err (ErrCannotGetLog dataname typename)
        | Ok store => Ok store
        end
    end.

(** [Close]: the stores are closed and the manager goes back to its
    zero value. *)
Definition Close (m : manager) : manager := zero.

(** *** Initialize *)

(** The local variables of [Initialize] over its first loop. *)
Record opening : Type := mkOpening {
  world : W;
  mgr : manager;
  gotDefault : bool;
  gotMetadata : bool;
  createdDefault : bool;
  createdMetadata : bool;
  lastCreated : bool;
  lastStore : option Store
}.

(** The inner loop: the first open store that takes [dbconfig] for its
    own configuration. *)
Definition find_duplicate (m : manager) (dbconfig : StoreConfig) : option string :=
  fst <$> List.find (fun kv => Equal (snd kv) dbconfig) (iter Store (stores m)).

(** One turn of the loop that opens the backend stores. *)
Definition open_store (b : Backend GroupcacheConfig) (alias : string)
    (dbconfig : StoreConfig) (o : opening) : opening * option error :=
  match find_duplicate (mgr o) dbconfig with
  | Some dbalias => (o, Some (ErrDuplicate alias dbalias))
  | None =>
      match NewStore (world o) dbconfig with
      | (w, None) =>
          (mkOpening w (mgr o) (gotDefault o) (gotMetadata o) (createdDefault o)
             (createdMetadata o) (lastCreated o) (lastStore o),
           Some (ErrBadStore alias))
      | (w, Some (store, created)) =>
          let o1 :=
            if String.eqb alias (Metadata b)
            then mkOpening w (with_metadataStore (Some store) (mgr o)) (gotDefault o) true
                   (createdDefault o) created (lastCreated o) (lastStore o)
            else mkOpening w (mgr o) (gotDefault o) (gotMetadata o) (createdDefault o)
                   (createdMetadata o) (lastCreated o) (lastStore o) in
          let o2 :=
            if String.eqb alias (DefaultKVDB b)
            then mkOpening w (with_defaultKV (Some store) (mgr o1)) true (gotMetadata o1)
                   created (createdMetadata o1) (lastCreated o1) (lastStore o1)
            else o1 in
          let log_checked :=
            if String.eqb alias (DefaultLog b)
            then if isWriteLog store
                 then (with_defaultLog (Some store) (mgr o2), true)
                 else (with_defaultLog None (mgr o2), false)
            else (mgr o2, true) in
          if snd log_checked
          then (mkOpening w (with_stores (<[alias := store]> (stores (fst log_checked)))
                               (fst log_checked))
                  (gotDefault o2) (gotMetadata o2) (createdDefault o2) (createdMetadata o2)
                  created (Some store),
                None)
          else (mkOpening w (fst log_checked) (gotDefault o2) (gotMetadata o2)
                  (createdDefault o2) (createdMetadata o2) (lastCreated o2) (lastStore o2),
                Some (ErrNotWriteLog alias))
      end
  end.

Fixpoint open_stores (b : Backend GroupcacheConfig)
    (l : list (string * StoreConfig)) (o : opening) : opening * option error :=
  match l with
  | [] => (o, None)
  | (alias, dbconfig) :: l' =>
      match open_store b alias dbconfig o with
      | (o', Some e) => (o', Some e)
      | (o', None) => open_stores b l' o'
      end
  end.

(** The assignment made for one [dataspec] by the second and third
    loop: a datatype for one part, a data instance for two. *)
Definition assign (dataspec : string) (store : Store)
    (it : gmap string Store * gmap string Store)
    : Result error (gmap string Store * gmap string Store) :=
  let name := Trim dataspec quote in
  match Split name colon with
  | [_] => Ok (fst it, <[name := store]> (snd it))
  | [p0; p1] => Ok (<[GetDataSpecifier p0 p1 := store]> (fst it), snd it)
  | _ => Err (ErrBadSpec dataspec)
  end.

(** The loop over [backend.KVStore]. *)
Fixpoint assign_stores (m : manager) (l : list (string * string))
    (it : gmap string Store * gmap string Store)
    : gmap string Store * gmap string Store * option error :=
  match l with
  | [] => (it, None)
  | (dataspec, alias) :: l' =>
      if String.eqb dataspec "default" || String.eqb dataspec "metadata"
      then assign_stores m l' it
      else
        match stores m !! alias with
        | None => (it, Some (ErrBadAlias dataspec alias))
        | Some store =>
            match assign dataspec store it with
            | Err e => (it, Some e)
            | Ok it' => assign_stores m l' it'
            end
        end
  end.

(** The loop over [backend.LogStore]. *)
Fixpoint assign_logs (m : manager) (l : list (string * string))
    (it : gmap string Store * gmap string Store)
    : gmap string Store * gmap string Store * option error :=
  match l with
  | [] => (it, None)
  | (dataspec, alias) :: l' =>
      if String.eqb dataspec "default"
      then assign_logs m l' it
      else
        match stores m !! alias with
        | None => (it, Some (ErrBadAlias dataspec alias))
        | Some store =>
            if negb (isWriteLog store) then (it, Some (ErrNotWriteLog alias))
            else
              match assign dataspec store it with
              | Err e => (it, Some e)
              | Ok it' => assign_logs m l' it'
              end
        end
  end.

(** The graph store set up at the end of [Initialize]. *)
Definition setup_graph (m : manager) (createdMetadata0 : bool)
    : manager * (bool * option error) :=
  match assignedStoreByType m "labelgraph" with
  | Err e => (m, (createdMetadata0, Some e))
  | Ok store =>
      match store with
      | None => (m, (false, Some ErrNotOrdered))
      | Some kvdb =>
          if negb (isOrdered kvdb) then (m, (false, Some ErrNotOrdered))
          else
            match NewGraphStore kvdb with
            | None => (with_graph None (graphSetter m) (graphGetter m) m,
                       (false, Some ErrGraphStore))
            | Some g =>
                let m1 := with_graph (Some g) (graphSetter m) (graphGetter m) m in
                if negb (isGraphSetter g)
                then (with_graph (graphDB m1) None (graphGetter m1) m1,
                      (false, Some ErrNoGraphSetter))
                else
                  let m2 := with_graph (graphDB m1) (Some g) (graphGetter m1) m1 in
                  if negb (isGraphGetter g)
                  then (with_graph (graphDB m2) (graphSetter m2) None m2,
                        (false, Some ErrNoGraphGetter))
                  else (with_graph (graphDB m2) (graphSetter m2) (Some g) m2,
                        (createdMetadata0, None))
            end
      end
  end.

(** [Initialize(cmdline, backend)]: the world and the manager after the
    call, and its two results. *)
Definition Initialize (w : W) (m : manager) (b : Backend GroupcacheConfig)
    : W * manager * (bool * option error) :=
  let o0 := mkOpening w (with_stores ∅ m) false false false false false None in
  match open_stores b (iter StoreConfig (Stores b)) o0 with
  | (o, Some e) => (world o, mgr o, (false, Some e))
  | (o, None) =>
      let defaulted :=
        if negb (gotDefault o) then
          if Nat.eqb (size (Stores b)) 1
          then Some (with_defaultKV (lastStore o) (mgr o), lastCreated o)
          else None
        else Some (mgr o, createdDefault o) in
      match defaulted with
      | None => (world o, mgr o, (false, Some ErrNoDefault))
      | Some (m1, createdDefault1) =>
          let '(m2, createdMetadata2) :=
            if negb (gotMetadata o)
            then (with_metadataStore (defaultKV m1) m1, createdDefault1)
            else (m1, createdMetadata o) in
          match setupGroupcache (Groupcache b) with
          | (g, Some e) => (world o, with_gcache g m2, (createdMetadata2, Some e))
          | (g, None) =>
              let m3 := with_kv_assignments ∅ ∅ (with_gcache g m2) in
              match assign_stores m3 (iter string (KVStore b)) (∅, ∅) with
              | (it, Some e) =>
                  (world o, with_kv_assignments (fst it) (snd it) m3,
                   (createdMetadata2, Some e))
              | (it, None) =>
                  let m4 := with_log_assignments ∅ ∅
                              (with_kv_assignments (fst it) (snd it) m3) in
                  match assign_logs m4 (iter string (LogStore b)) (∅, ∅) with
                  | (il, Some e) =>
                      (world o, with_log_assignments (fst il) (snd il) m4,
                       (createdMetadata2, Some e))
                  | (il, None) =>
                      let m5 := with_setup true
                                  (with_log_assignments (fst il) (snd il) m4) in
                      let '(m6, r) := setup_graph m5 createdMetadata2 in
                      (world o, m6, r)
                  end
              end
          end
      end
  end.

(** *** The resolution rule in the words of the spec *)

(** 1. the per-instance assignment; 2. else the per-datatype one;
    3. else the default key-value store, an error if there is none. *)
Definition resolve_store (m : manager) (dataname root typename : string)
    : Result error Store :=
  match instanceStore m !! GetDataSpecifier dataname root with
  | Some s => Ok s
  | None =>
      match datatypeStore m !! typename with
      | Some s => Ok s
      | None =>
          match defaultKV m with
          | Some s => Ok s
          | None => Err ErrNoDefault
          end
      end
  end.

(** The states the manager goes through: its zero value, and whatever
    calls of [Initialize] and [Close] make of it. *)
Inductive reachable : manager -> Prop :=
  | reachable_zero : reachable zero
  | reachable_Initialize w m b :
      reachable m -> reachable (snd (fst (Initialize w m b)))
  | reachable_Close m : reachable m -> reachable (Close m).

(** [s] is what [NewStore] made of [c] in some world. *)
Definition opened_from (c : StoreConfig) (s : Store) : Prop :=
  exists w w' created, NewStore w c = (w', Some (s, created)).

(** [ca] and [cb] are duplicates: a store opened from [ca] takes
    [cb] for its own configuration. *)
Definition duplicates (ca cb : StoreConfig) : Prop :=
  forall s, opened_from ca s -> Equal s cb = true.

(** *** Predicates of the statements

    What keeps [GetAssignedStore] from handing out a nil store. *)
Definition default_present (m : manager) : Prop :=
  setup m = true -> is_Some (defaultKV m).

(** What the opening loop keeps true of the manager it started from. *)
Definition default_kept (m0 : manager) (o : opening) : Prop :=
  setup (mgr o) = setup m0
  /\ (defaultKV (mgr o) = defaultKV m0 \/ is_Some (defaultKV (mgr o)))
  /\ (gotDefault o = true -> is_Some (defaultKV (mgr o))).

(** The errors the opening loop can end in, each with what made it. *)
Definition opening_error (b : Backend GroupcacheConfig) (e : error) : Prop :=
  (exists x y cx cy sy,
     e = ErrDuplicate x y /\ x <> y /\
     Stores b !! x = Some cx /\ Stores b !! y = Some cy /\
     opened_from cy sy /\ Equal sy cx = true)
  \/ (exists x cx w, e = ErrBadStore x /\ Stores b !! x = Some cx /\
        snd (NewStore w cx) = None)
  \/ (exists x cx s, e = ErrNotWriteLog x /\ x = DefaultLog b /\
        Stores b !! x = Some cx /\ opened_from cx s /\ isWriteLog s = false).

(** The stores opened so far come from the backend's configurations,
    and the aliases still to come are new. *)
Definition opening_ok (b : Backend GroupcacheConfig)
    (l : list (string * StoreConfig)) (o : opening) : Prop :=
  (forall x s, stores (mgr o) !! x = Some s ->
     exists cx, Stores b !! x = Some cx /\ opened_from cx s)
  /\ Forall (fun kc => Stores b !! fst kc = Some (snd kc)) l
  /\ NoDup (l.*1)
  /\ (forall x, x ∈ l.*1 -> stores (mgr o) !! x = None).

(** A duplicate pair lies ahead: both configurations are still to be
    opened, or one is open and the other still to come. *)
Definition duplicate_ahead (a a' : string) (ca ca' : StoreConfig)
    (l : list (string * StoreConfig)) (o : opening) : Prop :=
  ((a, ca) ∈ l /\ (a', ca') ∈ l)
  \/ (is_Some (stores (mgr o) !! a) /\ (a', ca') ∈ l)
  \/ (is_Some (stores (mgr o) !! a') /\ (a, ca) ∈ l).

(** *** The lookups that take no data instance *)

(** [AllStores]. *)
Definition AllStores (m : manager) : Result lookup_error (gmap string Store) :=
  if negb (setup m) then Err NotInitialized else Ok (stores m).

(** [DefaultKVStore]. *)
Definition DefaultKVStore (m : manager) : Result lookup_error Store :=
  if negb (setup m) then Err NotInitialized
  else
    match defaultKV m with
    | None => Err NoDefaultKV
    | Some s => Ok s
    end.

(** [DefaultLogStore]. *)
Definition DefaultLogStore (m : manager) : Result lookup_error Store :=
  if negb (setup m) then Err NotInitialized
  else
    match defaultLog m with
    | None => Err NoDefaultLog
    | Some s => Ok s
    end.

(** [MetaDataKVStore]: the assertion to [OrderedKeyValueDB] fails on a
    nil store as on one of another kind. *)
Definition MetaDataKVStore (m : manager) : Result lookup_error Store :=
  if negb (setup m) then Err NotInitialized
  else
    match metadataStore m with
    | Some s => if isOrdered s then Ok s else Err MetadataNotOrdered
    | None => Err MetadataNotOrdered
    end.

(** [DefaultOrderedKVDB]. *)
Definition DefaultOrderedKVDB (m : manager) : Result lookup_error Store :=
  if negb (setup m) then Err NotInitialized
  else
    match defaultKV m with
    | Some s => if isOrdered s then Ok s else Err DefaultNotOrdered
    | None => Err DefaultNotOrdered
    end.

(** [GraphStore]: the graph database as it is, nil included. *)
Definition GraphStore (m : manager) : Result lookup_error (option GraphDB) :=
  if negb (setup m) then Err NotInitialized else Ok (graphDB m).

(** [GetStoreByAlias]. *)
Definition GetStoreByAlias (m : manager) (alias : string) : Result lookup_error Store :=
  if negb (setup m) then Err NotInitialized
  else
    match stores m !! alias with
    | None => Err (NoStoreWithAlias alias)
    | Some store => Ok store
    end.

(** *** Further predicates of the statements *)

(** Every log the manager can hand out passed the [WriteLog] assertion. *)
Definition logs_are_write_logs (m : manager) : Prop :=
  (forall s, defaultLog m = Some s -> isWriteLog s = true)
  /\ (forall k s, instanceLog m !! k = Some s -> isWriteLog s = true)
  /\ (forall k s, datatypeLog m !! k = Some s -> isWriteLog s = true).

(** What the opening loop knows of the default and metadata stores
    once it has opened some of the backend's stores. *)
Definition defaults_tracked (b : Backend GroupcacheConfig) (o : opening) : Prop :=
  (if gotDefault o
   then is_Some (defaultKV (mgr o)) /\ defaultKV (mgr o) = stores (mgr o) !! DefaultKVDB b
   else stores (mgr o) !! DefaultKVDB b = None)
  /\ (if gotMetadata o
      then is_Some (metadataStore (mgr o))
           /\ metadataStore (mgr o) = stores (mgr o) !! Metadata b
      else stores (mgr o) !! Metadata b = None).

(** [s] is a store of the backend that [NewStore] reported as
    [created]. *)
Definition created_from (b : Backend GroupcacheConfig) (s : Store) (created : bool) : Prop :=
  exists alias c w w',
    Stores b !! alias = Some c /\ NewStore w c = (w', Some (s, created)).

(** The flags of the opening loop say how its stores were created. *)
Definition created_tracked (b : Backend GroupcacheConfig) (o : opening) : Prop :=
  (gotMetadata o = true ->
   exists s, metadataStore (mgr o) = Some s /\ created_from b s (createdMetadata o))
  /\ (gotDefault o = true ->
      exists s, defaultKV (mgr o) = Some s /\ created_from b s (createdDefault o))
  /\ (forall s, lastStore o = Some s -> created_from b s (lastCreated o)).

(** How the graph store set-up can fail on a manager. *)
Definition graph_setup_fails (m : manager) : Prop :=
  match assignedStoreByType m "labelgraph" with
  | Err _ => False
  | Ok None => True
  | Ok (Some kvdb) =>
      isOrdered kvdb = false
      \/ match NewGraphStore kvdb with
         | None => True
         | Some g => isGraphSetter g = false \/ isGraphGetter g = false
         end
  end.

End Manager.

(** Number of occurrences of a character. *)
Fixpoint count_char (c : Ascii.ascii) (s : string) : nat :=
  match s with
  | EmptyString => O
  | String a s' => (if Ascii.eqb a c then 1 else 0) + count_char c s'
  end.

(** *** Worked examples

    The manager instantiated with the file-log engine of this
    repository and a stand-in for an ordered key-value engine that is
    known by its path. *)
Inductive example_store : Type :=
  | ALog (logs : Filelog.writeLogs)
  | AKV (kvpath : string)
  | ACached (s : example_store).

Definition example_Equal (s : example_store) (c : StoreConfig) : bool :=
  match s with
  | ALog logs => Filelog.Equal Filelog.example_platform logs c
  | AKV p =>
      match GetAll c !! "path" with
      | Some (AString p') => String.eqb p p'
      | _ => false
      end
  | ACached _ => false
  end.

Definition example_isWriteLog (s : example_store) : bool :=
  match s with ALog _ => true | _ => false end.

Definition example_isOrdered (s : example_store) : bool :=
  match s with AKV _ => true | _ => false end.

(** The engine registry: "filelog" and the stand-in "basholeveldb". *)
Definition example_NewStore (w : Filelog.OS) (c : StoreConfig)
    : Filelog.OS * option (example_store * bool) :=
  if String.eqb (Engine c) "filelog" then
    match Filelog.newWriteLogs Filelog.example_platform w c with
    | (w', Ok (logs, created)) => (w', Some (ALog logs, created))
    | (w', Err _) => (w', None)
    end
  else if String.eqb (Engine c) "basholeveldb" then
    match GetAll c !! "path" with
    | Some (AString p) => (w, Some (AKV p, false))
    | _ => (w, None)
    end
  else (w, None).

(** The groupcache configuration reduced to its [instances]. *)
Definition example_setupGroupcache (instances : list string)
    : groupcacheT unit * option error :=
  (mkGroupcache (Some tt) (list_to_set instances), None).

Definition example_wrapGroupcache (s : option example_store) (c : option unit)
    : option example_store * option error :=
  match s with
  | Some s' => (Some (ACached s'), None)
  | None => (None, Some ErrNotOrdered)
  end.

Definition example_GetDataSpecifier (name uuid : string) : string :=
  String quote (name ++ ":" ++ uuid ++ String quote EmptyString)%string.

Definition example_iter (V : Type) (m : gmap string V) : list (string * V) :=
  map_to_list m.

Definition path_config (engine path : string) : StoreConfig :=
  mkStoreConfig engine {[ "path" := AString path ]}.

(** The backend of the sample configuration file: a default store, a
    store for one datatype and for one data instance, a default log. *)
Definition example_backend : Backend (list string) :=
  mkBackend "" "raid6" "mutationlog"
    {[ "raid6" := path_config "basholeveldb" "/data/dbs/basholeveldb";
       "ssd" := path_config "basholeveldb" "/datassd/dbs/basholeveldb";
       "mutationlog" := path_config "filelog" "/data/mutationlogs" ]}
    {[ "labelblk" := "ssd";
       "grayscale:99ef22cd85f143f58a623bd22aad0ef7" := "ssd" ]}
    ∅
    [example_GetDataSpecifier "graytiles" "99ef22cd85f143f58a623bd22aad0ef7"].

(** A single store and no log. *)
Definition single_backend : Backend (list string) :=
  mkBackend "" "" ""
    {[ "raid6" := path_config "basholeveldb" "/data/dbs/basholeveldb" ]} ∅ ∅ [].

(** Two logs on one path, and a third store without a path. *)
Definition duplicate_backend : Backend (list string) :=
  mkBackend "" "" ""
    {[ "log1" := path_config "filelog" "/data/mutationlogs";
       "log2" := path_config "filelog" "/data/mutationlogs";
       "broken" := mkStoreConfig "filelog" ∅ ]} ∅ ∅ [].

#[export] Instance example_engines : Engines :=
  mkEngines Filelog.OS example_store unit unit (list string)
    example_Equal example_isWriteLog example_isOrdered example_NewStore
    example_setupGroupcache example_wrapGroupcache
    (fun _ => Some tt) (fun _ => true) (fun _ => true)
    example_GetDataSpecifier example_iter
    (fun V m => reflexivity (map_to_list m)).

Definition example_manager : managerT Store GraphDB Cache :=
  snd (fst (Initialize Filelog.fresh_os zero example_backend)).

Definition single_manager : managerT Store GraphDB Cache :=
  snd (fst (Initialize Filelog.fresh_os zero single_backend)).

Definition log_config : StoreConfig := path_config "filelog" "/data/mutationlogs".

(** Two logs on one path. *)
Definition twin_backend : Backend (list string) :=
  mkBackend "" "" "" {[ "log1" := log_config; "log2" := log_config ]} ∅ ∅ [].

(** A log as the only store: it becomes the default store, which the
    graph store cannot be built on. *)
Definition log_only_backend : Backend (list string) :=
  mkBackend "" "" "" {[ "mutationlog" := log_config ]} ∅ ∅ [].

(** A datatype assigned to a store that is not configured. *)
Definition dangling_backend : Backend (list string) :=
  mkBackend "" "raid6" ""
    {[ "raid6" := path_config "basholeveldb" "/data/dbs/basholeveldb" ]}
    {[ "labelblk" := "ssd" ]} ∅ [].

(** The default log of the sample configuration once it is open. *)
Definition example_log : example_store :=
  ALog (Filelog.mkWriteLogs "/data/mutationlogs" log_config ∅).

End Storage.

(** ** Creating a labelsz instance: datatype/labelsz *)

Module LabelszNew.

Import Labelsz.

Inductive error : Type :=
  | ErrConfig
  | ErrBadROI (roistr : string)
  | ErrNewDataService.

(** The comma (code 44). *)
Definition comma : Ascii.ascii := Ascii.ascii_of_nat 44.

(** [NewData].  [GetString] is the outcome of [c.GetString("ROI")]: the
    value and whether the key was found, [None] for an error;
    [NewDataService] is the outcome of [datastore.NewDataService]: the
    base data, seen through the store it gives access to, [None] for an
    error. *)
Definition NewData (GetString : option (string * bool))
    (NewDataService : option (Result Labelsz.error OrderedKeyValueDB))
    : Result error Data :=
  match GetString with
  | None => Err ErrConfig
  | Some (roistr, found) =>
      if found && negb (Nat.eqb (length (Storage.Split roistr comma)) 2)
      then Err (ErrBadROI roistr)
      else
        match NewDataService with
        | None => Err ErrNewDataService
        | Some basedata => Ok (mkData roistr basedata None false)
        end
  end.

End LabelszNew.

(** ** The file log as a testable engine: storage/filelog *)

Module FilelogEngine.

Import Bin Dvid Filelog Storage.

Inductive error : Type :=
  | ErrDefaultLogSet (alias : string).

(** [fmt.Sprintf("%x", b)] for a byte slice: two lower-case hexadecimal
    digits per byte. *)
Definition hex_digit (n : Z) : Ascii.ascii :=
  default (Ascii.ascii_of_nat 48)
    (String.list_ascii_of_string "0123456789abcdef" !! Z.to_nat n).

Fixpoint hex (bs : list byte) : string :=
  match bs with
  | [] => EmptyString
  | b :: bs' =>
      String (hex_digit (Z_of_byte b / 16)) (String (hex_digit (Z_of_byte b mod 16)) (hex bs'))
  end.

(** The configuration [AddTestConfig] makes up; [uuid] are the bytes of
    [uuid.NewV4()]. *)
Definition test_config (uuid : list byte) : StoreConfig :=
  mkStoreConfig "filelog"
    {[ "path" := AString ("dvid-test-filelog-" ++ hex uuid); "testing" := ABool true ]}.

(** [Engine.AddTestConfig]: the backend after the call and the error. *)
Definition AddTestConfig {G : Type} (uuid : list byte) (backend : Backend G)
    : Backend G * option error :=
  if negb (String.eqb (DefaultLog backend) "")
  then (backend, Some (ErrDefaultLogSet (DefaultLog backend)))
  else
    (mkBackend (Metadata backend) (DefaultKVDB backend) "filelog"
       (<["filelog" := test_config uuid]> (Stores backend))
       (KVStore backend) (LogStore backend) (Groupcache backend),
     None).

(** [Engine.NewStore]. *)
Definition NewStore (pf : Platform) (os : OS) (config : StoreConfig)
    : OS * Result Filelog.error (writeLogs * bool) :=
  newWriteLogs pf os config.

(** The path [parseConfig] makes of the test configuration. *)
Definition test_path (pf : Platform) (uuid : list byte) : string :=
  Join pf (TempDir pf) ("dvid-test-filelog-" ++ hex uuid).

(** *** Worked examples *)

Definition example_uuid : list byte := ["018"; "171"; "255"; "000"]%byte.

(** A backend without a default log. *)
Definition untested_backend : Backend (list string) :=
  mkBackend "" "raid6" ""
    {[ "raid6" := mkStoreConfig "basholeveldb" {[ "path" := AString "/data/dbs" ]} ]}
    ∅ ∅ [].

End FilelogEngine.

(** * Part II: the properties *)

(** ** The byte codecs *)

Module BinFacts.

Import Bin.

(** *** Facts about the codecs *)

Lemma Z_of_byte_range b : 0 <= Z_of_byte b < 256.
Proof.
  unfold Z_of_byte. pose proof (Byte.to_N_bounded b). lia.
Qed.

Lemma Z_of_byte_of_Z z : Z_of_byte (byte_of_Z z) = z mod 256.
Proof.
  unfold Z_of_byte, byte_of_Z.
  assert (Hr : 0 <= z mod 256 < 256) by (apply Z.mod_pos_bound; lia).
  destruct (Byte.of_N (Z.to_N (z mod 256))) as [b|] eqn:E; simpl.
  - apply Byte.to_of_N in E. rewrite E. lia.
  - apply Byte.of_N_None_iff in E. lia.
Qed.

Lemma byte_of_Z_of_byte b : byte_of_Z (Z_of_byte b) = b.
Proof.
  unfold byte_of_Z, Z_of_byte.
  pose proof (Byte.to_N_bounded b).
  rewrite Z.mod_small by lia.
  rewrite N2Z.id, Byte.of_to_N. reflexivity.
Qed.

Lemma Z_of_byte_inj a b : Z_of_byte a = Z_of_byte b -> a = b.
Proof.
  intros H. rewrite <- (byte_of_Z_of_byte a), <- (byte_of_Z_of_byte b).
  now rewrite H.
Qed.

Lemma length_be_encode n z : length (be_encode n z) = n.
Proof. induction n; simpl; congruence. Qed.

Lemma length_le_encode n z : length (le_encode n z) = n.
Proof. revert z. induction n; intros; simpl; [reflexivity|]. now rewrite IHn. Qed.

Lemma be_decode_range bs : 0 <= be_decode bs < 2 ^ (8 * Z.of_nat (length bs)).
Proof.
  induction bs as [|b bs IH]; simpl be_decode; simpl length.
  - simpl. lia.
  - pose proof (Z_of_byte_range b) as Hb.
    rewrite Z.shiftl_mul_pow2 by lia.
    replace (8 * Z.of_nat (S (length bs))) with (8 + 8 * Z.of_nat (length bs)) by lia.
    rewrite Z.pow_add_r by lia.
    change (2 ^ 8) with 256.
    set (p := 2 ^ (8 * Z.of_nat (length bs))) in *.
    nia.
Qed.

Lemma le_decode_range bs : 0 <= le_decode bs < 2 ^ (8 * Z.of_nat (length bs)).
Proof.
  induction bs as [|b bs IH]; simpl le_decode; simpl length.
  - simpl. lia.
  - pose proof (Z_of_byte_range b) as Hb.
    rewrite Z.shiftl_mul_pow2 by lia.
    replace (8 * Z.of_nat (S (length bs))) with (8 + 8 * Z.of_nat (length bs)) by lia.
    rewrite Z.pow_add_r by lia.
    change (2 ^ 8) with 256.
    set (p := 2 ^ (8 * Z.of_nat (length bs))) in *.
    nia.
Qed.

Lemma be_decode_encode n z : be_decode (be_encode n z) = z mod 2 ^ (8 * Z.of_nat n).
Proof.
  induction n as [|n IH].
  - simpl. now rewrite Z.mod_1_r.
  - cbn [be_encode be_decode]. rewrite length_be_encode, IH, Z_of_byte_of_Z.
    rewrite Z.shiftl_mul_pow2, Z.shiftr_div_pow2 by lia.
    replace (8 * Z.of_nat (S n)) with (8 * Z.of_nat n + 8) by lia.
    rewrite Z.pow_add_r by lia. change (2 ^ 8) with 256.
    set (p := 2 ^ (8 * Z.of_nat n)).
    assert (0 < p) by (apply Z.pow_pos_nonneg; lia).
    rewrite (Z.rem_mul_r z p 256) by lia. lia.
Qed.

Lemma le_decode_encode n z : le_decode (le_encode n z) = z mod 2 ^ (8 * Z.of_nat n).
Proof.
  revert z. induction n as [|n IH]; intros z.
  - simpl. now rewrite Z.mod_1_r.
  - cbn [le_encode le_decode]. rewrite IH, Z_of_byte_of_Z.
    rewrite Z.shiftl_mul_pow2, Z.shiftr_div_pow2 by lia.
    replace (8 * Z.of_nat (S n)) with (8 + 8 * Z.of_nat n) by lia.
    rewrite Z.pow_add_r by lia. change (2 ^ 8) with 256.
    set (p := 2 ^ (8 * Z.of_nat n)).
    assert (0 < p) by (apply Z.pow_pos_nonneg; lia).
    rewrite (Z.rem_mul_r z 256 p) by lia. lia.
Qed.

Lemma be_encode_decode bs : be_encode (length bs) (be_decode bs) = bs.
Proof.
  assert (G : forall bs pre, be_encode (length bs) (be_decode (pre ++ bs)) = bs).
  { clear bs. induction bs as [|b bs IH]; intros pre; [reflexivity|].
    cbn [length be_encode]. f_equal.
    - apply Z_of_byte_inj. rewrite Z_of_byte_of_Z.
      rewrite Z.shiftr_div_pow2 by lia.
      induction pre as [|c pre IHp].
      + cbn [app be_decode]. rewrite Z.shiftl_mul_pow2 by lia.
        pose proof (be_decode_range bs). pose proof (Z_of_byte_range b).
        set (p := 2 ^ (8 * Z.of_nat (length bs))) in *.
        rewrite Z.div_add_l by lia. rewrite (Z.div_small (be_decode bs)) by lia.
        rewrite Z.add_0_r. apply Z.mod_small. lia.
      + cbn [app be_decode]. rewrite Z.shiftl_mul_pow2 by lia.
        rewrite length_app. cbn [length].
        replace (8 * Z.of_nat (length pre + S (length bs))%nat)
          with (8 * Z.of_nat (length pre) + 8 + 8 * Z.of_nat (length bs)) by lia.
        rewrite !Z.pow_add_r by lia. change (2 ^ 8) with 256.
        set (p := 2 ^ (8 * Z.of_nat (length bs))) in *.
        set (q := 2 ^ (8 * Z.of_nat (length pre))).
        assert (0 < p) by (apply Z.pow_pos_nonneg; lia).
        replace (Z_of_byte c * (q * 256 * p) + be_decode (pre ++ b :: bs))
          with (be_decode (pre ++ b :: bs) + (Z_of_byte c * q * 256) * p) by lia.
        rewrite Z.div_add by lia.
        replace (be_decode (pre ++ b :: bs) / p + Z_of_byte c * q * 256)
          with (be_decode (pre ++ b :: bs) / p + (Z_of_byte c * q) * 256) by lia.
        rewrite Z.mod_add by lia. exact IHp.
    - specialize (IH (pre ++ [b])). now rewrite <- app_assoc in IH. }
  apply (G bs []).
Qed.

Lemma be_decode_inj a b : length a = length b -> be_decode a = be_decode b -> a = b.
Proof.
  intros Hl He. rewrite <- (be_encode_decode a), <- (be_encode_decode b).
  now rewrite Hl, He.
Qed.

Lemma bytes_compare_refl a : bytes_compare a a = Eq.
Proof. induction a; simpl; [reflexivity|]. now rewrite Z.compare_refl. Qed.

Lemma bytes_compare_eq a b : bytes_compare a b = Eq -> a = b.
Proof.
  revert b. induction a as [|x a IH]; intros [|y b]; simpl; try congruence.
  destruct (Z.compare_spec (Z_of_byte x) (Z_of_byte y)) as [E| |]; try congruence.
  intros H. apply Z_of_byte_inj in E. f_equal; auto.
Qed.

Lemma bytes_compare_antisym a b : bytes_compare b a = CompOpp (bytes_compare a b).
Proof.
  revert b. induction a as [|x a IH]; intros [|y b]; simpl; try reflexivity.
  rewrite (Z.compare_antisym (Z_of_byte x) (Z_of_byte y)).
  destruct (Z_of_byte x ?= Z_of_byte y); simpl; auto.
Qed.

Lemma bytes_lt_trans a b c : bytes_lt a b -> bytes_lt b c -> bytes_lt a c.
Proof.
  unfold bytes_lt. revert b c.
  induction a as [|x a IH]; intros [|y b] [|z c]; simpl; try congruence.
  destruct (Z.compare_spec (Z_of_byte x) (Z_of_byte y)) as [E1|L1|G1]; try congruence;
  destruct (Z.compare_spec (Z_of_byte y) (Z_of_byte z)) as [E2|L2|G2]; try congruence;
  destruct (Z.compare_spec (Z_of_byte x) (Z_of_byte z)) as [E3|L3|G3]; try congruence;
  try lia; eauto.
Qed.

(** On fields of equal width the lexicographic order of big-endian
    encodings is the numeric order of the encoded values. *)
Lemma bytes_compare_be a b :
  length a = length b -> bytes_compare a b = Z.compare (be_decode a) (be_decode b).
Proof.
  revert b. induction a as [|x a IH]; intros [|y b] Hl; simpl in Hl; try discriminate.
  - reflexivity.
  - injection Hl as Hl. cbn [bytes_compare be_decode]. rewrite <- Hl.
    rewrite !Z.shiftl_mul_pow2 by lia.
    pose proof (be_decode_range a) as Ha. pose proof (be_decode_range b) as Hb.
    rewrite <- Hl in Hb.
    set (p := 2 ^ (8 * Z.of_nat (length a))) in *.
    destruct (Z.compare_spec (Z_of_byte x) (Z_of_byte y)) as [E|L|G].
    + rewrite E, IH by assumption.
      symmetry. destruct (Z.compare_spec (be_decode a) (be_decode b));
        [apply Z.compare_eq_iff | apply Z.compare_lt_iff | apply Z.compare_gt_iff]; lia.
    + symmetry. apply Z.compare_lt_iff. nia.
    + symmetry. apply Z.compare_gt_iff. nia.
Qed.

Lemma bytes_compare_app_same p a b :
  bytes_compare (p ++ a) (p ++ b) = bytes_compare a b.
Proof. induction p; simpl; [reflexivity|]. now rewrite Z.compare_refl. Qed.

Lemma bytes_compare_app_eqlen a1 a2 b1 b2 :
  length a1 = length b1 ->
  bytes_compare (a1 ++ a2) (b1 ++ b2) =
    match bytes_compare a1 b1 with Eq => bytes_compare a2 b2 | c => c end.
Proof.
  revert b1. induction a1 as [|x a1 IH]; intros [|y b1] Hl; simpl in Hl; try discriminate.
  - reflexivity.
  - injection Hl as Hl. simpl.
    destruct (Z_of_byte x ?= Z_of_byte y); auto.
Qed.

Lemma wrap_int_small z : MinInt <= z <= MaxInt -> wrap_int z = z.
Proof. unfold wrap_int, MinInt, MaxInt. intros H. rewrite Z.mod_small; lia. Qed.

(** Linear arithmetic over the bounds of the machine integers. *)
Ltac int_lia := unfold MinInt, MaxInt, MaxUint16, MaxUint32, MaxUint64 in *; lia.

End BinFacts.

(** ** Allocation of slices *)

Module GoRuntimeFacts.

Import GoRuntime.

Section Makeslice.

Context {machine : Machine}.

(** A slice that was made: its content, and what its length is bounded
    by. *)
Lemma makeslice_inv {A : Type} (size : Z) (zero : A) (n : Z) (l : list A) :
  makeslice size zero n = Some l ->
  l = replicate (Z.to_nat n) zero /\ 0 <= n /\ n * size <= maxAlloc /\ n * size <= heap.
Proof.
  unfold makeslice. destruct (Z.leb_spec 0 n); [|discriminate].
  destruct (Z.leb_spec (n * size) maxAlloc); [|discriminate].
  destruct (Z.leb_spec (n * size) heap); [|discriminate].
  cbn [andb]. intros Hl. injection Hl as <-. auto.
Qed.

Lemma makeslice_granted {A : Type} (size : Z) (zero : A) (n : Z) :
  0 <= n -> n * size <= maxAlloc -> n * size <= heap ->
  makeslice size zero n = Some (replicate (Z.to_nat n) zero).
Proof.
  intros H0 H1 H2. unfold makeslice. destruct (Z.leb_spec 0 n); [|lia].
  destruct (Z.leb_spec (n * size) maxAlloc); [|lia].
  destruct (Z.leb_spec (n * size) heap); [|lia]. reflexivity.
Qed.

Lemma makeslice_None {A : Type} (size : Z) (zero : A) (n : Z) :
  makeslice size zero n = None <-> n < 0 \/ maxAlloc < n * size \/ heap < n * size.
Proof.
  unfold makeslice. destruct (Z.leb_spec 0 n); destruct (Z.leb_spec (n * size) maxAlloc);
    destruct (Z.leb_spec (n * size) heap); cbn [andb]; split; intros Hcase;
    try discriminate; try lia; try reflexivity.
Qed.

End Makeslice.

End GoRuntimeFacts.

(** ** The labelsz index *)

Module LabelszFacts.

Import Bin BinFacts GoRuntime GoRuntimeFacts Labelsz.

(** *** Facts about the keys *)

Lemma byte_eqb_true a b : Byte.eqb a b = true <-> a = b.
Proof. split; [apply Byte.byte_dec_bl | apply Byte.byte_dec_lb]. Qed.

Lemma byte_eqb_refl a : Byte.eqb a a = true.
Proof. now apply byte_eqb_true. Qed.

Lemma size_key_shape i sz label :
  NewTypeSizeLabelTKey i sz label =
    keyTypeSizeLabel :: i :: be_encode 4 (uint32 (MaxUint32 - uint32 sz))
                          ++ be_encode 8 (uint64 label).
Proof. reflexivity. Qed.

Lemma begTKey_shape i :
  begTKey i = keyTypeSizeLabel :: i :: be_encode 4 1 ++ be_encode 8 0.
Proof. reflexivity. Qed.

Lemma endTKey_shape i :
  endTKey i = keyTypeSizeLabel :: i :: be_encode 4 MaxUint32 ++ be_encode 8 MaxUint64.
Proof. reflexivity. Qed.

Lemma Decode_inv k i sz label :
  DecodeTypeSizeLabelTKey k = Ok (i, sz, label) ->
  exists inv lb, k = keyTypeSizeLabel :: i :: inv ++ lb /\
    length inv = 4%nat /\ length lb = 8%nat /\
    sz = MaxUint32 - be_decode inv /\ label = be_decode lb.
Proof.
  unfold DecodeTypeSizeLabelTKey.
  destruct k as [|class [|j ibytes]]; try discriminate.
  destruct (Byte.eqb class keyTypeSizeLabel) eqn:Ec; simpl; try discriminate.
  destruct (Nat.eqb (length ibytes) 12) eqn:El; simpl; try discriminate.
  intros H. injection H as -> <- <-.
  apply byte_eqb_true in Ec. apply Nat.eqb_eq in El. subst class.
  exists (take 4 ibytes), (drop 4 ibytes).
  rewrite take_drop. repeat split; rewrite ?length_take, ?length_drop; lia.
Qed.

Lemma Decode_shape i inv lb :
  length inv = 4%nat -> length lb = 8%nat ->
  DecodeTypeSizeLabelTKey (keyTypeSizeLabel :: i :: inv ++ lb) =
    Ok (i, MaxUint32 - be_decode inv, be_decode lb).
Proof.
  intros H4 H8. unfold DecodeTypeSizeLabelTKey.
  rewrite byte_eqb_refl, length_app, H4, H8. simpl negb. cbv iota.
  rewrite take_app_length' by congruence.
  rewrite drop_app_length' by congruence. reflexivity.
Qed.

(** Decoding inverts encoding, up to the conversions of the Go types. *)
Lemma Decode_New_wrap i sz label :
  DecodeTypeSizeLabelTKey (NewTypeSizeLabelTKey i sz label) = Ok (i, uint32 sz, uint64 label).
Proof.
  rewrite size_key_shape, Decode_shape by apply length_be_encode.
  rewrite !be_decode_encode. unfold uint32, uint64, MaxUint32.
  change (2 ^ (8 * Z.of_nat 4)) with (2 ^ 32).
  change (2 ^ (8 * Z.of_nat 8)) with (2 ^ 64).
  pose proof (Z.mod_pos_bound sz (2 ^ 32) ltac:(lia)).
  rewrite !(Z.mod_small (2 ^ 32 - 1 - sz mod 2 ^ 32)) by lia.
  rewrite Z.mod_mod by lia.
  do 3 f_equal. lia.
Qed.

Lemma Decode_New i sz label :
  0 <= sz <= MaxUint32 -> 0 <= label <= MaxUint64 ->
  DecodeTypeSizeLabelTKey (NewTypeSizeLabelTKey i sz label) = Ok (i, sz, label).
Proof.
  unfold MaxUint32, MaxUint64. intros Hs Hl. rewrite Decode_New_wrap.
  unfold uint32, uint64. now rewrite !Z.mod_small by lia.
Qed.

Lemma Decode_range k i sz label :
  DecodeTypeSizeLabelTKey k = Ok (i, sz, label) ->
  0 <= sz <= MaxUint32 /\ 0 <= label <= MaxUint64.
Proof.
  intros H. apply Decode_inv in H as (inv & lb & _ & H4 & H8 & -> & ->).
  pose proof (be_decode_range inv) as Hi. pose proof (be_decode_range lb) as Hl.
  rewrite H4 in Hi. rewrite H8 in Hl.
  change (2 ^ (8 * Z.of_nat 4)) with (2 ^ 32) in Hi.
  change (2 ^ (8 * Z.of_nat 8)) with (2 ^ 64) in Hl.
  unfold MaxUint32, MaxUint64. lia.
Qed.

(** A decodable key is the encoding of what it decodes to. *)
Lemma New_Decode k i sz label :
  DecodeTypeSizeLabelTKey k = Ok (i, sz, label) -> k = NewTypeSizeLabelTKey i sz label.
Proof.
  intros H. pose proof (Decode_range _ _ _ _ H) as [Hs Hl].
  apply Decode_inv in H as (inv & lb & -> & H4 & H8 & Es & El).
  rewrite size_key_shape. do 2 f_equal.
  pose proof (be_decode_range inv) as Hi. rewrite H4 in Hi.
  change (2 ^ (8 * Z.of_nat 4)) with (2 ^ 32) in Hi.
  unfold MaxUint32, MaxUint64 in *.
  f_equal.
  - unfold uint32, MaxUint32. rewrite (Z.mod_small sz) by lia.
    rewrite Z.mod_small by lia.
    replace (2 ^ 32 - 1 - sz) with (be_decode inv) by lia.
    rewrite <- H4 at 1. now rewrite be_encode_decode.
  - unfold uint64. rewrite Z.mod_small by lia. subst label.
    rewrite <- H8 at 1. now rewrite be_encode_decode.
Qed.

Lemma bytes_leb_cons x a y b :
  bytes_leb (x :: a) (y :: b) = true ->
  Z_of_byte x < Z_of_byte y \/ (x = y /\ bytes_leb a b = true).
Proof.
  unfold bytes_leb. simpl.
  destruct (Z.compare_spec (Z_of_byte x) (Z_of_byte y)) as [E|L|G]; try discriminate.
  - intros H. right. split; [now apply Z_of_byte_inj | exact H].
  - intros _. now left.
Qed.

(** Inside the span of [i] a decodable key belongs to [i] and its
    count is at most 2^32 - 2. *)
Lemma in_range_Decode i c j sz label :
  in_range (begTKey i) (endTKey i) c = true ->
  DecodeTypeSizeLabelTKey (K c) = Ok (j, sz, label) ->
  j = i /\ 0 <= sz <= MaxUint32 - 1 /\ 0 <= label <= MaxUint64.
Proof.
  intros Hr Hd. pose proof (Decode_range _ _ _ _ Hd) as [Hs Hl].
  apply Decode_inv in Hd as (inv & lb & Ek & H4 & H8 & Es & El).
  unfold in_range in Hr. apply andb_prop in Hr as [Hb He].
  rewrite Ek, begTKey_shape in Hb. rewrite Ek, endTKey_shape in He.
  apply bytes_leb_cons in Hb as [Hb|[_ Hb]]; [lia|].
  apply bytes_leb_cons in He as [He|[_ He]]; [lia|].
  apply bytes_leb_cons in Hb as [Hb|[Eb Hb]];
    apply bytes_leb_cons in He as [He|[Ee He]]; subst; try lia.
  split; [reflexivity|]. split; [|assumption].
  unfold bytes_leb in Hb.
  rewrite bytes_compare_app_eqlen in Hb by (now rewrite length_be_encode).
  rewrite (bytes_compare_be (be_encode 4 1) inv) in Hb by (now rewrite length_be_encode).
  rewrite be_decode_encode in Hb. change (1 mod 2 ^ (8 * Z.of_nat 4)) with 1 in Hb.
  destruct (Z.compare_spec 1 (be_decode inv)); try discriminate; lia.
Qed.

(** Ascending key order is rank order on decodable keys of one index. *)
Lemma bytes_lt_ranked k1 k2 i s1 l1 s2 l2 :
  DecodeTypeSizeLabelTKey k1 = Ok (i, s1, l1) ->
  DecodeTypeSizeLabelTKey k2 = Ok (i, s2, l2) ->
  bytes_lt k1 k2 ->
  ranked_before (mkLabelSize l1 s1) (mkLabelSize l2 s2).
Proof.
  intros H1 H2 Hlt.
  apply Decode_inv in H1 as (inv1 & lb1 & -> & H41 & H81 & -> & ->).
  apply Decode_inv in H2 as (inv2 & lb2 & -> & H42 & H82 & -> & ->).
  unfold bytes_lt in Hlt.
  change (bytes_compare ([keyTypeSizeLabel; i] ++ inv1 ++ lb1)
            ([keyTypeSizeLabel; i] ++ inv2 ++ lb2) = Lt) in Hlt.
  rewrite bytes_compare_app_same in Hlt.
  rewrite bytes_compare_app_eqlen in Hlt by congruence.
  rewrite (bytes_compare_be inv1 inv2) in Hlt by congruence.
  unfold ranked_before; simpl.
  destruct (Z.compare_spec (be_decode inv1) (be_decode inv2)) as [E|L|G];
    try discriminate.
  - right. split; [lia|].
    rewrite (bytes_compare_be lb1 lb2) in Hlt by congruence.
    now apply Z.compare_lt_iff.
  - left. lia.
Qed.

(** In a store of labelsz keys every key of the span decodes. *)
Lemma span_key_decodes i c :
  labelsz_key (K c) = true ->
  in_range (begTKey i) (endTKey i) c = true ->
  exists sz label, DecodeTypeSizeLabelTKey (K c) = Ok (i, sz, label).
Proof.
  intros Hk Hr.
  assert (exists j inv lb, K c = keyTypeSizeLabel :: j :: inv ++ lb /\
            length inv = 4%nat /\ length lb = 8%nat) as (j & inv & lb & Ek & H4 & H8).
  { unfold labelsz_key in Hk. destruct (K c) as [|class rest] eqn:Ek; [discriminate|].
    apply orb_prop in Hk as [Hk|Hk]; apply andb_prop in Hk as [Hc Hn];
      apply byte_eqb_true in Hc; apply Nat.eqb_eq in Hn; subst class.
    - unfold in_range in Hr. apply andb_prop in Hr as [Hb _].
      rewrite Ek, begTKey_shape in Hb. apply bytes_leb_cons in Hb as [Hb|[Hb _]].
      + vm_compute in Hb. discriminate.
      + discriminate.
    - destruct rest as [|j rest]; [discriminate|].
      exists j, (take 4 rest), (drop 4 rest). simpl in Hn.
      rewrite take_drop, length_take, length_drop. repeat split; lia. }
  pose proof (Decode_shape j inv lb H4 H8) as Hd. rewrite <- Ek in Hd.
  destruct (in_range_Decode _ _ _ _ _ Hr Hd) as [-> _]. eauto.
Qed.

Lemma entry_Ok i c x :
  entry i c = Ok x <-> DecodeTypeSizeLabelTKey (K c) = Ok (i, Size x, Label x).
Proof.
  unfold entry. destruct (DecodeTypeSizeLabelTKey (K c)) as [[[j sz] l]|e].
  - destruct (Byte.eqb j i) eqn:E; simpl.
    + apply byte_eqb_true in E. subst j. destruct x as [lx sx]; simpl.
      split; intros H; injection H as <- <-; reflexivity.
    + split; [discriminate|]. intros H. injection H as -> _ _.
      rewrite byte_eqb_refl in E. discriminate.
  - split; discriminate.
Qed.

(** *** Facts about slices and the visitor loop *)

Lemma mkLabelSize_eta x : mkLabelSize (Label x) (Size x) = x.
Proof. now destruct x. Qed.

Section Scans.

Context {machine : Machine}.

Lemma make_inv n l :
  make n = Some l ->
  l = replicate (Z.to_nat n) (mkLabelSize 0 0) /\ 0 <= n <= MaxInt.
Proof.
  intros H. apply makeslice_inv in H as (-> & H0 & H1 & _).
  unfold sizeof_LabelSize, maxAlloc in H1. split; [reflexivity|int_lia].
Qed.

Lemma length_make n l : make n = Some l -> Z.of_nat (length l) = n.
Proof.
  intros H. apply make_inv in H as [-> Hn]. rewrite length_replicate. lia.
Qed.

(** A request that is granted is granted for every shorter slice. *)
Lemma make_mono n m :
  0 <= n <= m -> is_Some (make m) -> is_Some (make n).
Proof.
  intros Hnm [l Hl]. apply makeslice_inv in Hl as (_ & H0 & H1 & H2).
  exists (replicate (Z.to_nat n) (mkLabelSize 0 0)).
  apply makeslice_granted; unfold sizeof_LabelSize in *; lia.
Qed.

Lemma slice_set_in s r x :
  0 <= r < Z.of_nat (length s) -> slice_set s r x = Some (<[Z.to_nat r := x]> s).
Proof.
  intros H. unfold slice_set.
  destruct (Z.leb_spec 0 r); [|lia]. destruct (Z.ltb_spec r (Z.of_nat (length s))); [|lia].
  reflexivity.
Qed.

Lemma slice_to_in s k :
  0 <= k <= Z.of_nat (length s) -> slice_to s k = Some (take (Z.to_nat k) s).
Proof.
  intros H. unfold slice_to.
  destruct (Z.leb_spec 0 k); [|lia]. destruct (Z.leb_spec k (Z.of_nat (length s))); [|lia].
  reflexivity.
Qed.

Lemma take_S_insert (s : LabelSizes) (r : nat) x :
  (r < length s)%nat -> take (S r) (<[r := x]> s) = take r s ++ [x].
Proof.
  intros H. rewrite (take_S_r _ _ x) by (now apply list_lookup_insert_eq).
  now rewrite take_insert_ge by lia.
Qed.

Lemma process_chunks_app {S : Type} (f : Chunk -> S -> Go (S * option error)) cs1 cs2 st :
  process_chunks f (cs1 ++ cs2) st =
    match process_chunks f cs1 st with
    | Some (st', None) => process_chunks f cs2 st'
    | r => r
    end.
Proof.
  revert st. induction cs1 as [|c cs1 IH]; intros st; simpl; [reflexivity|].
  destruct (f c st) as [[st' [e|]]|]; auto.
Qed.

(** An invariant kept by the visitor on every chunk it is handed holds
    of the state the scan ends in. *)
Lemma process_chunks_inv {S : Type} (I : S -> Prop)
    (f : Chunk -> S -> Go (S * option error)) cs :
  (forall c s s' e, In c cs -> I s -> f c s = Some (s', e) -> I s') ->
  forall st st' e, I st -> process_chunks f cs st = Some (st', e) -> I st'.
Proof.
  induction cs as [|c cs IH]; intros Hf st st' e Hi; simpl.
  - intros H. now injection H as <- _.
  - destruct (f c st) as [[s1 [e1|]]|] eqn:E; try discriminate.
    + intros H. injection H as <- _. eapply Hf; eauto. now left.
    + apply IH.
      * intros ? ? ? ? Hin. apply Hf. now right.
      * eapply Hf; eauto. now left.
Qed.

Lemma StronglySorted_span i db :
  ascending db -> StronglySorted bytes_lt (K <$> span i db).
Proof.
  unfold ascending, span. generalize (in_range (begTKey i) (endTKey i)) as p.
  intros p. induction (db_kvs db) as [|c l IH]; simpl; intros Hs; [constructor|].
  apply StronglySorted_inv in Hs as [Hs Hc].
  destruct (p c); simpl; [|auto].
  constructor; [auto|].
  rewrite Forall_forall in *. intros k Hk. apply Hc.
  apply list_elem_of_fmap in Hk as (c' & -> & Hin).
  apply list_elem_of_fmap. exists c'. split; [reflexivity|].
  apply list_elem_of_In in Hin. apply filter_In in Hin as [Hin _].
  now apply list_elem_of_In.
Qed.

Lemma StronglySorted_take {A} (R : A -> A -> Prop) (l : list A) n :
  StronglySorted R l -> StronglySorted R (take n l).
Proof.
  intros H. rewrite <- (take_drop n l) in H. now apply StronglySorted_app_1_l in H.
Qed.

(** Rank order of the decoded entries of an ascending run of chunks. *)
Lemma entries_ranked i cs es :
  Forall2 (fun c x => entry i c = Ok x) cs es ->
  StronglySorted bytes_lt (K <$> cs) -> StronglySorted ranked_before es.
Proof.
  induction 1 as [|c x cs es Hx Hall IH]; simpl; intros Hs; [constructor|].
  apply StronglySorted_inv in Hs as [Hs Hc]. constructor; [auto|].
  clear IH Hs. induction Hall as [|c' x' cs es Hx' Hall IH]; [constructor|].
  simpl in Hc. apply Forall_cons in Hc as [Hlt Hc]. constructor; [|auto].
  apply entry_Ok in Hx, Hx'.
  pose proof (bytes_lt_ranked _ _ _ _ _ _ _ Hx Hx' Hlt) as H.
  now rewrite !mkLabelSize_eta in H.
Qed.

(** In a store of labelsz keys the whole span decodes. *)
Lemma span_entries i db :
  labelsz_store db -> exists es, Forall2 (fun c x => entry i c = Ok x) (span i db) es.
Proof.
  unfold labelsz_store, span. induction (db_kvs db) as [|c l IH]; intros Hk; simpl.
  - exists []. constructor.
  - apply Forall_cons in Hk as [Hc Hk]. destruct (IH Hk) as [es Hes].
    destruct (in_range (begTKey i) (endTKey i) c) eqn:Hr; [|eauto].
    destruct (span_key_decodes i c Hc Hr) as (sz & label & Hd).
    exists (mkLabelSize label sz :: es). constructor; [|assumption].
    now apply entry_Ok.
Qed.

(** *** The scan of [GetTopElementType] *)

Lemma top_visitor_entry i n c x st :
  entry i c = Ok x ->
  0 <= rank st < Z.of_nat (length (lsz st)) -> rank st < MaxInt ->
  top_visitor i n c st =
    Some (mkScan (<[Z.to_nat (rank st) := x]> (lsz st)) (rank st + 1) (saved st),
          if rank st + 1 >=? n then Some shortCircuitErr else None).
Proof.
  intros Hx Hr Hm. apply entry_Ok in Hx. unfold top_visitor.
  rewrite Hx, byte_eqb_refl. simpl negb. cbv iota.
  rewrite mkLabelSize_eta, slice_set_in by assumption.
  rewrite wrap_int_small by int_lia.
  cbn [rank]. now destruct (rank st + 1 >=? n).
Qed.

Lemma top_scan_ok i n cs es :
  Forall2 (fun c x => entry i c = Ok x) cs es ->
  forall st,
  n <= MaxInt -> Z.of_nat (length (lsz st)) = n -> 0 <= rank st < n ->
  exists l',
    process_chunks (top_visitor i n) cs st =
      Some (mkScan l' (rank st + Z.min (Z.of_nat (length es)) (n - rank st)) (saved st),
            if n - rank st <=? Z.of_nat (length cs) then Some shortCircuitErr else None)
    /\ length l' = length (lsz st)
    /\ take (Z.to_nat (rank st + Z.min (Z.of_nat (length es)) (n - rank st))) l' =
         take (Z.to_nat (rank st)) (lsz st) ++ take (Z.to_nat (n - rank st)) es.
Proof.
  induction 1 as [|c x cs es Hx Hall IH]; intros st Hn Hl Hr.
  - exists (lsz st). cbn [process_chunks length].
    rewrite Z.min_l by lia. rewrite Z.add_0_r.
    destruct (Z.leb_spec (n - rank st) (Z.of_nat 0)); [lia|].
    destruct st; simpl. rewrite take_nil, app_nil_r. auto.
  - cbn [process_chunks]. rewrite (top_visitor_entry i n c x st Hx) by lia.
    set (st1 := mkScan (<[Z.to_nat (rank st) := x]> (lsz st)) (rank st + 1) (saved st)).
    assert (Hlen1 : length (lsz st1) = length (lsz st)) by apply length_insert.
    assert (Htake1 : take (Z.to_nat (rank st + 1)) (lsz st1) =
                     take (Z.to_nat (rank st)) (lsz st) ++ [x]).
    { replace (Z.to_nat (rank st + 1)) with (S (Z.to_nat (rank st))) by lia.
      apply take_S_insert. lia. }
    cbn [length]. destruct (Z.geb_spec (rank st + 1) n) as [Hge|Hlt].
    + exists (lsz st1). rewrite Z.min_r by lia.
      destruct (Z.leb_spec (n - rank st) (Z.of_nat (S (length cs)))); [|lia].
      replace (rank st + (n - rank st)) with (rank st + 1) by lia.
      split; [reflexivity|]. split; [assumption|].
      rewrite Htake1. replace (Z.to_nat (n - rank st)) with 1%nat by lia.
      cbn [take]. now destruct es.
    + destruct (IH st1) as (l' & Hp & Hlen & Htake); cbn [rank lsz st1]; try lia.
      { cbn [st1 lsz] in Hlen1. lia. }
      assert (Hidx : rank st + 1 + Z.min (Z.of_nat (length es)) (n - (rank st + 1)) =
                     rank st + Z.min (Z.of_nat (S (length es))) (n - rank st)) by lia.
      cbn [rank saved lsz st1] in Hp, Htake, Hlen. rewrite Hidx in Hp, Htake.
      exists l'. rewrite Hp.
      split; [|split].
      * f_equal. f_equal.
        destruct (Z.leb_spec (n - (rank st + 1)) (Z.of_nat (length cs)));
          destruct (Z.leb_spec (n - rank st) (Z.of_nat (S (length cs)))); auto; lia.
      * rewrite Hlen. apply length_insert.
      * rewrite Htake.
        replace (Z.to_nat (rank st + 1)) with (S (Z.to_nat (rank st))) by lia.
        rewrite take_S_insert by lia. rewrite <- app_assoc. f_equal.
        replace (Z.to_nat (n - rank st)) with (S (Z.to_nat (n - (rank st + 1)))) by lia.
        reflexivity.
Qed.


(** *** The two scans side by side *)

Lemma visitors_agree i n c s1 s2 :
  1 <= n <= MaxInt ->
  lsz s1 = lsz s2 -> rank s1 = saved s2 -> rank s2 = saved s2 -> 0 <= rank s1 < n ->
  match top_visitor i n c s1, threshold_visitor i 0 0 n c s2 with
  | None, None => True
  | Some (t1, e1), Some (t2, e2) =>
      e1 = e2 /\ lsz t1 = lsz t2 /\ rank t1 = saved t2 /\ 0 <= saved t2 <= n /\
      (e1 = None -> rank t2 = saved t2 /\ rank t1 < n)
  | _, _ => False
  end.
Proof.
  intros Hn Hl Hr Hrs Hb. unfold top_visitor, threshold_visitor.
  destruct (DecodeTypeSizeLabelTKey (K c)) as [[[idx sz] label]|e] eqn:Hd.
  2:{ repeat split; auto; try lia; discriminate. }
  destruct (negb (Byte.eqb idx i)).
  { repeat split; auto; try lia; discriminate. }
  destruct (Decode_range _ _ _ _ Hd) as [Hsz _].
  destruct (Z.ltb_spec sz 0); [lia|].
  rewrite Z.add_0_l, (wrap_int_small n) by int_lia.
  destruct (Z.geb_spec (rank s2) 0); [|lia].
  destruct (Z.ltb_spec (rank s2) n); [|lia]. cbn [andb].
  rewrite <- Hl, <- Hr.
  destruct (slice_set (lsz s1) (rank s1) (mkLabelSize label sz)) as [l|]; [|exact I].
  cbn [rank saved].
  rewrite Hrs, <- Hr.
  rewrite (wrap_int_small (rank s1 + 1)) by int_lia.
  destruct (Z.geb_spec (rank s1 + 1) n); destruct (Z.eqb_spec (rank s1 + 1) n); try lia;
    cbn [lsz rank saved]; repeat split; auto; try lia; discriminate.
Qed.

Lemma scans_agree i n cs :
  1 <= n <= MaxInt ->
  forall s1 s2,
  lsz s1 = lsz s2 -> rank s1 = saved s2 -> rank s2 = saved s2 -> 0 <= rank s1 < n ->
  match process_chunks (top_visitor i n) cs s1,
        process_chunks (threshold_visitor i 0 0 n) cs s2 with
  | None, None => True
  | Some (t1, e1), Some (t2, e2) =>
      e1 = e2 /\ lsz t1 = lsz t2 /\ rank t1 = saved t2 /\ 0 <= saved t2 <= n
  | _, _ => False
  end.
Proof.
  intros Hn. induction cs as [|c cs IH]; intros s1 s2 Hl Hr Hrs Hb; cbn [process_chunks].
  - repeat split; auto; lia.
  - pose proof (visitors_agree i n c s1 s2 Hn Hl Hr Hrs Hb) as Hv.
    destruct (top_visitor i n c s1) as [[t1 e1]|];
      destruct (threshold_visitor i 0 0 n c s2) as [[t2 e2]|]; try contradiction; auto.
    destruct Hv as (<- & Hl' & Hr' & Hb' & Hnone).
    destruct e1 as [e|]; [repeat split; auto; lia|].
    destruct (Hnone eq_refl) as [Hrs' Hlt]. apply IH; auto; lia.
Qed.

(** C4.  For every [N >= 1] and every index state, [GetTopElementType]
    with [N] and [GetLabelsByThreshold] with threshold 0, offset 0 and
    [N] requested labels come to the same outcome; in particular the top
    list is the first [N] entries of the threshold list (all of them,
    since it has at most [N]). *)
Theorem top_is_first_N_of_threshold (d : Data) (N : Z) (i : IndexType) :
  1 <= N <= MaxInt ->
  GetTopElementType d N i = GetLabelsByThreshold d i 0 0 N
  /\ forall l, GetLabelsByThreshold d i 0 0 N = Some (Ok l) ->
       GetTopElementType d N i = Some (Ok (take (Z.to_nat N) l)).
Proof.
  intros HN.
  assert (G : GetTopElementType d N i = GetLabelsByThreshold d i 0 0 N
              /\ forall l, GetLabelsByThreshold d i 0 0 N = Some (Ok l) ->
                   Z.of_nat (length l) <= N).
  { unfold GetTopElementType, GetLabelsByThreshold.
    destruct (Z.ltb_spec N 0); [lia|]. destruct (Z.eqb_spec N 0); [lia|].
    destruct (GetOrderedKeyValueDB d) as [store|e]; [|split; [reflexivity|discriminate]].
    destruct (make N) as [lsz0|]; [|split; [reflexivity|discriminate]].
    unfold ProcessRange. destruct (db_broken store).
    { cbn [is_shortCircuit]. split; [reflexivity|discriminate]. }
    pose proof (scans_agree i N (List.filter (in_range (begTKey i) (endTKey i)) (db_kvs store))
                  HN (mkScan lsz0 0 0) (mkScan lsz0 0 0)
                  eq_refl eq_refl eq_refl ltac:(cbn [rank]; lia)) as Hs.
    destruct (process_chunks (top_visitor i N) _ _) as [[t1 e1]|];
      destruct (process_chunks (threshold_visitor i 0 0 N) _ _) as [[t2 e2]|];
      try contradiction; [|split; [reflexivity|discriminate]].
    destruct Hs as (<- & Hl & Hr & Hb). rewrite Hl, Hr.
    split; [reflexivity|].
    assert (forall l, slice_to (lsz t2) (saved t2) = Some l -> Z.of_nat (length l) <= N).
    { intros l. unfold slice_to. destruct (_ && _); [|discriminate].
      intros E. injection E as <-. rewrite length_take. lia. }
    intros l. destruct e1 as [e|].
    - destruct (is_shortCircuit e); [|discriminate].
      destruct (slice_to (lsz t2) (saved t2)) eqn:E; [|discriminate].
      intros E'. injection E' as <-. auto.
    - destruct (slice_to (lsz t2) (saved t2)) eqn:E; [|discriminate].
      intros E'. injection E' as <-. auto. }
  destruct G as [Heq Hlen]. split; [exact Heq|].
  intros l Hl. rewrite Heq, Hl. rewrite take_ge; [reflexivity|].
  specialize (Hlen l Hl). lia.
Qed.

(** *** What a scan can return *)

Lemma collected_step i cs cap l k c x l' :
  cap <= MaxInt -> collected i cs cap l k -> In c cs ->
  DecodeTypeSizeLabelTKey (K c) = Ok (i, Size x, Label x) ->
  slice_set l k x = Some l' ->
  collected i cs cap l' (wrap_int (k + 1)).
Proof.
  intros Hcap (Hl & Hk & Hall) Hin Hd Hset. unfold slice_set in Hset.
  destruct (Z.leb_spec 0 k); [|discriminate].
  destruct (Z.ltb_spec k (Z.of_nat (length l))); [|discriminate].
  injection Hset as <-.
  rewrite wrap_int_small by int_lia.
  split; [|split].
  - rewrite length_insert. exact Hl.
  - lia.
  - replace (Z.to_nat (k + 1)) with (S (Z.to_nat k)) by lia.
    rewrite take_S_insert by lia. apply Forall_app. split; [assumption|].
    constructor; [|constructor]. exists c. split; [assumption|]. now apply entry_Ok.
Qed.

Lemma top_visitor_collected i n cs c s s' e :
  n <= MaxInt -> In c cs ->
  collected i cs n (lsz s) (rank s) ->
  top_visitor i n c s = Some (s', e) ->
  collected i cs n (lsz s') (rank s').
Proof.
  intros Hn Hin Hc. unfold top_visitor.
  destruct (DecodeTypeSizeLabelTKey (K c)) as [[[idx sz] label]|e0] eqn:Hd.
  2:{ intros H. now injection H as <- _. }
  destruct (Byte.eqb idx i) eqn:Ei; cbn [negb].
  2:{ intros H. now injection H as <- _. }
  apply byte_eqb_true in Ei. subst idx.
  destruct (slice_set (lsz s) (rank s) (mkLabelSize label sz)) as [l|] eqn:Hs; [|discriminate].
  pose proof (collected_step i cs n _ _ c (mkLabelSize label sz) l Hn Hc Hin Hd Hs) as Hc'.
  cbn [rank]. destruct (_ >=? n); intros H; injection H as <- _; exact Hc'.
Qed.

Lemma threshold_visitor_collected i minSize offset nReturns cs c s s' e :
  nReturns <= MaxInt -> In c cs ->
  collected i cs nReturns (lsz s) (saved s) ->
  threshold_visitor i minSize offset nReturns c s = Some (s', e) ->
  collected i cs nReturns (lsz s') (saved s').
Proof.
  intros Hn Hin Hc. unfold threshold_visitor.
  destruct (DecodeTypeSizeLabelTKey (K c)) as [[[idx sz] label]|e0] eqn:Hd.
  2:{ intros H. now injection H as <- _. }
  destruct (Byte.eqb idx i) eqn:Ei; cbn [negb].
  2:{ intros H. now injection H as <- _. }
  apply byte_eqb_true in Ei. subst idx.
  destruct (sz <? minSize).
  { intros H. now injection H as <- _. }
  destruct (_ && _).
  2:{ intros H. now injection H as <- _. }
  destruct (slice_set (lsz s) (saved s) (mkLabelSize label sz)) as [l|] eqn:Hs; [|discriminate].
  pose proof (collected_step i cs nReturns _ _ c (mkLabelSize label sz) l Hn Hc Hin Hd Hs) as Hc'.
  cbn [saved]. destruct (_ =? nReturns); intros H; injection H as <- _; exact Hc'.
Qed.

Lemma slice_to_collected i cs cap l k out :
  collected i cs cap l k -> slice_to l k = Some out ->
  Z.of_nat (length out) <= cap /\ Forall (decoded_from i cs) out.
Proof.
  intros (Hl & Hk & Hall). unfold slice_to. destruct (_ && _); [|discriminate].
  intros H. injection H as <-. split; [|assumption]. rewrite length_take. lia.
Qed.

Lemma collected_make i cs n l : make n = Some l -> collected i cs n l 0.
Proof.
  intros Hmk. destruct (make_inv n l Hmk) as [_ Hn]. split; [|split].
  - now apply length_make.
  - lia.
  - rewrite take_0. constructor.
Qed.

(** Every entry of a successful top list was decoded from a chunk of
    the span, and there are at most [n] of them. *)
Lemma GetTopElementType_sound d n i top :
  n <= MaxInt -> GetTopElementType d n i = Some (Ok top) ->
  Z.of_nat (length top) <= n /\
  forall x, In x top ->
    exists store, GetOrderedKeyValueDB d = Ok store /\ decoded_from i (span i store) x.
Proof.
  intros Hn. unfold GetTopElementType.
  destruct (Z.ltb_spec n 0); [discriminate|].
  destruct (Z.eqb_spec n 0).
  { intros Hres. injection Hres as <-. subst n. split; [simpl; lia|]. intros x []. }
  destruct (GetOrderedKeyValueDB d) as [store|e0]; [|discriminate].
  destruct (make n) as [l0|] eqn:Hmk; [|discriminate].
  unfold ProcessRange. destruct (db_broken store); [discriminate|].
  fold (span i store).
  destruct (process_chunks _ _ _) as [[st err]|] eqn:Hp; [|discriminate].
  assert (Hc : collected i (span i store) n (lsz st) (rank st)).
  { apply (process_chunks_inv (fun s => collected i (span i store) n (lsz s) (rank s))
             (top_visitor i n) (span i store)) with (st := mkScan l0 0 0) (e := err).
    - intros c s s' e Hin Hs Hv. eapply top_visitor_collected; eauto.
    - now apply collected_make.
    - exact Hp. }
  intros Hres.
  assert (Hs : slice_to (lsz st) (rank st) = Some top).
  { destruct err as [e|]; [destruct (is_shortCircuit e); [|discriminate]|];
      destruct (slice_to (lsz st) (rank st)); try discriminate;
      now injection Hres as <-. }
  destruct (slice_to_collected _ _ _ _ _ _ Hc Hs) as [Hlen Hall].
  split; [assumption|]. intros x Hx. exists store. split; [reflexivity|].
  rewrite List.Forall_forall in Hall. auto.
Qed.

(** The same for a successful threshold list; its bound is the number
    of labels asked for, or [MaxLabelsReturned] when none was given. *)
Lemma GetLabelsByThreshold_sound d i minSize offset num lsz0 :
  num <= MaxInt -> GetLabelsByThreshold d i minSize offset num = Some (Ok lsz0) ->
  Z.of_nat (length lsz0) <= (if num =? 0 then MaxLabelsReturned else num) /\
  forall x, In x lsz0 ->
    exists store, GetOrderedKeyValueDB d = Ok store /\ decoded_from i (span i store) x.
Proof.
  intros Hn. unfold GetLabelsByThreshold.
  destruct (Z.ltb_spec num 0); [discriminate|].
  set (nReturns := if num =? 0 then MaxLabelsReturned else num).
  assert (HnR : 0 <= nReturns <= MaxInt).
  { unfold nReturns, MaxLabelsReturned, MaxInt in *. destruct (num =? 0); lia. }
  destruct (GetOrderedKeyValueDB d) as [store|e0]; [|discriminate].
  destruct (make nReturns) as [l0|] eqn:Hmk; [|discriminate].
  unfold ProcessRange. destruct (db_broken store); [discriminate|].
  fold (span i store).
  destruct (process_chunks _ _ _) as [[st err]|] eqn:Hp; [|discriminate].
  assert (Hc : collected i (span i store) nReturns (lsz st) (saved st)).
  { apply (process_chunks_inv (fun s => collected i (span i store) nReturns (lsz s) (saved s))
             (threshold_visitor i minSize offset nReturns) (span i store))
      with (st := mkScan l0 0 0) (e := err).
    - intros c s s' e Hin Hs Hv. eapply threshold_visitor_collected; eauto. lia.
    - now apply collected_make.
    - exact Hp. }
  intros Hres.
  assert (Hs : slice_to (lsz st) (saved st) = Some lsz0).
  { destruct err as [e|]; [destruct (is_shortCircuit e); [|discriminate]|];
      destruct (slice_to (lsz st) (saved st)); try discriminate;
      now injection Hres as <-. }
  destruct (slice_to_collected _ _ _ _ _ _ Hc Hs) as [Hlen Hall].
  split; [assumption|]. intros x Hx. exists store. split; [reflexivity|].
  rewrite List.Forall_forall in Hall. auto.
Qed.

Lemma span_In i db c : In c (span i db) ->
  In c (db_kvs db) /\ in_range (begTKey i) (endTKey i) c = true.
Proof. unfold span. apply filter_In. Qed.

(** C9.  A label whose only size key in index [i] carries the count
    2^32 - 1 is returned by neither scan: the range starts at the size
    key of count 2^32 - 2 (inverted count 1), which leaves every key of
    count 2^32 - 1 (inverted count 0) outside the iterated range. *)
Theorem max_count_label_not_returned (d : Data) (store : OrderedKeyValueDB)
    (i : IndexType) (L n minSize offset num : Z) :
  GetOrderedKeyValueDB d = Ok store ->
  n <= MaxInt -> num <= MaxInt -> 0 <= L <= MaxUint64 ->
  In (NewTypeSizeLabelTKey i MaxUint32 L) (K <$> db_kvs store) ->
  (forall c sz, In c (db_kvs store) ->
     DecodeTypeSizeLabelTKey (K c) = Ok (i, sz, L) -> sz = MaxUint32) ->
  begTKey i = NewTypeSizeLabelTKey i (2 ^ 32 - 2) 0
  /\ (forall c, K c = NewTypeSizeLabelTKey i MaxUint32 L ->
        in_range (begTKey i) (endTKey i) c = false)
  /\ (forall top, GetTopElementType d n i = Some (Ok top) ->
        ~ In L (Label <$> top))
  /\ (forall lsz0, GetLabelsByThreshold d i minSize offset num = Some (Ok lsz0) ->
        ~ In L (Label <$> lsz0)).
Proof.
  intros Hd Hn Hnum HL Hstored Honly.
  assert (Hnot : forall x, decoded_from i (span i store) x -> Label x <> L).
  { intros x (c & Hin & Hx) Hlab. apply entry_Ok in Hx. apply span_In in Hin as [Hin Hr].
    destruct (in_range_Decode _ _ _ _ _ Hr Hx) as (_ & Hsz & _).
    rewrite Hlab in Hx. specialize (Honly c (Size x) Hin Hx). unfold MaxUint32 in *. lia. }
  split; [reflexivity|]. split; [|split].
  - intros c Hk. destruct (in_range (begTKey i) (endTKey i) c) eqn:Hr; [|reflexivity].
    assert (Hdec : DecodeTypeSizeLabelTKey (K c) = Ok (i, MaxUint32, L)).
    { rewrite Hk. apply Decode_New; [unfold MaxUint32; lia | assumption]. }
    destruct (in_range_Decode _ _ _ _ _ Hr Hdec) as (_ & Hsz & _). lia.
  - intros top Htop Hlab. apply in_map_iff in Hlab as (x & HxL & Hx).
    destruct (GetTopElementType_sound d n i top Hn Htop) as [_ Hall].
    destruct (Hall x Hx) as (store' & Hd' & Hfrom).
    rewrite Hd in Hd'. injection Hd' as <-. now apply (Hnot x).
  - intros lsz0 Hthr Hlab. apply in_map_iff in Hlab as (x & HxL & Hx).
    destruct (GetLabelsByThreshold_sound d i minSize offset num lsz0 Hnum Hthr) as [_ Hall].
    destruct (Hall x Hx) as (store' & Hd' & Hfrom).
    rewrite Hd in Hd'. injection Hd' as <-. now apply (Hnot x).
Qed.

(** *** The scan of [GetLabelsByThreshold] *)

Lemma threshold_visitor_entry i minSize offset nReturns c x st :
  entry i c = Ok x ->
  0 <= saved st < Z.of_nat (length (lsz st)) ->
  0 <= rank st < MaxInt -> saved st < MaxInt ->
  0 <= offset -> 0 <= nReturns -> offset + nReturns <= MaxInt ->
  threshold_visitor i minSize offset nReturns c st =
    if Size x <? minSize then Some (st, Some shortCircuitErr)
    else if (rank st >=? offset) && (rank st <? offset + nReturns) then
      if saved st + 1 =? nReturns
      then Some (mkScan (<[Z.to_nat (saved st) := x]> (lsz st)) (rank st) (saved st + 1),
                 Some shortCircuitErr)
      else Some (mkScan (<[Z.to_nat (saved st) := x]> (lsz st)) (rank st + 1) (saved st + 1),
                 None)
    else Some (mkScan (lsz st) (rank st + 1) (saved st), None).
Proof.
  intros Hx Hs Hr Hsm Ho Hn Hsum. apply entry_Ok in Hx. unfold threshold_visitor.
  rewrite Hx, byte_eqb_refl. cbn [negb].
  rewrite (wrap_int_small (offset + nReturns)) by int_lia.
  rewrite (wrap_int_small (rank st + 1)) by int_lia.
  rewrite (wrap_int_small (saved st + 1)) by int_lia.
  rewrite mkLabelSize_eta, slice_set_in by assumption. reflexivity.
Qed.

Lemma threshold_scan_ok i minSize offset nReturns cs es :
  Forall2 (fun c x => entry i c = Ok x) cs es ->
  0 <= offset -> 1 <= nReturns -> offset + nReturns <= MaxInt ->
  forall st,
  Z.of_nat (length (lsz st)) = nReturns ->
  0 <= rank st -> rank st + Z.of_nat (length cs) <= MaxInt ->
  0 <= saved st < nReturns -> saved st = Z.max 0 (rank st - offset) ->
  exists st' err,
    process_chunks (threshold_visitor i minSize offset nReturns) cs st = Some (st', err)
    /\ (err = None \/ err = Some shortCircuitErr)
    /\ length (lsz st') = length (lsz st)
    /\ 0 <= saved st' <= nReturns
    /\ take (Z.to_nat (saved st')) (lsz st') =
         take (Z.to_nat (saved st)) (lsz st) ++
         take (Z.to_nat (nReturns - saved st))
           (drop (Z.to_nat (offset - rank st)) (qualifying minSize es)).
Proof.
  intros Hes Ho HnR Hsum.
  induction Hes as [|c x cs es Hx Hall IH]; intros st Hl Hr Hmax Hs Hrel.
  - exists st, None. cbn [process_chunks qualifying].
    rewrite drop_nil, take_nil, app_nil_r. repeat split; auto; lia.
  - cbn [process_chunks qualifying length] in *.
    rewrite (threshold_visitor_entry i minSize offset nReturns c x st Hx)
      by int_lia.
    destruct (Z.ltb_spec (Size x) minSize) as [Hlow|Hhigh].
    { exists st, (Some shortCircuitErr). rewrite drop_nil, take_nil, app_nil_r.
      repeat split; auto; lia. }
    destruct (Z.geb_spec (rank st) offset) as [Hge|Hlt].
    + destruct (Z.ltb_spec (rank st) (offset + nReturns)); [|lia]. cbn [andb].
      replace (Z.to_nat (offset - rank st)) with 0%nat by lia. rewrite drop_0.
      assert (Htake1 : take (Z.to_nat (saved st + 1)) (<[Z.to_nat (saved st) := x]> (lsz st)) =
                       take (Z.to_nat (saved st)) (lsz st) ++ [x]).
      { replace (Z.to_nat (saved st + 1)) with (S (Z.to_nat (saved st))) by lia.
        apply take_S_insert. lia. }
      destruct (Z.eqb_spec (saved st + 1) nReturns) as [Efull|Emore].
      * eexists _, (Some shortCircuitErr). split; [reflexivity|]. cbn [lsz saved].
        split; [now right|]. split; [apply length_insert|]. split; [lia|].
        rewrite Htake1. replace (Z.to_nat (nReturns - saved st)) with 1%nat by lia.
        cbn [take]. now destruct (qualifying minSize es).
      * set (st1 := mkScan (<[Z.to_nat (saved st) := x]> (lsz st)) (rank st + 1) (saved st + 1)).
        destruct (IH st1) as (st' & err & Hp & Herr & Hlen & Hsv & Htake);
          cbn [st1 lsz rank saved]; try lia.
        { rewrite length_insert. exact Hl. }
        exists st', err. split; [exact Hp|]. split; [exact Herr|].
        cbn [st1 lsz rank saved] in Hlen, Htake.
        split; [rewrite Hlen; apply length_insert|]. split; [exact Hsv|].
        rewrite Htake, Htake1, <- app_assoc. f_equal.
        replace (Z.to_nat (offset - (rank st + 1))) with 0%nat by lia. rewrite drop_0.
        replace (Z.to_nat (nReturns - saved st))
          with (S (Z.to_nat (nReturns - (saved st + 1)))) by lia.
        reflexivity.
    + cbn [andb].
      set (st1 := mkScan (lsz st) (rank st + 1) (saved st)).
      destruct (IH st1) as (st' & err & Hp & Herr & Hlen & Hsv & Htake);
        cbn [st1 lsz rank saved]; try lia.
      exists st', err. split; [exact Hp|]. split; [exact Herr|].
      cbn [st1 lsz rank saved] in Hlen, Htake.
      split; [exact Hlen|]. split; [exact Hsv|].
      rewrite Htake. f_equal. f_equal.
      replace (Z.to_nat (offset - rank st)) with (S (Z.to_nat (offset - (rank st + 1)))) by lia.
      reflexivity.
Qed.

(** What [GetLabelsByThreshold] computes on a store of labelsz keys:
    of the leading entries of the span with count at least [minSize],
    the first [offset] are skipped and the next [nReturns] returned,
    where [nReturns] is [MaxLabelsReturned] when [num] is 0 and [num]
    itself otherwise. *)
Lemma GetLabelsByThreshold_behaviour (d : Data) (store : OrderedKeyValueDB)
    (i : IndexType) (minSize offset num : Z) :
  GetOrderedKeyValueDB d = Ok store -> db_broken store = false ->
  labelsz_store store ->
  0 <= offset -> 0 <= num ->
  offset + (if num =? 0 then MaxLabelsReturned else num) <= MaxInt ->
  Z.of_nat (length (span i store)) <= MaxInt ->
  is_Some (make (if num =? 0 then MaxLabelsReturned else num)) ->
  exists es,
    Forall2 (fun c x => DecodeTypeSizeLabelTKey (K c) = Ok (i, Size x, Label x))
      (span i store) es
    /\ GetLabelsByThreshold d i minSize offset num =
         Some (Ok (take (Z.to_nat (if num =? 0 then MaxLabelsReturned else num))
                     (drop (Z.to_nat offset) (qualifying minSize es)))).
Proof.
  intros Hd Hb Hkeys Ho Hnum Hsum Hlen [lsz0 Hmk].
  destruct (span_entries i store Hkeys) as [es Hes]. exists es.
  split.
  { eapply Forall2_impl; [exact Hes|]. intros c x Hx. now apply entry_Ok. }
  unfold GetLabelsByThreshold. destruct (Z.ltb_spec num 0); [lia|].
  set (nReturns := if num =? 0 then MaxLabelsReturned else num) in *.
  assert (HnR : 1 <= nReturns).
  { unfold nReturns, MaxLabelsReturned. destruct (Z.eqb_spec num 0); lia. }
  pose proof (length_make nReturns lsz0 Hmk) as Hlm.
  rewrite Hd, Hmk. unfold ProcessRange. rewrite Hb. fold (span i store).
  destruct (threshold_scan_ok i minSize offset nReturns _ _ Hes Ho HnR Hsum
              (mkScan lsz0 0 0))
    as (st' & err & Hp & Herr & Hl & Hsv & Htake); cbn [lsz rank saved]; try lia.
  rewrite Hp. cbn [lsz rank saved] in Hl, Htake.
  rewrite take_0, !Z.sub_0_r in Htake. cbn [app] in Htake.
  assert (Hs : slice_to (lsz st') (saved st') =
               Some (take (Z.to_nat nReturns) (drop (Z.to_nat offset) (qualifying minSize es)))).
  { rewrite slice_to_in by (rewrite Hl; lia). now rewrite Htake. }
  destruct Herr as [-> | ->]; cbn [is_shortCircuit]; rewrite Hs; reflexivity.
Qed.

(** *** Point lookup *)

(** C3.  When the store is available and its [Get] succeeds,
    [GetCountElementType] returns 0 without error for an absent value;
    it fails if and only if a value is present whose length is not 4,
    and then with the bad-size error; a present 4-byte value is returned
    decoded as a little-endian u32. *)
Theorem GetCountElementType_cases (d : Data) (store : OrderedKeyValueDB)
    (label : Z) (i : IndexType) (v : option (list byte)) :
  GetOrderedKeyValueDB d = Ok store ->
  Get store (NewTypeLabelTKey i label) = Ok v ->
  (v = None -> GetCountElementType d label i = Ok 0)
  /\ ((exists e, GetCountElementType d label i = Err e) <->
      (exists val, v = Some val /\ length val <> 4%nat))
  /\ (forall val, v = Some val -> length val <> 4%nat ->
        GetCountElementType d label i =
          Err (ErrBadValueSize i label (Z.of_nat (length val))))
  /\ (forall b0 b1 b2 b3, v = Some [b0; b1; b2; b3] ->
        GetCountElementType d label i =
          Ok (Z_of_byte b0 + 2 ^ 8 * Z_of_byte b1 + 2 ^ 16 * Z_of_byte b2
              + 2 ^ 24 * Z_of_byte b3)).
Proof.
  intros Hd Hg. unfold GetCountElementType. rewrite Hd, Hg.
  split; [|split; [|split]].
  - now intros ->.
  - split.
    + intros [e He]. destruct v as [val|]; [|discriminate].
      exists val. split; [reflexivity|].
      destruct (Nat.eqb_spec (length val) 4); [discriminate|assumption].
    + intros (val & -> & Hlen). destruct (Nat.eqb_spec (length val) 4); [contradiction|].
      cbn [negb]. eauto.
  - intros val -> Hlen. destruct (Nat.eqb_spec (length val) 4); [contradiction|].
    reflexivity.
  - intros b0 b1 b2 b3 ->. cbn [length Nat.eqb negb le_decode].
    rewrite !Z.shiftl_mul_pow2 by lia. f_equal. lia.
Qed.

(** *** ROI filter *)

Lemma inROI_checked_nil ImmutableBySpec loads d e :
  String.eqb (StaticROI d) "" = false -> roiChecked d = true -> iROI d = None ->
  inROI ImmutableBySpec loads d e = (false, d, loads).
Proof.
  intros Hs Hc Hi. unfold inROI. rewrite Hs, Hc. cbn [negb]. now rewrite Hi.
Qed.

Lemma inROI_all_checked_nil ImmutableBySpec loads d es :
  String.eqb (StaticROI d) "" = false -> roiChecked d = true -> iROI d = None ->
  inROI_all ImmutableBySpec loads d es = (replicate (length es) false, d, loads).
Proof.
  intros Hs Hc Hi. induction es as [|e es IH]; [reflexivity|].
  cbn [inROI_all]. rewrite inROI_checked_nil by assumption. now rewrite IH.
Qed.

(** C10.  Without a static ROI every position is inside and nothing is
    loaded.  With a static ROI whose load fails on first use, the first
    call and every later call answer false, and over any non-empty
    sequence of calls [roi.ImmutableBySpec] is called exactly once. *)
Theorem inROI_load_attempted_once
    (ImmutableBySpec : nat -> string -> Result error (option Immutable))
    (loads : nat) (d : Data) :
  (StaticROI d = "" ->
     forall e, inROI ImmutableBySpec loads d e = (true, d, loads))
  /\ (StaticROI d <> "" -> roiChecked d = false -> iROI d = None ->
      (exists err, ImmutableBySpec loads (StaticROI d) = Err err) ->
      forall e es,
        exists d',
          inROI_all ImmutableBySpec loads d (e :: es) =
            (replicate (S (length es)) false, d', S loads)
          /\ roiChecked d' = true /\ iROI d' = None).
Proof.
  split.
  - intros Hs e. unfold inROI. now rewrite Hs.
  - intros Hs Hc Hi [err Herr] e es.
    assert (Hneq : String.eqb (StaticROI d) "" = false) by (now apply String.eqb_neq).
    exists (mkData (StaticROI d) (GetOrderedKeyValueDB d) (iROI d) true).
    cbn [inROI_all]. unfold inROI at 1. rewrite Hneq, Hc. cbn [negb]. rewrite Herr.
    rewrite inROI_all_checked_nil by (cbn [StaticROI roiChecked iROI]; auto).
    repeat split; try reflexivity. exact Hi.
Qed.

End Scans.

(** *** Worked examples *)

Lemma ascendingb_sound (ks : list TKey) :
  ascendingb ks = true -> StronglySorted bytes_lt ks.
Proof.
  induction ks as [|k ks IH]; cbn [ascendingb]; intros H; [constructor|].
  apply andb_prop in H as [Hk Hs]. constructor; [auto|].
  rewrite List.Forall_forall. intros k' Hin.
  rewrite forallb_forall in Hk. specialize (Hk k' Hin). unfold bytes_lt.
  now destruct (bytes_compare k k').
Qed.

Example top_two_of_example :
  GetTopElementType example_data 2 example_index =
    Some (Ok [mkLabelSize 7 3; mkLabelSize 42 2]).
Proof. vm_compute. reflexivity. Qed.

Example count_of_example :
  GetCountElementType example_data 42 example_index = Ok 2.
Proof. vm_compute. reflexivity. Qed.


Lemma top_is_first_N_of_threshold_witness :
  GetTopElementType example_data 1 example_index =
    GetLabelsByThreshold example_data example_index 0 0 1
  /\ forall l, GetLabelsByThreshold example_data example_index 0 0 1 = Some (Ok l) ->
       GetTopElementType example_data 1 example_index = Some (Ok (take (Z.to_nat 1) l)).
Proof.
  apply (top_is_first_N_of_threshold example_data 1 example_index).
  int_lia.
Defined.

Lemma max_count_label_not_returned_witness :
  begTKey example_index = NewTypeSizeLabelTKey example_index (2 ^ 32 - 2) 0
  /\ (forall c, K c = NewTypeSizeLabelTKey example_index MaxUint32 9 ->
        in_range (begTKey example_index) (endTKey example_index) c = false)
  /\ (forall top, GetTopElementType saturated_data 5 example_index = Some (Ok top) ->
        ~ In 9 (Label <$> top))
  /\ (forall lsz0, GetLabelsByThreshold saturated_data example_index 1 0 5 = Some (Ok lsz0) ->
        ~ In 9 (Label <$> lsz0)).
Proof.
  apply (max_count_label_not_returned saturated_data saturated_store example_index 9 5 1 0 5).
  - reflexivity.
  - int_lia.
  - int_lia.
  - unfold MaxUint64. lia.
  - left. reflexivity.
  - intros c sz [<-|[<-|[]]]; vm_compute; congruence.
Defined.

Example saturated_label_is_skipped :
  GetTopElementType saturated_data 5 example_index = Some (Ok [mkLabelSize 7 3])
  /\ GetLabelsByThreshold saturated_data example_index 1 0 5 = Some (Ok [mkLabelSize 7 3]).
Proof. vm_compute. split; reflexivity. Qed.

Lemma inROI_load_attempted_once_witness :
  exists d',
    inROI_all failing_ImmutableBySpec 0 roi_data
      [mkElementPos (1, 2, 3); mkElementPos (4, 5, 6); mkElementPos (7, 8, 9)] =
      (replicate 3 false, d', 1%nat)
    /\ roiChecked d' = true /\ iROI d' = None.
Proof.
  apply (proj2 (inROI_load_attempted_once failing_ImmutableBySpec 0 roi_data)).
  - discriminate.
  - reflexivity.
  - reflexivity.
  - exists ErrNoStore. reflexivity.
Defined.

Lemma GetCountElementType_cases_witness :
  GetCountElementType example_data 42 example_index = Ok 2
  /\ GetCountElementType example_data 5 example_index = Ok 0.
Proof.
  split.
  - destruct (GetCountElementType_cases example_data example_store 42 example_index
                (Some (le_encode 4 2)) eq_refl eq_refl) as (_ & _ & _ & H).
    rewrite (H _ _ _ _ eq_refl). reflexivity.
  - destruct (GetCountElementType_cases example_data example_store 5 example_index
                None eq_refl eq_refl) as (H & _). exact (H eq_refl).
Defined.

Lemma qualifying_all minSize es :
  Forall (fun x => minSize <= Size x) es -> qualifying minSize es = es.
Proof.
  induction 1 as [|x es Hx _ IH]; cbn [qualifying]; [reflexivity|].
  destruct (Z.ltb_spec (Size x) minSize); [lia|]. now rewrite IH.
Qed.

Lemma labelsz_key_size_key i sz label :
  labelsz_key (NewTypeSizeLabelTKey i sz label) = true.
Proof.
  rewrite size_key_shape. cbn [labelsz_key length].
  rewrite length_app, !length_be_encode. reflexivity.
Qed.

(** A size key of a count up to 2^32 - 2 lies inside the span. *)
Lemma in_range_size_key i sz label v :
  0 <= sz <= MaxUint32 - 1 -> 0 <= label <= MaxUint64 ->
  in_range (begTKey i) (endTKey i) (mkChunk (NewTypeSizeLabelTKey i sz label) v) = true.
Proof.
  unfold MaxUint32, MaxUint64. intros Hs Hl.
  unfold in_range. cbn [K].
  rewrite size_key_shape, begTKey_shape, endTKey_shape.
  unfold uint32, uint64, MaxUint32, MaxUint64.
  rewrite (Z.mod_small sz), (Z.mod_small (2 ^ 32 - 1 - sz)), (Z.mod_small label) by lia.
  unfold bytes_leb. cbn [bytes_compare]. rewrite !Z.compare_refl.
  rewrite !bytes_compare_app_eqlen by (now rewrite !length_be_encode).
  rewrite !bytes_compare_be by (now rewrite !length_be_encode).
  rewrite !be_decode_encode.
  change (2 ^ (8 * Z.of_nat 4)) with (2 ^ 32).
  change (2 ^ (8 * Z.of_nat 8)) with (2 ^ 64).
  rewrite !Z.mod_small by lia.
  destruct (Z.compare_spec 1 (2 ^ 32 - 1 - sz)); try lia;
    destruct (Z.compare_spec (2 ^ 32 - 1 - sz) (2 ^ 32 - 1)); try lia;
    destruct (Z.compare_spec 0 label); try lia;
    destruct (Z.compare_spec label (2 ^ 64 - 1)); try lia; reflexivity.
Qed.

Lemma crowded_span :
  span example_index crowded_store = db_kvs crowded_store
  /\ length (db_kvs crowded_store) = Z.to_nat 10001
  /\ labelsz_store crowded_store
  /\ Forall (fun c => DecodeTypeSizeLabelTKey (K c) = Ok (example_index, 1, be_decode (drop 6 (K c))))
       (db_kvs crowded_store).
Proof.
  unfold labelsz_store, span, crowded_store. cbn [db_kvs].
  assert (Hseq : Forall (fun n => (n < Z.to_nat 10001)%nat) (seq 0 (Z.to_nat 10001))).
  { apply List.Forall_forall. intros n Hn. apply in_seq in Hn. lia. }
  split; [|split; [|split]].
  - induction Hseq as [|n ns Hn _ IH]; [reflexivity|]. cbn [List.map List.filter].
    rewrite in_range_size_key by int_lia. now rewrite IH.
  - now rewrite length_map, length_seq.
  - induction Hseq as [|n ns Hn _ IH]; cbn [List.map]; constructor; [|exact IH].
    apply labelsz_key_size_key.
  - induction Hseq as [|n ns Hn _ IH]; cbn [List.map]; constructor; [|exact IH].
    cbn [K]. rewrite Decode_New by int_lia.
    do 3 f_equal. rewrite size_key_shape. cbn [drop].
    rewrite drop_app_length' by (now rewrite length_be_encode).
    rewrite be_decode_encode. unfold uint64.
    change (2 ^ (8 * Z.of_nat 8)) with (2 ^ 64).
    rewrite Z.mod_mod by lia. rewrite Z.mod_small by lia. reflexivity.
Qed.

(** C1 (the cap).  Asked for 10,001 labels over an index that holds
    10,001 of them, [GetLabelsByThreshold] returns all 10,001: more than
    [MaxLabelsReturned]. *)
Theorem GetLabelsByThreshold_exceeds_MaxLabelsReturned :
  returned (GetLabelsByThreshold crowded_data example_index 1 0 10001) = 10001
  /\ MaxLabelsReturned < 10001.
Proof.
  split; [|reflexivity].
  destruct crowded_span as (Hspan & Hlen & Hkeys & Hdec).
  destruct (GetLabelsByThreshold_behaviour crowded_data crowded_store example_index 1 0 10001
              eq_refl eq_refl Hkeys) as (es & HF & ->).
  - lia.
  - lia.
  - unfold MaxLabelsReturned, MaxInt. cbn. lia.
  - rewrite Hspan, Hlen. int_lia.
  - eexists. apply makeslice_granted; vm_compute; discriminate.
  - cbn [returned]. rewrite Hspan in HF.
    pose proof (Forall2_length _ _ _ HF) as Hes. rewrite Hlen in Hes.
    assert (Hall : Forall (fun x => 1 <= Size x) es).
    { clear Hes Hlen Hspan. revert Hdec.
      induction HF as [|c x cs es Hx _ IH]; intros Hdec; [constructor|].
      apply Forall_cons in Hdec as [Hc Hdec]. constructor; [|now apply IH].
      rewrite Hc in Hx. injection Hx as <- _. lia. }
    rewrite (qualifying_all 1 es Hall), drop_0.
    change (10001 =? 0) with false. cbv iota.
    rewrite length_take. lia.
Qed.

(** *** Where the scans can panic *)

Section Outcomes.

Context {machine : Machine}.

Lemma process_chunks_total {S : Type} (J Jend : S -> Prop)
    (f : Chunk -> S -> Go (S * option error)) cs :
  (forall c s, J s ->
     exists s' e, f c s = Some (s', e) /\ match e with None => J s' | Some _ => Jend s' end) ->
  (forall s, J s -> Jend s) ->
  forall st, J st -> exists st' e, process_chunks f cs st = Some (st', e) /\ Jend st'.
Proof.
  intros Hf Hw. induction cs as [|c cs IH]; intros st Hst; cbn [process_chunks].
  - eauto.
  - destruct (Hf c st Hst) as (s' & [e|] & -> & Hs'); eauto.
Qed.

Lemma top_visitor_total i n c s :
  n <= MaxInt -> Z.of_nat (length (lsz s)) = n -> 0 <= rank s < n ->
  exists s' e,
    top_visitor i n c s = Some (s', e)
    /\ match e with
       | None => Z.of_nat (length (lsz s')) = n /\ 0 <= rank s' < n
       | Some _ => Z.of_nat (length (lsz s')) = n /\ 0 <= rank s' <= n
       end.
Proof.
  intros Hn Hl Hr. unfold top_visitor.
  destruct (DecodeTypeSizeLabelTKey (K c)) as [[[idx sz] label]|e].
  2:{ eexists _, _. split; [reflexivity|]. cbn. lia. }
  destruct (negb (Byte.eqb idx i)).
  { eexists _, _. split; [reflexivity|]. cbn. lia. }
  rewrite slice_set_in by lia. cbn [rank lsz].
  rewrite wrap_int_small by int_lia. rewrite Z.geb_leb.
  destruct (Z.leb_spec n (rank s + 1)); eexists _, _; (split; [reflexivity|]);
    cbn [lsz rank]; rewrite length_insert; lia.
Qed.

Lemma threshold_visitor_total i minSize offset nReturns c s :
  nReturns <= MaxInt -> Z.of_nat (length (lsz s)) = nReturns -> 0 <= saved s < nReturns ->
  exists s' e,
    threshold_visitor i minSize offset nReturns c s = Some (s', e)
    /\ match e with
       | None => Z.of_nat (length (lsz s')) = nReturns /\ 0 <= saved s' < nReturns
       | Some _ => Z.of_nat (length (lsz s')) = nReturns /\ 0 <= saved s' <= nReturns
       end.
Proof.
  intros Hn Hl Hr. unfold threshold_visitor.
  destruct (DecodeTypeSizeLabelTKey (K c)) as [[[idx sz] label]|e].
  2:{ eexists _, _. split; [reflexivity|]. cbn. lia. }
  destruct (negb (Byte.eqb idx i)).
  { eexists _, _. split; [reflexivity|]. cbn. lia. }
  destruct (sz <? minSize).
  { eexists _, _. split; [reflexivity|]. cbn. lia. }
  destruct (_ && _).
  2:{ eexists _, _. split; [reflexivity|]. cbn. lia. }
  rewrite slice_set_in by lia. cbn [rank lsz saved].
  rewrite (wrap_int_small (saved s + 1)) by int_lia.
  destruct (Z.eqb_spec (saved s + 1) nReturns); eexists _, _; (split; [reflexivity|]);
    cbn [lsz saved]; rewrite length_insert; lia.
Qed.

(** X16.  The scans panic in [make] and nowhere else: for every store
    content, every index type and every value of its [int] arguments,
    [GetTopElementType] and [GetLabelsByThreshold] return a list or an
    error unless the result slice cannot be allocated; the index of each
    write into the result slice and the bound of the final slice
    expression are always in range.  The slice cannot be allocated when
    it would take more than [maxAlloc] bytes or more than the machine
    grants. *)
Theorem scans_panic_only_in_make (d : Data) (i : IndexType) (n minSize offset num : Z) :
  (GetTopElementType d n i = None <->
     1 <= n /\ (exists store, GetOrderedKeyValueDB d = Ok store) /\ make n = None)
  /\ (GetLabelsByThreshold d i minSize offset num = None <->
        0 <= num /\ (exists store, GetOrderedKeyValueDB d = Ok store)
        /\ make (if num =? 0 then MaxLabelsReturned else num) = None)
  /\ (make n = None <-> n < 0 \/ Z.min maxAlloc heap < n * sizeof_LabelSize).
Proof.
  split; [|split].
  - unfold GetTopElementType.
    destruct (Z.ltb_spec n 0). { split; [discriminate|lia]. }
    destruct (Z.eqb_spec n 0). { split; [discriminate|lia]. }
    destruct (GetOrderedKeyValueDB d) as [store|e].
    2:{ split; [discriminate|]. intros (_ & [s Hs] & _). discriminate. }
    destruct (make n) as [l0|] eqn:Hmk.
    2:{ split; [|reflexivity]. intros _. split; [lia|]. split; [eauto|reflexivity]. }
    split; [|intros (_ & _ & H1); discriminate].
    pose proof (length_make n l0 Hmk) as Hlm.
    destruct (make_inv n l0 Hmk) as [_ Hn].
    unfold ProcessRange. destruct (db_broken store); [cbn; discriminate|].
    destruct (process_chunks_total
                (fun s => Z.of_nat (length (lsz s)) = n /\ 0 <= rank s < n)
                (fun s => Z.of_nat (length (lsz s)) = n /\ 0 <= rank s <= n)
                (top_visitor i n)
                (List.filter (in_range (begTKey i) (endTKey i)) (db_kvs store)))
      with (st := mkScan l0 0 0) as (st' & e & -> & Hl & Hr).
    + intros c s [Hl Hr]. apply top_visitor_total; [lia|assumption|assumption].
    + intros s [Hl Hr]. split; [assumption|lia].
    + cbn [lsz rank]. lia.
    + rewrite slice_to_in by lia.
      destruct e as [e|]; [destruct (is_shortCircuit e)|]; cbn; discriminate.
  - unfold GetLabelsByThreshold. destruct (Z.ltb_spec num 0). { split; [discriminate|lia]. }
    set (nReturns := if num =? 0 then MaxLabelsReturned else num).
    assert (HnR : 1 <= nReturns).
    { unfold nReturns, MaxLabelsReturned. destruct (Z.eqb_spec num 0); lia. }
    destruct (GetOrderedKeyValueDB d) as [store|e].
    2:{ split; [discriminate|]. intros (_ & [s Hs] & _). discriminate. }
    destruct (make nReturns) as [l0|] eqn:Hmk.
    2:{ split; [|reflexivity]. intros _. split; [lia|]. split; [eauto|reflexivity]. }
    split; [|intros (_ & _ & H1); discriminate].
    pose proof (length_make nReturns l0 Hmk) as Hlm.
    destruct (make_inv nReturns l0 Hmk) as [_ Hmax].
    unfold ProcessRange. destruct (db_broken store); [cbn; discriminate|].
    destruct (process_chunks_total
                (fun s => Z.of_nat (length (lsz s)) = nReturns /\ 0 <= saved s < nReturns)
                (fun s => Z.of_nat (length (lsz s)) = nReturns /\ 0 <= saved s <= nReturns)
                (threshold_visitor i minSize offset nReturns)
                (List.filter (in_range (begTKey i) (endTKey i)) (db_kvs store)))
      with (st := mkScan l0 0 0) as (st' & e & -> & Hl & Hr).
    + intros c s [Hl Hr]. apply threshold_visitor_total; [lia|assumption|assumption].
    + intros s [Hl Hr]. split; [assumption|lia].
    + cbn [lsz saved]. lia.
    + rewrite slice_to_in by lia.
      destruct e as [e|]; [destruct (is_shortCircuit e)|]; cbn; discriminate.
  - unfold make. rewrite makeslice_None. lia.
Qed.

(** *** The answers of a threshold query *)

Lemma qualifying_Forall minSize es :
  Forall (fun x => minSize <= Size x) (qualifying minSize es).
Proof.
  induction es as [|x es IH]; cbn [qualifying]; [constructor|].
  destruct (Z.ltb_spec (Size x) minSize); constructor; [lia|assumption].
Qed.

Lemma qualifying_prefix minSize es : exists k, qualifying minSize es = take k es.
Proof.
  induction es as [|x es [k IH]]; cbn [qualifying]; [now exists 0%nat|].
  destruct (Size x <? minSize); [now exists 0%nat|]. exists (S k). cbn. now rewrite IH.
Qed.

Lemma StronglySorted_drop {A} (R : A -> A -> Prop) (l : list A) n :
  StronglySorted R l -> StronglySorted R (drop n l).
Proof.
  intros H. rewrite <- (take_drop n l) in H. now apply StronglySorted_app_1_r in H.
Qed.

Lemma decoded_unique i cs es1 es2 :
  Forall2 (fun c x => DecodeTypeSizeLabelTKey (K c) = Ok (i, Size x, Label x)) cs es1 ->
  Forall2 (fun c x => DecodeTypeSizeLabelTKey (K c) = Ok (i, Size x, Label x)) cs es2 ->
  es1 = es2.
Proof.
  intros H1. revert es2. induction H1 as [|c x cs es1 Hx _ IH]; intros es2 H2.
  - now apply Forall2_nil_inv_l in H2.
  - apply Forall2_cons_inv_l in H2 as (y & es2' & Hy & H2 & ->).
    rewrite (IH _ H2). f_equal. rewrite Hx in Hy. injection Hy as Hs Hl.
    destruct x, y. cbn in *. congruence.
Qed.

(** X17.  On an ascending store of labelsz keys a threshold query
    whose result slice the runtime allocates returns a list in which
    every count is at least [minSize], which is in rank order (larger
    count first, equal counts by ascending label), and of which every
    entry is the decoding of a size key that is in the store. *)
Theorem GetLabelsByThreshold_ranked (d : Data) (store : OrderedKeyValueDB)
    (i : IndexType) (minSize offset num : Z) :
  GetOrderedKeyValueDB d = Ok store -> db_broken store = false ->
  ascending store -> labelsz_store store ->
  0 <= offset -> 0 <= num ->
  offset + (if num =? 0 then MaxLabelsReturned else num) <= MaxInt ->
  Z.of_nat (length (span i store)) <= MaxInt ->
  is_Some (make (if num =? 0 then MaxLabelsReturned else num)) ->
  exists l : LabelSizes,
    GetLabelsByThreshold d i minSize offset num = Some (Ok l)
    /\ Forall (fun x => minSize <= Size x) l
    /\ StronglySorted ranked_before l
    /\ forall x, In x l ->
         exists c, In c (db_kvs store) /\ K c = NewTypeSizeLabelTKey i (Size x) (Label x).
Proof.
  intros Hd Hb Hasc Hkeys Ho Hnum Hsum Hlen Hmk.
  destruct (GetLabelsByThreshold_behaviour d store i minSize offset num)
    as (es & Hes & Hres); try assumption.
  eexists. split; [exact Hres|].
  assert (Hranked : StronglySorted ranked_before es).
  { apply (entries_ranked i (span i store)).
    - eapply Forall2_impl; [exact Hes|]. intros c x Hx. now apply entry_Ok.
    - now apply StronglySorted_span. }
  destruct (qualifying_prefix minSize es) as [k Hk].
  split; [|split].
  - apply Forall_take, Forall_drop, qualifying_Forall.
  - apply StronglySorted_take, StronglySorted_drop. rewrite Hk.
    now apply StronglySorted_take.
  - intros x Hx. apply list_elem_of_In in Hx.
    apply (subseteq_take _ _ x) in Hx. apply (subseteq_drop _ _ x) in Hx.
    rewrite Hk in Hx. apply (subseteq_take _ _ x) in Hx.
    apply list_elem_of_lookup in Hx as [j Hj].
    destruct (Forall2_lookup_r _ _ _ _ _ Hes Hj) as (c & Hc & Hdec).
    exists c. split.
    + apply (span_In i). apply list_elem_of_In. now apply list_elem_of_lookup_2 in Hc.
    + now apply New_Decode.
Qed.

(** X18.  Pages of a threshold query fit together: on a store of
    labelsz keys, the page of [a] labels from rank [offset] followed by
    the page of [b] labels from rank [offset + a] is the page of [a + b]
    labels from rank [offset], as long as the runtime allocates the
    result slice of the joint page (and with it those of the two
    pages). *)
Theorem threshold_pages_compose (d : Data) (store : OrderedKeyValueDB)
    (i : IndexType) (minSize offset a b : Z) :
  GetOrderedKeyValueDB d = Ok store -> db_broken store = false ->
  labelsz_store store ->
  0 <= offset -> 1 <= a -> 1 <= b -> offset + a + b <= MaxInt ->
  Z.of_nat (length (span i store)) <= MaxInt ->
  is_Some (make (a + b)) ->
  exists l1 l2 : LabelSizes,
    GetLabelsByThreshold d i minSize offset a = Some (Ok l1)
    /\ GetLabelsByThreshold d i minSize (offset + a) b = Some (Ok l2)
    /\ GetLabelsByThreshold d i minSize offset (a + b) = Some (Ok (l1 ++ l2)).
Proof.
  intros Hd Hb Hkeys Ho Ha Hbb Hsum Hlen Hmk.
  destruct (GetLabelsByThreshold_behaviour d store i minSize offset a)
    as (es & Hes & H1); try assumption; try lia.
  { destruct (Z.eqb_spec a 0); lia. }
  { destruct (Z.eqb_spec a 0); [lia|]. apply (make_mono a (a + b)); [lia|assumption]. }
  destruct (GetLabelsByThreshold_behaviour d store i minSize (offset + a) b)
    as (es2 & Hes2 & H2); try assumption; try lia.
  { destruct (Z.eqb_spec b 0); lia. }
  { destruct (Z.eqb_spec b 0); [lia|]. apply (make_mono b (a + b)); [lia|assumption]. }
  destruct (GetLabelsByThreshold_behaviour d store i minSize offset (a + b))
    as (es3 & Hes3 & H3); try assumption; try lia.
  { destruct (Z.eqb_spec (a + b) 0); lia. }
  { destruct (Z.eqb_spec (a + b) 0); [lia|assumption]. }
  rewrite (decoded_unique _ _ _ _ Hes2 Hes) in H2.
  rewrite (decoded_unique _ _ _ _ Hes3 Hes) in H3.
  destruct (Z.eqb_spec a 0); [lia|]. destruct (Z.eqb_spec b 0); [lia|].
  destruct (Z.eqb_spec (a + b) 0); [lia|].
  eexists _, _. split; [exact H1|]. split; [exact H2|]. rewrite H3. do 2 f_equal.
  rewrite !Z2Nat.inj_add by lia. rewrite <- drop_drop. symmetry. apply take_take_drop.
Qed.

(** *** The sort interface *)

Lemma StronglySorted_lookup_lt {A} (R : A -> A -> Prop) (l : list A) (i j : nat) a b :
  StronglySorted R l -> l !! i = Some a -> l !! j = Some b -> (i < j)%nat -> R a b.
Proof.
  intros Hs Ha Hb Hij. rewrite <- (take_drop j l) in Hs.
  apply (StronglySorted_app_1_elem_of R _ _ a b Hs).
  - apply list_elem_of_lookup. exists i. now rewrite lookup_take_lt.
  - apply list_elem_of_lookup. exists 0%nat. rewrite lookup_drop. now rewrite Nat.add_0_r.
Qed.

Lemma slice_get_Some (s : LabelSizes) i x :
  slice_get s i = Some x <-> 0 <= i /\ s !! Z.to_nat i = Some x.
Proof.
  unfold slice_get. destruct (Z.leb_spec 0 i) as [Hi|Hi]; cbn [andb].
  - destruct (Z.ltb_spec i (Z.of_nat (length s))) as [Hlt|Hge].
    + split; [auto|]. now intros [_ Hx].
    + split; [discriminate|]. intros [_ Hx]. apply lookup_lt_Some in Hx. lia.
  - split; [discriminate|]. lia.
Qed.

(** X19.  [LabelSizes] meets the contract of Go's [sort.Interface]:
    with both indices in range [Swap] exchanges the two elements and
    nothing else, so it keeps the length and the multiset of entries and
    undoes itself; [Less] compares the sizes alone and is a strict order
    on them; with an index out of range both panic.  On a list in rank
    order [Less] is false for every pair of an earlier and a later
    index. *)
Theorem LabelSizes_sort_interface (s : LabelSizes) (i j : Z) :
  (0 <= i < Len s -> 0 <= j < Len s ->
   exists a b s',
     s !! Z.to_nat i = Some a /\ s !! Z.to_nat j = Some b
     /\ Less s i j = Some (Size a <? Size b)
     /\ Swap s i j = Some s'
     /\ Len s' = Len s /\ s' ≡ₚ s
     /\ s' !! Z.to_nat i = Some b /\ s' !! Z.to_nat j = Some a
     /\ (forall k, k <> Z.to_nat i -> k <> Z.to_nat j -> s' !! k = s !! k)
     /\ Swap s' i j = Some s)
  /\ (~ (0 <= i < Len s /\ 0 <= j < Len s) -> Less s i j = None /\ Swap s i j = None)
  /\ Less s i i <> Some true
  /\ (forall k, Less s i j = Some true -> Less s j k = Some true -> Less s i k = Some true)
  /\ (StronglySorted ranked_before s -> 0 <= i < j -> j < Len s -> Less s i j = Some false).
Proof.
  unfold Len. split; [|split; [|split; [|split]]].
  - intros Hi Hj.
    destruct (lookup_lt_is_Some_2 s (Z.to_nat i)) as [a Ha]; [lia|].
    destruct (lookup_lt_is_Some_2 s (Z.to_nat j)) as [b Hb]; [lia|].
    assert (Hgi : slice_get s i = Some a) by (apply slice_get_Some; split; [lia|assumption]).
    assert (Hgj : slice_get s j = Some b) by (apply slice_get_Some; split; [lia|assumption]).
    set (s' := <[Z.to_nat j := a]> (<[Z.to_nat i := b]> s)).
    assert (Hlen : length s' = length s) by (unfold s'; now rewrite !length_insert).
    assert (Hi' : s' !! Z.to_nat i = Some b).
    { unfold s'. destruct (decide (Z.to_nat j = Z.to_nat i)) as [E|E].
      - rewrite E, list_lookup_insert_eq by (rewrite length_insert; lia).
        rewrite E in Hb. congruence.
      - rewrite list_lookup_insert_ne by assumption.
        apply list_lookup_insert_eq. lia. }
    assert (Hj' : s' !! Z.to_nat j = Some a).
    { unfold s'. apply list_lookup_insert_eq. rewrite length_insert. lia. }
    assert (Hother : forall k, k <> Z.to_nat i -> k <> Z.to_nat j -> s' !! k = s !! k).
    { intros k Hki Hkj. unfold s'. now rewrite !list_lookup_insert_ne by congruence. }
    exists a, b, s'. unfold Less, Swap. rewrite Hgi, Hgj.
    repeat split; try assumption; try reflexivity.
    + now rewrite Hlen.
    + unfold s'. now apply Permutation_insert_swap.
    + assert (Hgi' : slice_get s' i = Some b)
        by (apply slice_get_Some; split; [lia|assumption]).
      assert (Hgj' : slice_get s' j = Some a)
        by (apply slice_get_Some; split; [lia|assumption]).
      rewrite Hgi', Hgj'. f_equal. apply list_eq. intros k.
      destruct (decide (k = Z.to_nat j)) as [->|Hkj].
      { rewrite list_lookup_insert_eq by (rewrite length_insert; lia). now symmetry. }
      rewrite list_lookup_insert_ne by congruence.
      destruct (decide (k = Z.to_nat i)) as [->|Hki].
      { rewrite list_lookup_insert_eq by lia. now symmetry. }
      rewrite list_lookup_insert_ne by congruence. now apply Hother.
  - intros Hout. unfold Less, Swap.
    destruct (slice_get s i) as [a|] eqn:Ei; [|now split].
    destruct (slice_get s j) as [b|] eqn:Ej; [|now split].
    exfalso. apply Hout.
    apply slice_get_Some in Ei as [Hi Ei]. apply slice_get_Some in Ej as [Hj Ej].
    apply lookup_lt_Some in Ei, Ej. lia.
  - unfold Less. destruct (slice_get s i) as [a|]; [|discriminate].
    rewrite Z.ltb_irrefl. discriminate.
  - intros k. unfold Less.
    destruct (slice_get s i) as [a|]; [|discriminate].
    destruct (slice_get s j) as [b|]; [|discriminate].
    destruct (slice_get s k) as [c|]; [|discriminate].
    intros H1 H2. injection H1 as H1. injection H2 as H2. f_equal. lia.
  - intros Hs Hij Hj.
    destruct (lookup_lt_is_Some_2 s (Z.to_nat i)) as [a Ha]; [lia|].
    destruct (lookup_lt_is_Some_2 s (Z.to_nat j)) as [b Hb]; [lia|].
    assert (Hgi : slice_get s i = Some a) by (apply slice_get_Some; split; [lia|assumption]).
    assert (Hgj : slice_get s j = Some b) by (apply slice_get_Some; split; [lia|assumption]).
    unfold Less. rewrite Hgi, Hgj. f_equal.
    assert (Hr : ranked_before a b).
    { apply (StronglySorted_lookup_lt ranked_before s (Z.to_nat i) (Z.to_nat j));
        try assumption. lia. }
    destruct Hr as [Hr|[Hr _]]; lia.
Qed.

(** *** The region of interest once it is loaded *)

Lemma inROI_checked ImmutableBySpec loads d e :
  String.eqb (StaticROI d) "" = false -> roiChecked d = true ->
  inROI ImmutableBySpec loads d e =
    (match iROI d with Some r => VoxelWithin r (Pos e) | None => false end, d, loads).
Proof.
  intros Hs Hc. unfold inROI. rewrite Hs, Hc. cbn [negb]. now destruct (iROI d).
Qed.

Lemma inROI_all_checked ImmutableBySpec loads d es :
  String.eqb (StaticROI d) "" = false -> roiChecked d = true ->
  inROI_all ImmutableBySpec loads d es =
    ((fun e => match iROI d with Some r => VoxelWithin r (Pos e) | None => false end) <$> es,
     d, loads).
Proof.
  intros Hs Hc. induction es as [|e es IH]; cbn [inROI_all]; [reflexivity|].
  now rewrite inROI_checked, IH.
Qed.

(** X20.  When the first load of the static ROI succeeds, [inROI]
    keeps what was loaded: over any run of calls on the instance the
    loader is called once, and every call, the first included, answers
    whether the element's position lies within the loaded ROI (false for
    all when the loader returned no ROI). *)
Theorem inROI_answers_from_loaded_roi
    (ImmutableBySpec : nat -> string -> Result error (option Immutable))
    (loads : nat) (d : Data) (r : option Immutable) (e : ElementPos) (es : list ElementPos) :
  StaticROI d <> "" -> roiChecked d = false ->
  ImmutableBySpec loads (StaticROI d) = Ok r ->
  exists d',
    inROI_all ImmutableBySpec loads d (e :: es) =
      ((fun e0 => match r with Some roi => VoxelWithin roi (Pos e0) | None => false end)
         <$> (e :: es), d', S loads)
    /\ roiChecked d' = true /\ iROI d' = r /\ StaticROI d' = StaticROI d.
Proof.
  intros Hs Hc Hload. apply String.eqb_neq in Hs.
  exists (mkData (StaticROI d) (GetOrderedKeyValueDB d) r true).
  cbn [inROI_all]. unfold inROI at 1. rewrite Hs, Hc, Hload. cbn [negb iROI].
  destruct r as [roi|];
    rewrite inROI_all_checked by (cbn; first [assumption|reflexivity]); cbn [iROI];
    repeat split.
Qed.

(** *** Asking for more labels *)

Lemma GetTopElementType_behaviour (d : Data) (store : OrderedKeyValueDB)
    (n : Z) (i : IndexType) :
  GetOrderedKeyValueDB d = Ok store -> db_broken store = false ->
  labelsz_store store -> 1 <= n -> is_Some (make n) ->
  exists es,
    Forall2 (fun c x => DecodeTypeSizeLabelTKey (K c) = Ok (i, Size x, Label x))
      (span i store) es
    /\ GetTopElementType d n i = Some (Ok (take (Z.to_nat n) es)).
Proof.
  intros Hd Hb Hkeys Hn [lsz0 Hmk].
  pose proof (length_make n lsz0 Hmk) as Hlm.
  destruct (make_inv n lsz0 Hmk) as [_ Hmax].
  destruct (span_entries i store Hkeys) as [es Hes]. exists es.
  pose proof (Forall2_length _ _ _ Hes) as Hlen.
  split.
  { eapply Forall2_impl; [exact Hes|]. intros c x Hx. now apply entry_Ok. }
  unfold GetTopElementType.
  destruct (Z.ltb_spec n 0); [lia|]. destruct (Z.eqb_spec n 0); [lia|].
  rewrite Hd, Hmk. unfold ProcessRange. rewrite Hb. fold (span i store).
  destruct (top_scan_ok i n _ _ Hes (mkScan lsz0 0 0)) as (l' & Hp & Hl & Ht);
    cbn [rank lsz]; try lia.
  rewrite Hp. cbn [rank lsz saved] in *. rewrite Z.sub_0_r, Z.add_0_l in *.
  rewrite take_0 in Ht. cbn [app] in Ht.
  assert (Hs : slice_to l' (Z.min (Z.of_nat (length es)) n) = Some (take (Z.to_nat n) es)).
  { rewrite slice_to_in by (rewrite Hl; lia). now rewrite Ht. }
  destruct (n <=? Z.of_nat (length (span i store))); cbn [is_shortCircuit];
    rewrite Hs; reflexivity.
Qed.

(** X24.  Asking [GetTopElementType] for more labels only adds
    labels at the end: on a store of labelsz keys the answer for [n] is
    the first [n] entries of the answer for any larger [m] whose result
    slice the runtime allocates. *)
Theorem top_prefix_stable (d : Data) (store : OrderedKeyValueDB)
    (i : IndexType) (n m : Z) :
  GetOrderedKeyValueDB d = Ok store -> db_broken store = false ->
  labelsz_store store -> 1 <= n -> n <= m -> is_Some (make m) ->
  exists l : LabelSizes,
    GetTopElementType d m i = Some (Ok l)
    /\ GetTopElementType d n i = Some (Ok (take (Z.to_nat n) l)).
Proof.
  intros Hd Hb Hkeys Hn Hnm Hm.
  destruct (GetTopElementType_behaviour d store m i) as (es & Hes & Hm'); try assumption;
    [lia|].
  destruct (GetTopElementType_behaviour d store n i) as (es' & Hes' & Hn'); try assumption.
  { apply (make_mono n m); [lia|assumption]. }
  rewrite (decoded_unique _ _ _ _ Hes' Hes) in Hn'.
  eexists. split; [exact Hm'|]. rewrite Hn', take_take. do 3 f_equal. lia.
Qed.

(** *** Keys that do not decode *)

Lemma entry_Err_not_shortCircuit i c e : entry i c = Err e -> is_shortCircuit e = false.
Proof.
  unfold entry, DecodeTypeSizeLabelTKey.
  destruct (K c) as [|class [|idx ibytes]]; try (intros H; injection H as <-; reflexivity).
  destruct (negb (Byte.eqb class keyTypeSizeLabel));
    [intros H; injection H as <-; reflexivity|].
  destruct (negb (Nat.eqb (length ibytes) 12));
    [intros H; injection H as <-; reflexivity|].
  destruct (negb (Byte.eqb idx i)); [|discriminate].
  intros H; injection H as <-; reflexivity.
Qed.

Lemma top_visitor_Err i n c e st :
  entry i c = Err e -> top_visitor i n c st = Some (st, Some e).
Proof.
  unfold entry, top_visitor.
  destruct (DecodeTypeSizeLabelTKey (K c)) as [[[idx sz] label]|e0].
  - destruct (negb (Byte.eqb idx i)); [|discriminate]. intros H. now injection H as <-.
  - intros H. now injection H as <-.
Qed.

Lemma Forall_entries i cs :
  Forall (fun c => exists x, entry i c = Ok x) cs ->
  exists es, Forall2 (fun c x => entry i c = Ok x) cs es.
Proof.
  induction 1 as [|c cs [x Hx] _ [es IH]]; [now exists []|].
  exists (x :: es). now constructor.
Qed.

(** X27.  Once the result slice is allocated, a key of the span that
    does not decode as a size key of the index type ends
    [GetTopElementType] with the decoding error when it comes among the
    first [n] keys, and the labels collected before it are not returned;
    when at least [n] well-formed keys come before it, the scan stops
    short of it and the answer is their first [n] entries. *)
Theorem GetTopElementType_bad_key (d : Data) (store : OrderedKeyValueDB) (i : IndexType)
    (n : Z) (pre post : list Chunk) (c : Chunk) (e : error) :
  GetOrderedKeyValueDB d = Ok store -> db_broken store = false ->
  span i store = pre ++ c :: post ->
  Forall (fun c0 => exists x, entry i c0 = Ok x) pre ->
  entry i c = Err e ->
  1 <= n -> is_Some (make n) ->
  (Z.of_nat (length pre) < n -> GetTopElementType d n i = Some (Err e))
  /\ (n <= Z.of_nat (length pre) ->
      exists es, Forall2 (fun c0 x => entry i c0 = Ok x) pre es
                 /\ GetTopElementType d n i = Some (Ok (take (Z.to_nat n) es))).
Proof.
  intros Hd Hb Hspan Hpre Hc Hn [lsz0 Hmk].
  pose proof (length_make n lsz0 Hmk) as Hlm.
  destruct (make_inv n lsz0 Hmk) as [_ Hmax].
  destruct (Forall_entries i pre Hpre) as [es Hes].
  pose proof (Forall2_length _ _ _ Hes) as Hlen.
  assert (Hrun : GetTopElementType d n i =
                 match process_chunks (top_visitor i n) (pre ++ c :: post)
                         (mkScan lsz0 0 0) with
                 | None => None
                 | Some (st, err) =>
                     match err with
                     | Some e0 =>
                         if is_shortCircuit e0 then Ok <$> slice_to (lsz st) (rank st)
                         else Some (Err e0)
                     | None => Ok <$> slice_to (lsz st) (rank st)
                     end
                 end).
  { unfold GetTopElementType.
    destruct (Z.ltb_spec n 0); [lia|]. destruct (Z.eqb_spec n 0); [lia|].
    rewrite Hd, Hmk. unfold ProcessRange. rewrite Hb. fold (span i store).
    now rewrite Hspan. }
  rewrite Hrun, process_chunks_app.
  destruct (top_scan_ok i n _ _ Hes (mkScan lsz0 0 0)) as (l' & Hp & Hl & Ht);
    cbn [rank lsz]; try lia.
  rewrite Hp. cbn [rank lsz saved] in *. rewrite Z.sub_0_r, Z.add_0_l in *.
  rewrite take_0 in Ht. cbn [app] in Ht.
  split; intros Hcase.
  - destruct (Z.leb_spec n (Z.of_nat (length pre))); [lia|].
    cbn [process_chunks]. rewrite (top_visitor_Err _ _ _ _ _ Hc).
    now rewrite (entry_Err_not_shortCircuit _ _ _ Hc).
  - exists es. split; [exact Hes|].
    destruct (Z.leb_spec n (Z.of_nat (length pre))); [|lia].
    cbn [is_shortCircuit lsz rank]. rewrite slice_to_in by (rewrite Hl; lia).
    now rewrite Ht.
Qed.

End Outcomes.

(** *** Worked examples of the further properties *)

Lemma GetTopElementType_bad_key_witness :
  (Z.of_nat (length [mkChunk (NewTypeSizeLabelTKey example_index 3 7) []]) < 2 ->
   GetTopElementType malformed_data 2 example_index = Some (Err ErrBadKey))
  /\ (2 <= Z.of_nat (length [mkChunk (NewTypeSizeLabelTKey example_index 3 7) []]) ->
      exists es,
        Forall2 (fun c0 x => entry example_index c0 = Ok x)
          [mkChunk (NewTypeSizeLabelTKey example_index 3 7) []] es
        /\ GetTopElementType malformed_data 2 example_index =
             Some (Ok (take (Z.to_nat 2) es))).
Proof.
  apply (GetTopElementType_bad_key malformed_data malformed_store example_index 2
           [mkChunk (NewTypeSizeLabelTKey example_index 3 7) []] [] malformed_chunk ErrBadKey).
  - reflexivity.
  - reflexivity.
  - vm_compute. reflexivity.
  - constructor; [|constructor]. eexists. vm_compute. reflexivity.
  - vm_compute. reflexivity.
  - lia.
  - eexists. reflexivity.
Defined.

Example top_of_malformed :
  GetTopElementType malformed_data 1 example_index = Some (Ok [mkLabelSize 7 3])
  /\ GetTopElementType malformed_data 2 example_index = Some (Err ErrBadKey).
Proof. vm_compute. split; reflexivity. Qed.

Lemma top_prefix_stable_witness :
  exists l : LabelSizes,
    GetTopElementType example_data 2 example_index = Some (Ok l)
    /\ GetTopElementType example_data 1 example_index = Some (Ok (take (Z.to_nat 1) l)).
Proof.
  apply (top_prefix_stable example_data example_store example_index 1 2).
  - reflexivity.
  - reflexivity.
  - repeat constructor.
  - lia.
  - lia.
  - eexists. reflexivity.
Defined.

(** A request for 2^45 labels is beyond [maxAlloc]: 2^49 bytes. *)
Example top_of_too_many :
  GetTopElementType example_data (2 ^ 45) example_index = None
  /\ GetLabelsByThreshold example_data example_index 0 0 (2 ^ 45) = None.
Proof. vm_compute. split; reflexivity. Qed.

Lemma example_store_ascending : ascending example_store.
Proof. apply ascendingb_sound. vm_compute. reflexivity. Qed.

Lemma example_store_labelsz : labelsz_store example_store.
Proof. repeat constructor. Qed.

Lemma GetLabelsByThreshold_ranked_witness :
  exists l : LabelSizes,
    GetLabelsByThreshold example_data example_index 3 0 0 = Some (Ok l)
    /\ Forall (fun x => 3 <= Size x) l
    /\ StronglySorted ranked_before l
    /\ forall x, In x l ->
         exists c, In c (db_kvs example_store)
                   /\ K c = NewTypeSizeLabelTKey example_index (Size x) (Label x).
Proof.
  apply (GetLabelsByThreshold_ranked example_data example_store example_index 3 0 0).
  - reflexivity.
  - reflexivity.
  - exact example_store_ascending.
  - exact example_store_labelsz.
  - lia.
  - lia.
  - vm_compute. discriminate.
  - vm_compute. discriminate.
  - eexists. reflexivity.
Defined.

Example threshold_three_of_example :
  GetLabelsByThreshold example_data example_index 3 0 0 = Some (Ok [mkLabelSize 7 3]).
Proof. vm_compute. reflexivity. Qed.

Lemma threshold_pages_compose_witness :
  exists l1 l2 : LabelSizes,
    GetLabelsByThreshold example_data example_index 1 0 1 = Some (Ok l1)
    /\ GetLabelsByThreshold example_data example_index 1 (0 + 1) 1 = Some (Ok l2)
    /\ GetLabelsByThreshold example_data example_index 1 0 (1 + 1) = Some (Ok (l1 ++ l2)).
Proof.
  apply (threshold_pages_compose example_data example_store example_index 1 0 1 1).
  - reflexivity.
  - reflexivity.
  - exact example_store_labelsz.
  - lia.
  - lia.
  - lia.
  - vm_compute. discriminate.
  - vm_compute. discriminate.
  - eexists. reflexivity.
Defined.

Example pages_of_example :
  GetLabelsByThreshold example_data example_index 1 0 1 = Some (Ok [mkLabelSize 7 3])
  /\ GetLabelsByThreshold example_data example_index 1 1 1 = Some (Ok [mkLabelSize 42 2])
  /\ GetLabelsByThreshold example_data example_index 1 0 2 =
       Some (Ok [mkLabelSize 7 3; mkLabelSize 42 2]).
Proof. vm_compute. repeat split; reflexivity. Qed.

Example swap_of_example :
  Swap [mkLabelSize 7 3; mkLabelSize 42 2] 0 1 = Some [mkLabelSize 42 2; mkLabelSize 7 3]
  /\ Less [mkLabelSize 7 3; mkLabelSize 42 2] 1 0 = Some true
  /\ Swap [mkLabelSize 7 3; mkLabelSize 42 2] 0 2 = None.
Proof. vm_compute. repeat split; reflexivity. Qed.

Lemma inROI_answers_from_loaded_roi_witness :
  exists d',
    inROI_all loading_ImmutableBySpec 0 roi_data
      [mkElementPos (1, 2, 3); mkElementPos (40, 5, 6); mkElementPos (7, 8, 9)] =
      ((fun e0 => VoxelWithin half_space (Pos e0))
         <$> [mkElementPos (1, 2, 3); mkElementPos (40, 5, 6); mkElementPos (7, 8, 9)],
       d', 1%nat)
    /\ roiChecked d' = true /\ iROI d' = Some half_space
    /\ StaticROI d' = StaticROI roi_data.
Proof.
  apply (inROI_answers_from_loaded_roi loading_ImmutableBySpec 0 roi_data (Some half_space)
           (mkElementPos (1, 2, 3)) [mkElementPos (40, 5, 6); mkElementPos (7, 8, 9)]).
  - discriminate.
  - reflexivity.
  - reflexivity.
Defined.

Example inROI_of_half_space :
  fst (fst (inROI_all loading_ImmutableBySpec 0 roi_data
              [mkElementPos (1, 2, 3); mkElementPos (40, 5, 6); mkElementPos (7, 8, 9)])) =
    [true; false; true].
Proof. vm_compute. reflexivity. Qed.

End LabelszFacts.

(** ** Logging *)

Module DvidLogFacts.

Import DvidLog.

Lemma call_spec c st :
  call c st =
    if mode st <=? severity (fst c)
    then send (mkLogMessage (fst c) (snd c)) st
    else st.
Proof. destruct c as [[] s]; reflexivity. Qed.

Lemma calls_queue calls :
  forall st,
    mode (foldl (fun s c => call c s) st calls) = mode st
    /\ logged (foldl (fun s c => call c s) st calls) = logged st
    /\ logCh (foldl (fun s c => call c s) st calls) =
         logCh st ++ ((fun c => mkLogMessage (fst c) (snd c))
                        <$> List.filter (fun c => mode st <=? severity (fst c)) calls).
Proof.
  induction calls as [|c calls IH]; intros st; cbn [foldl List.filter fmap list_fmap].
  - now rewrite app_nil_r.
  - destruct (IH (call c st)) as (Hm & Hl & Hq). rewrite Hm, Hl, Hq, call_spec.
    destruct (mode st <=? severity (fst c)) eqn:E; cbn [mode logged logCh send];
      rewrite ?E; cbn [fmap list_fmap]; rewrite <- ?app_assoc; auto.
Qed.

Lemma deliver_n_all q :
  forall m l, deliver_n (length q) (mkLogging m q l) = mkLogging m [] (l ++ q).
Proof.
  induction q as [|x q IH]; intros m l; cbn [deliver_n length].
  - now rewrite app_nil_r.
  - unfold deliver at 1. cbn [logCh mode logged]. rewrite IH, <- app_assoc. reflexivity.
Qed.

(** X25.  The severity filter of the package functions: after any
    run of [Debugf], [Infof], [Warningf], [Errorf] and [Criticalf] calls
    under one mode, once the goroutine has emptied the channel, the
    logger has been handed what was queued before and then exactly the
    calls whose severity is at least the mode, each through the method
    of its own level and in the order of the calls; nothing is pending.
    Under [SilentMode] or above no call is logged, and a call that
    passes at some severity passes at every higher one. *)
Theorem log_calls_filtered (calls : list (logFunc * string)) (st : logging) :
  let st1 := foldl (fun s c => call c s) st calls in
  let st2 := deliver_n (length (logCh st1)) st1 in
  PendingLogMessages st2 = 0
  /\ mode st2 = mode st
  /\ logged st2 =
       logged st ++ logCh st
       ++ ((fun c => mkLogMessage (fst c) (snd c))
             <$> List.filter (fun c => mode st <=? severity (fst c)) calls)
  /\ (SilentMode <= mode st -> logged st2 = logged st ++ logCh st)
  /\ (forall g g' s, severity g <= severity g' ->
        call (g, s) st <> st -> call (g', s) st <> st).
Proof.
  cbv zeta. destruct (calls_queue calls st) as (Hm & Hl & Hq).
  destruct (foldl (fun s c => call c s) st calls) as [m1 q1 l1].
  cbn [mode logged logCh] in Hm, Hl, Hq. subst m1 l1 q1. cbn [logCh].
  rewrite deliver_n_all. cbn [PendingLogMessages logCh mode logged length].
  split; [reflexivity|]. split; [reflexivity|]. split; [now rewrite app_assoc|]. split.
  - intros Hsilent. f_equal.
    replace (List.filter (fun c => mode st <=? severity (fst c)) calls) with
      (@nil (logFunc * string)); [now rewrite app_nil_r|].
    symmetry. clear -Hsilent. induction calls as [|c calls IH]; [reflexivity|].
    cbn [List.filter]. destruct (Z.leb_spec (mode st) (severity (fst c))); [|exact IH].
    exfalso. unfold SilentMode in Hsilent. destruct c as [[] s]; cbn in *;
      unfold DebugMode, InfoMode, WarningMode, ErrorMode, CriticalMode in *; lia.
  - intros g g' s Hsev. rewrite !call_spec. cbn [fst snd].
    destruct (Z.leb_spec (mode st) (severity g)); [|congruence].
    destruct (Z.leb_spec (mode st) (severity g')); [|lia].
    intros _ Heq. apply (f_equal (fun x => length (logCh x))) in Heq.
    cbn [send logCh] in Heq. rewrite length_app in Heq. cbn in Heq. lia.
Qed.

Example log_calls_example :
  logged (deliver_n 4 (foldl (fun s c => call c s) (mkLogging WarningMode [] []) example_calls))
    = [mkLogMessage logger_Errorf "bad store"; mkLogMessage logger_Criticalf "panic"].
Proof. vm_compute. reflexivity. Qed.

End DvidLogFacts.

(** ** Raveler superpixel labels *)

Module Labels64Facts.

Import Bin BinFacts GoRuntime GoRuntimeFacts Labels64.

(** *** The label of a superpixel *)

Lemma be_decode_app a b :
  be_decode (a ++ b) = be_decode a * 2 ^ (8 * Z.of_nat (length b)) + be_decode b.
Proof.
  induction a as [|x a IH]; cbn [be_decode app]; [lia|].
  rewrite IH, length_app, !Z.shiftl_mul_pow2 by lia.
  rewrite Nat2Z.inj_add, Z.mul_add_distr_l, Z.pow_add_r by lia. lia.
Qed.

Lemma length_RavelerSuperpixelBytes slice sp :
  length (RavelerSuperpixelBytes slice sp) = 8%nat.
Proof.
  unfold RavelerSuperpixelBytes. destruct (negb (sp =? 0)); [|reflexivity].
  now rewrite length_app, !length_be_encode.
Qed.

(** X22.  [RavelerSuperpixelBytes] always returns eight bytes.  Read
    as a big-endian 64-bit label they are 0 for superpixel 0, whatever
    the slice, and otherwise the slice in the upper and the superpixel in
    the lower 32 bits; so the label is 0 exactly for superpixel 0, and
    slice and superpixel can be read back from every other label. *)
Theorem RavelerSuperpixelBytes_label (slice superpixel32 : Z) :
  0 <= slice <= MaxUint32 -> 0 <= superpixel32 <= MaxUint32 ->
  length (RavelerSuperpixelBytes slice superpixel32) = 8%nat
  /\ be_decode (RavelerSuperpixelBytes slice superpixel32) =
       (if superpixel32 =? 0 then 0 else slice * 2 ^ 32 + superpixel32)
  /\ (be_decode (RavelerSuperpixelBytes slice superpixel32) = 0 <-> superpixel32 = 0)
  /\ (superpixel32 <> 0 ->
      be_decode (take 4 (RavelerSuperpixelBytes slice superpixel32)) = slice
      /\ be_decode (drop 4 (RavelerSuperpixelBytes slice superpixel32)) = superpixel32).
Proof.
  unfold MaxUint32. intros Hs Hp.
  assert (Hd : forall v, 0 <= v <= 2 ^ 32 - 1 -> be_decode (be_encode 4 v) = v).
  { intros v Hv. rewrite be_decode_encode. apply Z.mod_small.
    change (2 ^ (8 * Z.of_nat 4)) with (2 ^ 32). lia. }
  split; [apply length_RavelerSuperpixelBytes|].
  unfold RavelerSuperpixelBytes. destruct (Z.eqb_spec superpixel32 0) as [->|Hne]; cbn [negb].
  - split; [reflexivity|]. split; [now split|]. intros H. now elim H.
  - rewrite be_decode_app, length_be_encode, !Hd by lia.
    change (2 ^ (8 * Z.of_nat 4)) with (2 ^ 32).
    split; [reflexivity|]. split; [split; lia|]. intros _.
    rewrite take_app_length' by (now rewrite length_be_encode).
    rewrite drop_app_length' by (now rewrite length_be_encode).
    now rewrite !Hd by lia.
Qed.

Lemma RavelerSuperpixelBytes_label_witness :
  length (RavelerSuperpixelBytes 5 197121) = 8%nat
  /\ be_decode (RavelerSuperpixelBytes 5 197121) =
       (if 197121 =? 0 then 0 else 5 * 2 ^ 32 + 197121)
  /\ (be_decode (RavelerSuperpixelBytes 5 197121) = 0 <-> 197121 = 0)
  /\ (197121 <> 0 ->
      be_decode (take 4 (RavelerSuperpixelBytes 5 197121)) = 5
      /\ be_decode (drop 4 (RavelerSuperpixelBytes 5 197121)) = 197121).
Proof.
  apply (RavelerSuperpixelBytes_label 5 197121); int_lia.
Defined.


(** *** From 32-bit pixels to 64-bit labels *)

Lemma slice_get_in (s : list byte) i :
  0 <= i < Z.of_nat (length s) ->
  slice_get s i = Some (default zero (s !! Z.to_nat i)).
Proof.
  intros Hi. unfold slice_get.
  destruct (Z.leb_spec 0 i); [|lia]. destruct (Z.ltb_spec i (Z.of_nat (length s))); [|lia].
  cbn [andb]. destruct (lookup_lt_is_Some_2 s (Z.to_nat i)) as [x Hx]; [lia|].
  now rewrite Hx.
Qed.

Lemma copy_at_in done rest i src :
  Z.of_nat (length done) = i -> (8 <= length rest)%nat -> length src = 8%nat ->
  Z.of_nat (length (done ++ rest)) <= MaxInt ->
  copy_at (done ++ rest) i src = Some ((done ++ src) ++ drop 8 rest).
Proof.
  intros Hi Hr Hs Hmax. unfold copy_at. rewrite length_app in *.
  rewrite wrap_int_small by int_lia.
  destruct (Z.leb_spec 0 i); [|lia]. destruct (Z.leb_spec i (i + 8)); [|lia].
  destruct (Z.leb_spec (i + 8) (Z.of_nat (length done + length rest))); [|lia].
  cbn [andb]. f_equal.
  rewrite take_app_length' by lia.
  rewrite (take_ge src) by lia.
  rewrite drop_app_ge by lia.
  replace (Z.to_nat (i + 8) - length done)%nat with 8%nat by lia.
  now rewrite <- app_assoc.
Qed.

Lemma Z_of_byte_zero b : Z_of_byte b = 0 <-> b = zero.
Proof.
  split; [|now intros ->]. intros H. apply Z_of_byte_inj. now rewrite H.
Qed.

Lemma byte_eqb_zero b : Byte.eqb b zero = true <-> Z_of_byte b = 0.
Proof.
  rewrite Z_of_byte_zero. split; [apply Byte.byte_dec_bl|apply Byte.byte_dec_lb].
Qed.

Lemma be_encode_rgb r g b :
  be_encode 4 (Z_of_byte r + 2 ^ 8 * Z_of_byte g + 2 ^ 16 * Z_of_byte b) = [zero; b; g; r].
Proof.
  rewrite <- (be_encode_decode [zero; b; g; r]). cbn [length]. f_equal.
  cbn [be_decode length]. rewrite !Z.shiftl_mul_pow2 by lia.
  change (Z_of_byte zero) with 0. cbn [Z.of_nat]. lia.
Qed.

Lemma pixel_step z data32 st done rest :
  Z.of_nat (length data32) <= MaxInt ->
  0 <= srcI st -> srcI st + 4 <= Z.of_nat (length data32) ->
  data64 st = done ++ rest -> Z.of_nat (length done) = dstI st -> (8 <= length rest)%nat ->
  Z.of_nat (length (data64 st)) <= MaxInt ->
  scratch_of z (superpixelBytes st) ->
  exists sp',
    pixel data32 st =
      Some (mkPixels (srcI st + 4) (dstI st + 8)
              ((done ++ pixel_label z data32 (srcI st)) ++ drop 8 rest) sp')
    /\ scratch_of z sp'.
Proof.
  intros Hmax Hs0 Hs4 Hd Hdone Hrest Hmax64 (b5 & b6 & b7 & Hsp).
  assert (Hdst : 0 <= dstI st /\ dstI st + 8 <= MaxInt).
  { rewrite Hd, length_app in Hmax64. lia. }
  unfold pixel. rewrite !wrap_int_small by int_lia.
  rewrite !slice_get_in by lia.
  set (r := default zero (data32 !! Z.to_nat (srcI st))).
  set (g := default zero (data32 !! Z.to_nat (srcI st + 1))).
  set (b := default zero (data32 !! Z.to_nat (srcI st + 2))).
  assert (Hlabel : pixel_label z data32 (srcI st) =
                   if Byte.eqb r zero && Byte.eqb g zero && Byte.eqb b zero
                   then zeroSuperpixelBytes
                   else be_encode 4 (uint32 z) ++ [zero; b; g; r]).
  { unfold pixel_label, superpixel, RavelerSuperpixelBytes. fold r g b.
    pose proof (Z_of_byte_range r). pose proof (Z_of_byte_range g).
    pose proof (Z_of_byte_range b).
    destruct (Byte.eqb r zero) eqn:Er; [destruct (Byte.eqb g zero) eqn:Eg;
      [destruct (Byte.eqb b zero) eqn:Eb|]|]; cbn [andb].
    - apply byte_eqb_zero in Er, Eg, Eb. rewrite Er, Eg, Eb. reflexivity.
    - assert (Z_of_byte b <> 0).
      { intros E. apply byte_eqb_zero in E. congruence. }
      destruct (Z.eqb_spec (Z_of_byte r + 2 ^ 8 * Z_of_byte g + 2 ^ 16 * Z_of_byte b) 0);
        [lia|]. cbn [negb]. now rewrite be_encode_rgb.
    - assert (Z_of_byte g <> 0).
      { intros E. apply byte_eqb_zero in E. congruence. }
      destruct (Z.eqb_spec (Z_of_byte r + 2 ^ 8 * Z_of_byte g + 2 ^ 16 * Z_of_byte b) 0);
        [lia|]. cbn [negb]. now rewrite be_encode_rgb.
    - assert (Z_of_byte r <> 0).
      { intros E. apply byte_eqb_zero in E. congruence. }
      destruct (Z.eqb_spec (Z_of_byte r + 2 ^ 8 * Z_of_byte g + 2 ^ 16 * Z_of_byte b) 0);
        [lia|]. cbn [negb]. now rewrite be_encode_rgb. }
  rewrite Hlabel, Hd, Hsp.
  assert (Hl4 : length (be_encode 4 (uint32 z)) = 4%nat) by apply length_be_encode.
  unfold scratch_of.
  destruct (be_encode 4 (uint32 z)) as [|z0 [|z1 [|z2 [|z3 [|? ?]]]]]; try discriminate.
  cbn [app insert list_insert].
  rewrite Hd in Hmax64.
  destruct (Byte.eqb r zero && Byte.eqb g zero && Byte.eqb b zero).
  - rewrite copy_at_in by (try assumption; reflexivity).
    eexists. split; [reflexivity|]. now exists b5, b6, b7.
  - rewrite copy_at_in by (try assumption; reflexivity).
    eexists. split; [reflexivity|]. now exists b, g, r.
Qed.

Lemma length_pixel_label z data32 src : length (pixel_label z data32 src) = 8%nat.
Proof. apply length_RavelerSuperpixelBytes. Qed.

Lemma length_row_labels z data32 src n :
  length (row_labels z data32 src n) = (8 * n)%nat.
Proof.
  revert src. induction n as [|n IH]; intros src; cbn [row_labels]; [reflexivity|].
  rewrite length_app, length_pixel_label, IH. lia.
Qed.

Lemma length_image_labels z data32 stride nx y ny :
  length (image_labels z data32 stride nx y ny) = (8 * nx * ny)%nat.
Proof.
  revert y. induction ny as [|ny IH]; intros y; cbn [image_labels length]; [lia|].
  rewrite length_app, length_row_labels, IH. lia.
Qed.

Lemma row_ok z data32 n :
  Z.of_nat (length data32) <= MaxInt ->
  forall st done rest,
  0 <= srcI st -> srcI st + 4 * Z.of_nat n <= Z.of_nat (length data32) ->
  data64 st = done ++ rest -> Z.of_nat (length done) = dstI st ->
  (8 * n <= length rest)%nat ->
  Z.of_nat (length (data64 st)) <= MaxInt ->
  scratch_of z (superpixelBytes st) ->
  exists sp',
    row data32 n st =
      Some (mkPixels (srcI st + 4 * Z.of_nat n) (dstI st + 8 * Z.of_nat n)
              ((done ++ row_labels z data32 (srcI st) n) ++ drop (8 * n) rest) sp')
    /\ scratch_of z sp'.
Proof.
  intros Hmax. induction n as [|n IH]; intros st done rest Hs0 Hs4 Hd Hdone Hrest Hmax64 Hsp.
  - exists (superpixelBytes st). cbn [row row_labels]. split; [|assumption].
    rewrite app_nil_r, drop_0, <- Hd, !Z.add_0_r. now destruct st.
  - cbn [row row_labels].
    destruct (pixel_step z data32 st done rest) as (sp1 & -> & Hsp1); try assumption; try lia.
    destruct (IH (mkPixels (srcI st + 4) (dstI st + 8)
                    ((done ++ pixel_label z data32 (srcI st)) ++ drop 8 rest) sp1)
                (done ++ pixel_label z data32 (srcI st)) (drop 8 rest))
      as (sp' & -> & Hsp'); cbn [srcI dstI data64 superpixelBytes]; try assumption; try lia.
    + reflexivity.
    + rewrite length_app, length_pixel_label. lia.
    + rewrite length_drop. lia.
    + rewrite Hd in Hmax64. rewrite !length_app, length_pixel_label, length_drop in *. lia.
    + exists sp'. split; [|assumption]. f_equal. f_equal; try lia.
      rewrite drop_drop. rewrite <- !app_assoc. do 3 f_equal. f_equal. lia.
Qed.

Lemma rows_ok z data32 stride nx ny :
  Z.of_nat (length data32) <= MaxInt -> 0 <= stride ->
  forall y st done rest,
  0 <= y ->
  (ny <> 0%nat ->
   (y + Z.of_nat ny - 1) * stride + 4 * Z.of_nat nx <= Z.of_nat (length data32)) ->
  data64 st = done ++ rest -> Z.of_nat (length done) = dstI st ->
  (8 * nx * ny <= length rest)%nat ->
  Z.of_nat (length (data64 st)) <= MaxInt ->
  scratch_of z (superpixelBytes st) ->
  exists st',
    rows data32 stride nx y ny st = Some st'
    /\ data64 st' =
         (done ++ image_labels z data32 stride nx y ny) ++ drop (8 * nx * ny) rest.
Proof.
  intros Hmax Hstride.
  induction ny as [|ny IH]; intros y st done rest Hy Hfit Hd Hdone Hrest Hmax64 Hsp.
  - exists st. cbn [rows image_labels]. split; [reflexivity|].
    rewrite app_nil_r, Nat.mul_0_r, drop_0. exact Hd.
  - cbn [rows image_labels].
    assert (Hrow : 0 <= y * stride /\
                   y * stride + 4 * Z.of_nat nx <= Z.of_nat (length data32)).
    { specialize (Hfit ltac:(discriminate)). nia. }
    rewrite wrap_int_small by (unfold MinInt, MaxInt in *; lia).
    destruct (row_ok z data32 nx Hmax
                (mkPixels (y * stride) (dstI st) (data64 st) (superpixelBytes st))
                done rest) as (sp1 & -> & Hsp1);
      cbn [srcI dstI data64 superpixelBytes]; try assumption; try lia.
    destruct (IH (y + 1)
                (mkPixels (y * stride + 4 * Z.of_nat nx) (dstI st + 8 * Z.of_nat nx)
                   ((done ++ row_labels z data32 (y * stride) nx) ++ drop (8 * nx) rest) sp1)
                (done ++ row_labels z data32 (y * stride) nx) (drop (8 * nx) rest))
      as (st' & -> & Hst'); cbn [srcI dstI data64 superpixelBytes]; try assumption; try lia.
    + reflexivity.
    + rewrite length_app, length_row_labels. lia.
    + rewrite length_drop. lia.
    + rewrite Hd in Hmax64. rewrite !length_app, length_row_labels, length_drop in *. lia.
    + exists st'. split; [reflexivity|]. rewrite Hst'.
      rewrite drop_drop. rewrite <- !app_assoc. do 3 f_equal. f_equal. lia.
Qed.


Lemma row_labels_voxel z data32 n :
  forall src x, (x < n)%nat ->
  take 8 (drop (8 * x) (row_labels z data32 src n)) =
    pixel_label z data32 (src + 4 * Z.of_nat x).
Proof.
  induction n as [|n IH]; intros src x Hx; [lia|]. cbn [row_labels].
  destruct x as [|x].
  - rewrite Nat.mul_0_r, drop_0, Z.mul_0_r, Z.add_0_r.
    rewrite take_app_length' by (now rewrite length_pixel_label). reflexivity.
  - rewrite drop_app_ge by (rewrite length_pixel_label; lia).
    rewrite length_pixel_label.
    replace (8 * S x - 8)%nat with (8 * x)%nat by lia.
    rewrite IH by lia. f_equal. lia.
Qed.

Lemma image_labels_voxel z data32 stride nx ny :
  forall y j x, (x < nx)%nat -> (j < ny)%nat ->
  take 8 (drop (8 * (j * nx + x)) (image_labels z data32 stride nx y ny)) =
    pixel_label z data32 ((y + Z.of_nat j) * stride + 4 * Z.of_nat x).
Proof.
  induction ny as [|ny IH]; intros y j x Hx Hj; [lia|]. cbn [image_labels].
  destruct j as [|j].
  - cbn [Nat.mul Nat.add]. rewrite Z.add_0_r.
    rewrite drop_app_le by (rewrite length_row_labels; lia).
    rewrite take_app_le by (rewrite length_drop, length_row_labels; lia).
    now apply row_labels_voxel.
  - rewrite drop_app_ge by (rewrite length_row_labels; nia).
    rewrite length_row_labels.
    replace (8 * (S j * nx + x) - 8 * nx)%nat with (8 * (j * nx + x))%nat by nia.
    rewrite IH by lia. f_equal. lia.
Qed.

Section Conversion.

Context {machine : Machine}.

(** X23.  [addLabelZ] on an aligned image that holds [ny] rows of [nx]
    pixels at the given stride, when the runtime allocates the
    [nx * ny * 8] bytes of the result, returns that many bytes, and the
    eight bytes of the voxel at [(x, y)] are what
    [RavelerSuperpixelBytes] makes of the slice [uint32(z)] and the
    24-bit superpixel held in the first three bytes of the pixel, least
    significant first; the fourth byte of a pixel, its alpha channel,
    plays no part, and no index leaves its slice. *)
Theorem addLabelZ_labels (geom : Geometry) (data32 : list byte) (stride z nx ny : Z) :
  StartPoint geom !! 2%nat = Some z ->
  Size geom !! 0%nat = Some nx -> Size geom !! 1%nat = Some ny ->
  Z.of_nat (length data32) mod 4 = 0 -> Z.of_nat (length data32) <= MaxInt ->
  0 <= nx -> 0 <= ny -> is_Some (make (nx * ny * 8)) ->
  0 <= stride -> (ny - 1) * stride + 4 * nx <= Z.of_nat (length data32) ->
  exists out,
    addLabelZ geom data32 stride = Some (Ok out)
    /\ Z.of_nat (length out) = 8 * nx * ny
    /\ forall x y, 0 <= x < nx -> 0 <= y < ny ->
         exists r g b,
           data32 !! Z.to_nat (y * stride + 4 * x) = Some r
           /\ data32 !! Z.to_nat (y * stride + 4 * x + 1) = Some g
           /\ data32 !! Z.to_nat (y * stride + 4 * x + 2) = Some b
           /\ take 8 (drop (Z.to_nat (8 * (y * nx + x))) out) =
                RavelerSuperpixelBytes (uint32 z)
                  (Z_of_byte r + 2 ^ 8 * Z_of_byte g + 2 ^ 16 * Z_of_byte b).
Proof.
  intros Hz Hnx Hny Hal Hmax Hx0 Hy0 [buf Hmk] Hstride Hfit.
  unfold addLabelZ. rewrite Hal. cbn [Z.eqb negb].
  assert (Hdims : 3 <= NumDims (StartPoint geom)).
  { apply lookup_lt_Some in Hz. unfold NumDims. lia. }
  destruct (Z.ltb_spec (NumDims (StartPoint geom)) 3); [lia|].
  unfold Value. rewrite Hz, Hnx, Hny.
  assert (Hsize : nx * ny * 8 <= MaxInt).
  { apply makeslice_inv in Hmk as (_ & _ & Hm & _). unfold maxAlloc in Hm. int_lia. }
  assert (Hprod : 0 <= nx * ny /\ nx * ny * 8 <= MaxInt) by nia.
  rewrite (wrap_int_small (nx * ny)) by (unfold MinInt, MaxInt in *; lia).
  rewrite wrap_int_small by (unfold MinInt, MaxInt in *; lia).
  rewrite Hmk. apply makeslice_inv in Hmk as (Hbuf0 & _).
  assert (Hbuf : length buf = (8 * Z.to_nat nx * Z.to_nat ny)%nat).
  { rewrite Hbuf0, length_replicate. nia. }
  destruct (rows_ok z data32 stride (Z.to_nat nx) (Z.to_nat ny) Hmax Hstride 0
              (mkPixels 0 0 buf (be_encode 4 (uint32 z) ++ replicate 4 zero)) [] buf)
    as (st' & -> & Hout); cbn [srcI dstI data64 superpixelBytes app length];
    try reflexivity; try lia.
  { exists zero, zero, zero. reflexivity. }
  rewrite drop_ge, app_nil_r, app_nil_l in Hout by lia. rewrite Hout.
  eexists. split; [reflexivity|]. split.
  { rewrite length_image_labels. nia. }
  intros x y Hx Hy.
  assert (Hsrc : 0 <= y * stride + 4 * x /\
                 y * stride + 4 * x + 4 <= Z.of_nat (length data32)) by nia.
  destruct (lookup_lt_is_Some_2 data32 (Z.to_nat (y * stride + 4 * x))) as [r Hr]; [lia|].
  destruct (lookup_lt_is_Some_2 data32 (Z.to_nat (y * stride + 4 * x + 1))) as [g Hg]; [lia|].
  destruct (lookup_lt_is_Some_2 data32 (Z.to_nat (y * stride + 4 * x + 2))) as [b Hb]; [lia|].
  exists r, g, b. repeat split; try assumption.
  replace (Z.to_nat (8 * (y * nx + x)))
    with (8 * (Z.to_nat y * Z.to_nat nx + Z.to_nat x))%nat by nia.
  rewrite image_labels_voxel by lia.
  unfold pixel_label, superpixel.
  replace ((0 + Z.of_nat (Z.to_nat y)) * stride + 4 * Z.of_nat (Z.to_nat x))
    with (y * stride + 4 * x) by lia.
  now rewrite Hr, Hg, Hb.
Qed.

End Conversion.

Lemma addLabelZ_labels_witness :
  exists out,
    addLabelZ example_geometry example_image 12 = Some (Ok out)
    /\ Z.of_nat (length out) = 8 * 2 * 2
    /\ forall x y, 0 <= x < 2 -> 0 <= y < 2 ->
         exists r g b,
           example_image !! Z.to_nat (y * 12 + 4 * x) = Some r
           /\ example_image !! Z.to_nat (y * 12 + 4 * x + 1) = Some g
           /\ example_image !! Z.to_nat (y * 12 + 4 * x + 2) = Some b
           /\ take 8 (drop (Z.to_nat (8 * (y * 2 + x))) out) =
                RavelerSuperpixelBytes (uint32 5)
                  (Z_of_byte r + 2 ^ 8 * Z_of_byte g + 2 ^ 16 * Z_of_byte b).
Proof.
  apply (addLabelZ_labels example_geometry example_image 12 5 2 2).
  - reflexivity.
  - reflexivity.
  - reflexivity.
  - reflexivity.
  - cbn. int_lia.
  - lia.
  - lia.
  - eexists. reflexivity.
  - lia.
  - cbn. lia.
Defined.

Example addLabelZ_of_example :
  addLabelZ example_geometry example_image 12 =
    Some (Ok ["000"; "000"; "000"; "005"; "000"; "000"; "000"; "001";
              "000"; "000"; "000"; "000"; "000"; "000"; "000"; "000";
              "000"; "000"; "000"; "005"; "000"; "003"; "002"; "001";
              "000"; "000"; "000"; "005"; "000"; "001"; "000"; "000"]%byte).
Proof. vm_compute. reflexivity. Qed.

(** An image of 2^23 x 2^23 pixels asks for 2^49 bytes, which is
    beyond [maxAlloc]. *)
Example addLabelZ_of_too_large :
  addLabelZ (mkGeometry [0; 0; 5] [2 ^ 23; 2 ^ 23]) example_image 4 = None.
Proof. vm_compute. reflexivity. Qed.

End Labels64Facts.

(** ** The append-only log *)

Module FilelogFacts.

Import Bin BinFacts Dvid Filelog.

(** *** Facts about appending *)

Lemma Write_ok os f buf os' :
  Write os f buf = (os', None) ->
  disk os' !! f = Some (default [] (disk os !! f) ++ buf)
  /\ (forall g, g <> f -> disk os' !! g = disk os !! g).
Proof.
  unfold Write, next_outcome.
  destruct (script os) as [|[|k] rest]; intros H; try discriminate;
    injection H as <-; cbn [disk];
    (split; [apply lookup_insert_eq | intros g Hg; now apply lookup_insert_ne]).
Qed.

Lemma OpenFile_ok os filename os' f :
  OpenFile os filename = (os', Ok f) ->
  f = filename /\ default [] (disk os' !! filename) = default [] (disk os !! filename).
Proof.
  unfold OpenFile, next_outcome.
  destruct (script os) as [|[|k] rest]; intros H; try discriminate;
    injection H as <- <-; cbn [disk]; (split; [reflexivity|]);
    destruct (disk os !! filename) eqn:E; rewrite ?E, ?lookup_insert_eq; reflexivity.
Qed.

Lemma getLogFile_ok pf os wlogs dataID version os' wlogs' fl :
  open_files_ok pf wlogs ->
  getLogFile pf os wlogs dataID version = (os', wlogs', Ok fl) ->
  File fl = log_file pf wlogs dataID version
  /\ path wlogs' = path wlogs /\ open_files_ok pf wlogs'
  /\ default [] (disk os' !! File fl) = default [] (disk os !! File fl).
Proof.
  intros Hwf. unfold getLogFile, log_file.
  destruct (files wlogs !! log_key dataID version) as [fl0|] eqn:Ek.
  - intros H. injection H as <- <- <-. auto.
  - destruct (OpenFile os _) as [os1 [f|e]] eqn:Eo; intros H; [|discriminate].
    injection H as <- <- <-. apply OpenFile_ok in Eo as [-> Hc]. cbn [File path].
    repeat split; auto.
    intros k fl. cbn [files path]. rewrite lookup_insert.
    destruct (decide (log_key dataID version = k)) as [<-|Hne].
    + intros H. now injection H as <-.
    + apply Hwf.
Qed.

(** A successful [Append] puts the six-byte header and then the
    payload at the end of the log file. *)
Lemma Append_ok pf os wlogs t dataID version p os' wlogs' :
  open_files_ok pf wlogs ->
  Append pf os wlogs t dataID version p = (os', wlogs', None) ->
  open_files_ok pf wlogs' /\ path wlogs' = path wlogs
  /\ disk os' !! log_file pf wlogs dataID version =
       Some (default [] (disk os !! log_file pf wlogs dataID version) ++ header t p ++ p).
Proof.
  intros Hwf. unfold Append.
  destruct (getLogFile pf os wlogs dataID version) as [[os1 wlogs1] [fl|e]] eqn:Eg;
    [|discriminate].
  apply getLogFile_ok in Eg as (Hf & Hp & Hwf1 & Hc); [|assumption].
  unfold writeHeader.
  destruct (Write os1 (File fl) (header t p)) as [os2 [e|]] eqn:Ew1; [discriminate|].
  destruct (Write os2 (File fl) p) as [os3 [e|]] eqn:Ew2; [discriminate|].
  intros H. injection H as <- <-.
  apply Write_ok in Ew1 as [Ew1 _]. apply Write_ok in Ew2 as [Ew2 _].
  rewrite Ew1 in Ew2. cbn [default from_option id] in Ew2.
  rewrite Hc, <- app_assoc in Ew2.
  rewrite <- Hf. auto.
Qed.

Lemma Append_all_ok pf dataID version calls :
  forall os wlogs os' wlogs' errs,
  open_files_ok pf wlogs ->
  Append_all pf os wlogs dataID version calls = (os', wlogs', errs) ->
  Forall (fun e => e = None) errs ->
  default [] (disk os' !! log_file pf wlogs dataID version) =
    default [] (disk os !! log_file pf wlogs dataID version)
    ++ concat ((fun c => header (fst c) (snd c) ++ snd c) <$> calls).
Proof.
  induction calls as [|[t p] calls IH]; intros os wlogs os' wlogs' errs Hwf.
  - cbn [Append_all]. intros H _. injection H as <- _ _. cbn. now rewrite app_nil_r.
  - cbn [Append_all].
    destruct (Append pf os wlogs t dataID version p) as [[os1 wlogs1] err] eqn:Ea.
    destruct (Append_all pf os1 wlogs1 dataID version calls) as [[os2 wlogs2] errs2] eqn:Eall.
    intros H Hnone. injection H as <- <- <-.
    apply Forall_cons in Hnone as [-> Hnone].
    apply Append_ok in Ea as (Hwf1 & Hp1 & Hdisk); [|assumption].
    specialize (IH _ _ _ _ _ Hwf1 Eall Hnone).
    unfold log_file in *. rewrite Hp1 in IH. rewrite IH, Hdisk.
    cbn [default fmap list_fmap concat fst snd from_option id].
    now rewrite <- app_assoc.
Qed.

(** With no failure scripted every [Append] succeeds. *)
Lemma Append_all_no_failure pf dataID version calls :
  forall os wlogs, script os = [] ->
  exists os' wlogs',
    Append_all pf os wlogs dataID version calls =
      (os', wlogs', replicate (length calls) None).
Proof.
  induction calls as [|[t p] calls IH]; intros os wlogs Hs.
  - eexists _, _. reflexivity.
  - cbn [Append_all].
    assert (Ha : exists os1 wlogs1,
               Append pf os wlogs t dataID version p = (os1, wlogs1, None)
               /\ script os1 = []).
    { unfold Append, getLogFile, OpenFile, writeHeader, Write, next_outcome.
      rewrite Hs. destruct (files wlogs !! log_key dataID version);
        cbn [script]; rewrite ?Hs; cbn [script File]; eexists _, _; split; reflexivity. }
    destruct Ha as (os1 & wlogs1 & -> & Hs1).
    destruct (IH os1 wlogs1 Hs1) as (os2 & wlogs2 & ->).
    eexists _, _. reflexivity.
Qed.

(** *** Facts about reading back *)

Lemma le_encode_small n z :
  0 <= z < 2 ^ (8 * Z.of_nat n) -> le_decode (le_encode n z) = z.
Proof. intros H. rewrite le_decode_encode. now apply Z.mod_small. Qed.

Lemma well_framed_frame t p :
  0 <= t <= MaxUint16 -> Z.of_nat (length p) <= MaxUint32 ->
  well_framed t p (frame t p) /\ header t p ++ p = frame t p.
Proof.
  unfold MaxUint16, MaxUint32. intros Ht Hp. split.
  - exists (le_encode 2 t), (le_encode 4 (Z.of_nat (length p))).
    rewrite !length_le_encode.
    rewrite !le_encode_small
      by (change (2 ^ (8 * Z.of_nat 2)) with (2 ^ 16);
          change (2 ^ (8 * Z.of_nat 4)) with (2 ^ 32); lia).
    repeat split; reflexivity.
  - unfold header, frame, uint16, uint32. rewrite !Z.mod_small by lia.
    now rewrite <- app_assoc.
Qed.

Lemma readHeader_frame t p rest :
  0 <= t <= MaxUint16 -> Z.of_nat (length p) <= MaxUint32 ->
  readHeader (frame t p ++ rest) = Ok (t, Z.of_nat (length p), p ++ rest).
Proof.
  unfold MaxUint16, MaxUint32. intros Ht Hp. unfold readHeader, ReadFull, frame.
  set (tb := le_encode 2 t). set (lb := le_encode 4 (Z.of_nat (length p))).
  assert (Htb : length tb = 2%nat) by apply length_le_encode.
  assert (Hlb : length lb = 4%nat) by apply length_le_encode.
  assert (Hsplit : (tb ++ lb ++ p) ++ rest = (tb ++ lb) ++ (p ++ rest))
    by (now rewrite <- !app_assoc).
  rewrite Hsplit.
  assert (Hlen : length (tb ++ lb) = 6%nat) by (rewrite length_app; lia).
  destruct ((tb ++ lb) ++ p ++ rest) as [|b0 l0] eqn:El.
  { apply (f_equal length) in El. rewrite length_app, Hlen in El. discriminate. }
  rewrite <- El.
  destruct (Nat.leb_spec 6 (length ((tb ++ lb) ++ p ++ rest))) as [_|Hlt].
  2:{ rewrite length_app, Hlen in Hlt. lia. }
  rewrite (take_app_length' (tb ++ lb) (p ++ rest) 6) by (now rewrite Hlen).
  rewrite (drop_app_length' (tb ++ lb) (p ++ rest) 6) by (now rewrite Hlen).
  rewrite (take_app_length' tb lb 2), (drop_app_length' tb lb 2) by (now rewrite Htb).
  unfold tb, lb.
  rewrite !le_encode_small
    by (change (2 ^ (8 * Z.of_nat 2)) with (2 ^ 16);
        change (2 ^ (8 * Z.of_nat 4)) with (2 ^ 32); lia).
  reflexivity.
Qed.

Lemma ReadFull_app p rest : ReadFull (length p) (p ++ rest) = Ok (p, rest).
Proof.
  unfold ReadFull. destruct (p ++ rest) as [|b l] eqn:E.
  - apply app_eq_nil in E as [-> ->]. reflexivity.
  - rewrite <- E. destruct (Nat.leb_spec (length p) (length (p ++ rest))) as [_|Hlt].
    + now rewrite take_app_length, drop_app_length.
    + rewrite length_app in Hlt. lia.
Qed.

Lemma read_log_frames calls :
  Forall (fun c => 0 <= fst c <= MaxUint16 /\ Z.of_nat (length (snd c)) <= MaxUint32) calls ->
  forall fuel, (length calls <= fuel)%nat ->
  read_log fuel (concat ((fun c => frame (fst c) (snd c)) <$> calls)) =
    Some (Ok (entry_of <$> calls)).
Proof.
  induction 1 as [|[t p] calls [Ht Hp] Hall IH]; intros fuel Hfuel.
  - now destruct fuel.
  - cbn [length] in Hfuel. destruct fuel as [|fuel]; [lia|].
    cbn [fmap list_fmap concat fst snd] in *. cbn [read_log].
    destruct (frame t p ++ concat _) as [|b l] eqn:El.
    { apply (f_equal length) in El. unfold frame in El.
      rewrite !length_app, length_le_encode in El. discriminate. }
    rewrite <- El, readHeader_frame by assumption.
    rewrite Nat2Z.id, ReadFull_app, IH by lia. reflexivity.
Qed.

(** C6.  For every run of successful [Append] calls on one log file
    whose payloads are shorter than 2^32 bytes, the file grows by the
    concatenation, in append order, of one record per call, each a
    little-endian u16 entry type, a little-endian u32 equal to the
    payload length and the payload; read back with the header decoder,
    given fuel for at least as many records, those bytes yield the
    appended (type, length, payload) sequence. *)
Theorem Append_round_trip (pf : Platform) (os : OS) (wlogs : writeLogs)
    (dataID version : string) (calls : list (Z * list byte))
    (os' : OS) (wlogs' : writeLogs) (errs : list (option error)) :
  open_files_ok pf wlogs ->
  Forall (fun c => 0 <= fst c <= MaxUint16 /\ Z.of_nat (length (snd c)) <= MaxUint32) calls ->
  Append_all pf os wlogs dataID version calls = (os', wlogs', errs) ->
  Forall (fun e => e = None) errs ->
  exists appended,
    default [] (disk os' !! log_file pf wlogs dataID version) =
      default [] (disk os !! log_file pf wlogs dataID version) ++ appended
    /\ log_of calls appended
    /\ appended = concat ((fun c => frame (fst c) (snd c)) <$> calls)
    /\ forall fuel, (length calls <= fuel)%nat ->
         read_log fuel appended = Some (Ok (entry_of <$> calls)).
Proof.
  intros Hwf Hsmall Hrun Hok.
  exists (concat ((fun c => frame (fst c) (snd c)) <$> calls)).
  assert (Hsame : (fun c : Z * list byte => header (fst c) (snd c) ++ snd c) <$> calls =
                  (fun c => frame (fst c) (snd c)) <$> calls).
  { clear -Hsmall. induction Hsmall as [|c calls [Ht Hp] _ IH]; [reflexivity|].
    cbn [fmap list_fmap]. f_equal; [|exact IH].
    now apply well_framed_frame. }
  split; [|split; [|split]].
  - rewrite (Append_all_ok pf dataID version calls os wlogs os' wlogs' errs Hwf Hrun Hok).
    now rewrite Hsame.
  - exists ((fun c => frame (fst c) (snd c)) <$> calls). split; [|reflexivity].
    clear -Hsmall. induction Hsmall as [|c calls [Ht Hp] _ IH]; constructor; [|exact IH].
    now apply well_framed_frame.
  - reflexivity.
  - now apply read_log_frames.
Qed.

(** *** Facts about [Equal] *)

Lemma Equal_spec pf wlogs cfg :
  Equal pf wlogs cfg = true <-> exists t, parseConfig pf cfg = Ok (path wlogs, t).
Proof.
  unfold Equal. destruct (parseConfig pf cfg) as [[p t]|e].
  - rewrite String.eqb_eq. split.
    + intros ->. eauto.
    + intros [t' H]. now injection H as ->.
  - split; [discriminate|]. intros [t H]. discriminate.
Qed.

Lemma newWriteLogs_path pf os cfg os' wlogs created :
  newWriteLogs pf os cfg = (os', Ok (wlogs, created)) ->
  exists t, parseConfig pf cfg = Ok (path wlogs, t).
Proof.
  unfold newWriteLogs. destruct (parseConfig pf cfg) as [[p t]|e]; [|discriminate].
  destruct (IsNotExist (Stat os p)).
  - destruct (MkdirAll os p) as [os1 [e|]]; [discriminate|].
    intros H. injection H as _ <- _. eauto.
  - intros H. injection H as _ <- _. eauto.
Qed.

(** The log an engine has just opened has no open file. *)
Lemma newWriteLogs_open_files_ok pf os cfg os' wlogs created :
  newWriteLogs pf os cfg = (os', Ok (wlogs, created)) -> open_files_ok pf wlogs.
Proof.
  unfold newWriteLogs. destruct (parseConfig pf cfg) as [[p t]|e]; [|discriminate].
  destruct (IsNotExist (Stat os p)).
  - destruct (MkdirAll os p) as [os1 [e|]]; [discriminate|].
    intros H. injection H as _ <- _. intros k fl Hk. cbn in Hk.
    now rewrite lookup_empty in Hk.
  - intros H. injection H as _ <- _. intros k fl Hk. cbn in Hk.
    now rewrite lookup_empty in Hk.
Qed.

(** For the filelog engine two configurations are duplicates when
    their parsed paths are equal: the log opened from one takes the
    other for its own. *)
Lemma Equal_same_path pf ca cb p ta tb os os' wlogs created :
  parseConfig pf ca = Ok (p, ta) -> parseConfig pf cb = Ok (p, tb) ->
  newWriteLogs pf os ca = (os', Ok (wlogs, created)) ->
  Equal pf wlogs cb = true.
Proof.
  intros Ha Hb Hn. apply newWriteLogs_path in Hn as [t Hn].
  rewrite Ha in Hn. injection Hn as -> _. apply Equal_spec. eauto.
Qed.

(** *** Worked examples *)

Lemma open_files_ok_example : open_files_ok example_platform example_logs.
Proof. intros k fl H. cbn [files example_logs] in H. now rewrite lookup_empty in H. Qed.

Example example_log_bytes :
  concat ((fun c => frame (fst c) (snd c)) <$> example_calls) =
    ["001"; "000"; "003"; "000"; "000"; "000"; "001"; "002"; "003";
     "007"; "000"; "000"; "000"; "000"; "000";
     "001"; "002"; "001"; "000"; "000"; "000"; "255"]%byte.
Proof. vm_compute. reflexivity. Qed.

Lemma Append_round_trip_witness :
  exists appended,
    default [] (disk (fst (fst (Append_all example_platform fresh_os example_logs
                                   "d" "v" example_calls)))
                  !! log_file example_platform example_logs "d" "v") =
      default [] (disk fresh_os !! log_file example_platform example_logs "d" "v") ++ appended
    /\ log_of example_calls appended
    /\ appended = concat ((fun c => frame (fst c) (snd c)) <$> example_calls)
    /\ forall fuel, (length example_calls <= fuel)%nat ->
         read_log fuel appended = Some (Ok (entry_of <$> example_calls)).
Proof.
  apply (Append_round_trip example_platform fresh_os example_logs "d" "v" example_calls
           (fst (fst (Append_all example_platform fresh_os example_logs "d" "v" example_calls)))
           (snd (fst (Append_all example_platform fresh_os example_logs "d" "v" example_calls)))
           (snd (Append_all example_platform fresh_os example_logs "d" "v" example_calls))).
  - exact open_files_ok_example.
  - repeat constructor; cbn; unfold MaxUint16, MaxUint32; lia.
  - now destruct (Append_all example_platform fresh_os example_logs "d" "v" example_calls)
      as [[os' wlogs'] errs].
  - vm_compute. repeat constructor.
Defined.

Lemma length_oversized_payload : Z.of_nat (length oversized_payload) = 2 ^ 32.
Proof.
  unfold oversized_payload. rewrite length_replicate. apply Z2Nat.id. lia.
Qed.

(** A four-byte field cannot read the length of a payload of 2^32
    bytes or more. *)
Lemma long_payload_not_framed t p content :
  2 ^ 32 <= Z.of_nat (length p) -> ~ log_of [(t, p)] content.
Proof.
  intros Hp (recs & HF & _).
  apply Forall2_cons_inv_l in HF as (rec & recs' & Hrec & _ & _).
  destruct Hrec as (tb & lb & _ & _ & Hlb & _ & Hdec).
  cbn [fst snd] in Hdec.
  pose proof (le_decode_range lb) as Hr. rewrite Hlb in Hr.
  change (2 ^ (8 * Z.of_nat 4)) with (2 ^ 32) in Hr. lia.
Qed.

(** C6 as stated fails for a payload of 2^32 bytes: the call succeeds,
    but no four-byte field can read [len(payload)], so whatever the file
    holds it is not a well-framed record of that call. *)
Lemma Append_oversized_payload_not_framed :
  (exists os' wlogs',
     Append_all example_platform fresh_os example_logs "d" "v" [(1, oversized_payload)] =
       (os', wlogs', [None]))
  /\ forall content, ~ log_of [(1, oversized_payload)] content.
Proof.
  split.
  - destruct (Append_all_no_failure example_platform "d" "v" [(1, oversized_payload)]
                fresh_os example_logs eq_refl) as (os' & wlogs' & H).
    exists os', wlogs'. exact H.
  - intros content. apply long_payload_not_framed.
    rewrite length_oversized_payload. lia.
Qed.

(** *** Headers as written *)

Lemma length_header t data : length (header t data) = 6%nat.
Proof. unfold header. now rewrite length_app, !length_le_encode. Qed.

(** X10.  The six bytes that [writeHeader] writes for an entry type
    and a payload read back through [readHeader] as the entry type
    modulo 2^16 and the payload length modulo 2^32, whatever follows
    them in the file. *)
Theorem readHeader_header (t : Z) (data rest : list byte) :
  length (header t data) = 6%nat
  /\ readHeader (header t data ++ rest) =
       Ok (uint16 t, uint32 (Z.of_nat (length data)), rest).
Proof.
  split; [apply length_header|].
  unfold readHeader, ReadFull.
  pose proof (length_header t data) as Hlen.
  destruct (header t data ++ rest) as [|b0 l0] eqn:El.
  { apply (f_equal length) in El. rewrite length_app, Hlen in El. discriminate. }
  rewrite <- El.
  destruct (Nat.leb_spec 6 (length (header t data ++ rest))) as [_|Hlt].
  2:{ rewrite length_app, Hlen in Hlt. lia. }
  rewrite (take_app_length' (header t data) rest 6) by (now rewrite Hlen).
  rewrite (drop_app_length' (header t data) rest 6) by (now rewrite Hlen).
  unfold header.
  rewrite (take_app_length' (le_encode 2 (uint16 t)) _ 2) by (now rewrite length_le_encode).
  rewrite (drop_app_length' (le_encode 2 (uint16 t)) _ 2) by (now rewrite length_le_encode).
  rewrite !le_decode_encode. unfold uint16, uint32.
  change (2 ^ (8 * Z.of_nat 2)) with (2 ^ 16). change (2 ^ (8 * Z.of_nat 4)) with (2 ^ 32).
  now rewrite !Z.mod_mod by lia.
Qed.

(** *** What an [Append] does to the disk *)

Lemma Write_any os f buf os' err :
  Write os f buf = (os', err) ->
  (forall g, g <> f -> disk os' !! g = disk os !! g)
  /\ exists written,
       disk os' !! f = Some (default [] (disk os !! f) ++ written)
       /\ match err with
          | None => written = buf
          | Some _ => exists k, written = take k buf
          end.
Proof.
  unfold Write, next_outcome.
  destruct (script os) as [|[|k] rest]; intros H; injection H as <- <-; cbn [disk];
    (split; [intros g Hg; now apply lookup_insert_ne|]);
    eexists; (split; [apply lookup_insert_eq|]); eauto.
Qed.

Lemma OpenFile_any os filename os' r :
  OpenFile os filename = (os', r) ->
  (forall g, g <> filename -> disk os' !! g = disk os !! g)
  /\ default [] (disk os' !! filename) = default [] (disk os !! filename)
  /\ match r with Ok f => f = filename | Err _ => disk os' = disk os end.
Proof.
  unfold OpenFile, next_outcome.
  destruct (script os) as [|[|k] rest]; intros H; injection H as <- <-; cbn [disk];
    try (destruct (disk os !! filename) eqn:E);
    repeat split; try reflexivity;
    try (intros g Hg; now apply lookup_insert_ne);
    now rewrite ?lookup_insert_eq, ?E.
Qed.

(** X11.  Whatever the outcome of its system calls, [Append] leaves
    every file but the log file of [(dataID, version)] as it was and only
    adds bytes at the end of that file: the whole record when it returns
    no error; nothing when the file could not be opened; a part of the
    header and no payload when the header write failed; the header and a
    part of the payload when the payload write failed.  Nothing is
    rolled back. *)
Theorem Append_only_appends (pf : Platform) (os : OS) (wlogs : writeLogs)
    (t : Z) (dataID version : string) (p : list byte)
    (os' : OS) (wlogs' : writeLogs) (err : option error) :
  open_files_ok pf wlogs ->
  Append pf os wlogs t dataID version p = (os', wlogs', err) ->
  (forall g, g <> log_file pf wlogs dataID version -> disk os' !! g = disk os !! g)
  /\ exists written,
       default [] (disk os' !! log_file pf wlogs dataID version) =
         default [] (disk os !! log_file pf wlogs dataID version) ++ written
       /\ match err with
          | None => written = header t p ++ p
          | Some (ErrAppendOpen _) => written = []
          | Some (ErrBadHeaderWrite _) => exists k, written = take k (header t p)
          | Some (ErrAppendWrite _) => exists k, written = header t p ++ take k p
          | Some _ => False
          end.
Proof.
  intros Hwf. unfold Append.
  destruct (getLogFile pf os wlogs dataID version) as [[os1 wlogs1] [fl|e]] eqn:Eg.
  - assert (Hg : File fl = log_file pf wlogs dataID version
                 /\ (forall g, g <> log_file pf wlogs dataID version ->
                       disk os1 !! g = disk os !! g)
                 /\ default [] (disk os1 !! log_file pf wlogs dataID version) =
                      default [] (disk os !! log_file pf wlogs dataID version)).
    { revert Eg. unfold getLogFile, log_file.
      destruct (files wlogs !! log_key dataID version) as [fl0|] eqn:Ek.
      - intros H. injection H as <- <- <-. split; [now apply Hwf|]. now split.
      - destruct (OpenFile os _) as [os2 [f|e]] eqn:Eo; intros H; [|discriminate].
        injection H as <- <- <-. apply OpenFile_any in Eo as (Hother & Hsame & ->).
        now repeat split. }
    destruct Hg as (Hf & Hother1 & Hsame1). rewrite Hf. unfold writeHeader. rewrite Hf.
    set (f := log_file pf wlogs dataID version) in *.
    destruct (Write os1 f (header t p)) as [os2 [e|]] eqn:Ew1.
    + intros H. injection H as <- <- <-.
      apply Write_any in Ew1 as (Hother2 & written & Hw & k & ->).
      split; [intros g Hg; now rewrite Hother2, Hother1|].
      exists (take k (header t p)). rewrite Hw. cbn [default from_option id].
      rewrite Hsame1. eauto.
    + apply Write_any in Ew1 as (Hother2 & written & Hw & ->).
      destruct (Write os2 f p) as [os3 [e|]] eqn:Ew2;
        intros H; injection H as <- <- <-;
        apply Write_any in Ew2 as (Hother3 & written & Hw3 & Hwr);
        (split; [intros g Hg; now rewrite Hother3, Hother2, Hother1|]);
        rewrite Hw3, Hw; cbn [default from_option id]; rewrite Hsame1, <- app_assoc.
      * destruct Hwr as [k ->]. eauto.
      * subst written. eauto.
  - intros H. injection H as <- <- <-.
    revert Eg. unfold getLogFile.
    destruct (files wlogs !! log_key dataID version); [discriminate|].
    destruct (OpenFile os _) as [os2 [f|e']] eqn:Eo; [discriminate|].
    intros H. injection H as <- <- <-.
    apply OpenFile_any in Eo as (Hother & Hsame & Hdisk).
    split; [intros g Hg; now rewrite Hdisk|].
    exists []. rewrite Hdisk, app_nil_r. now split.
Qed.

(** X12.  A log file is opened once: after [getLogFile] has returned
    the file of [(dataID, version)], a later call returns the same file
    without a system call, whatever the state of the system, and an
    [Append] to it no longer fails for want of the file. *)
Theorem getLogFile_opens_once (pf : Platform) (os : OS) (wlogs : writeLogs)
    (dataID version : string) (os1 : OS) (wlogs1 : writeLogs) (fl : flog) :
  getLogFile pf os wlogs dataID version = (os1, wlogs1, Ok fl) ->
  forall os2,
    getLogFile pf os2 wlogs1 dataID version = (os2, wlogs1, Ok fl)
    /\ forall t p e,
         snd (Append pf os2 wlogs1 t dataID version p) <> Some (ErrAppendOpen e).
Proof.
  intros Hg.
  assert (Hk : files wlogs1 !! log_key dataID version = Some fl).
  { revert Hg. unfold getLogFile.
    destruct (files wlogs !! log_key dataID version) as [fl0|] eqn:Ek.
    - intros H. now injection H as <- <- <-.
    - destruct (OpenFile os _) as [os' [f|e]]; intros H; [|discriminate].
      injection H as <- <- <-. cbn [files]. apply lookup_insert_eq. }
  intros os2.
  assert (Hg2 : getLogFile pf os2 wlogs1 dataID version = (os2, wlogs1, Ok fl)).
  { unfold getLogFile. now rewrite Hk. }
  split; [exact Hg2|]. intros t p e. unfold Append. rewrite Hg2.
  destruct (writeHeader os2 fl t p) as [os3 [e1|]]; [discriminate|].
  destruct (Write os3 (File fl) p) as [os4 [e2|]]; discriminate.
Qed.



(** X14.  A log that [newWriteLogs] opened from a configuration is
    [Equal] to that configuration, and it is [Equal] to another
    configuration exactly when both parse to the same path: the engine
    name, the testing flag as such and every other setting play no part. *)
Theorem Equal_iff_same_path (pf : Platform) (os : OS) (ca cb : StoreConfig)
    (os' : OS) (wlogs : writeLogs) (created : bool) :
  newWriteLogs pf os ca = (os', Ok (wlogs, created)) ->
  Equal pf wlogs ca = true
  /\ (Equal pf wlogs cb = true <->
      exists p ta tb, parseConfig pf ca = Ok (p, ta) /\ parseConfig pf cb = Ok (p, tb)).
Proof.
  intros Hn. destruct (newWriteLogs_path _ _ _ _ _ _ Hn) as [ta Ha]. split.
  - apply Equal_spec. eauto.
  - rewrite Equal_spec. split.
    + intros [tb Hb]. eauto.
    + intros (p & ta' & tb & Ha' & Hb). rewrite Ha in Ha'. injection Ha' as <- _. eauto.
Qed.

(** *** Worked examples of the further properties *)

Lemma Append_only_appends_witness :
  (forall g, g <> log_file example_platform example_logs "d" "v" ->
     disk (fst (fst torn_append)) !! g = disk failing_os !! g)
  /\ exists written,
       default [] (disk (fst (fst torn_append)) !! log_file example_platform example_logs "d" "v") =
         default [] (disk failing_os !! log_file example_platform example_logs "d" "v") ++ written
       /\ exists k, written = take k (header 1 ["001"; "002"; "003"]%byte).
Proof.
  apply (Append_only_appends example_platform failing_os example_logs 1 "d" "v"
           ["001"; "002"; "003"]%byte
           (fst (fst torn_append)) (snd (fst torn_append))
           (Some (ErrBadHeaderWrite ErrWrite))).
  - exact open_files_ok_example.
  - vm_compute. reflexivity.
Defined.

Example torn_append_file :
  disk (fst (fst torn_append)) !! log_file example_platform example_logs "d" "v" =
    Some ["001"; "000"]%byte
  /\ snd torn_append = Some (ErrBadHeaderWrite ErrWrite).
Proof. vm_compute. split; reflexivity. Qed.

Lemma getLogFile_opens_once_witness :
  getLogFile example_platform failing_os (snd (fst opened_log)) "d" "v" =
    (failing_os, snd (fst opened_log), Ok (mkFlog "/data/mutationlogs/d-v"))
  /\ forall t p e,
       snd (Append example_platform failing_os (snd (fst opened_log)) t "d" "v" p)
         <> Some (ErrAppendOpen e).
Proof.
  apply (getLogFile_opens_once example_platform fresh_os example_logs "d" "v"
           (fst (fst opened_log)) (snd (fst opened_log)) (mkFlog "/data/mutationlogs/d-v")).
  vm_compute. reflexivity.
Defined.


(** The three answers of [os.Stat]: a missing path is made a
    directory; a path held by a regular file and a path that cannot be
    examined are taken as found. *)
Example newWriteLogs_of_examples :
  newWriteLogs example_platform fresh_os example_config =
    (mkOS ∅ {[ "/data/mutationlogs" ]} [] ∅, Ok (example_logs, true))
  /\ newWriteLogs example_platform occupied_os example_config =
       (occupied_os, Ok (example_logs, false))
  /\ newWriteLogs example_platform closed_os example_config =
       (closed_os, Ok (example_logs, false)).
Proof.
  vm_compute. repeat split; reflexivity.
Qed.

Lemma Equal_iff_same_path_witness :
  Equal example_platform example_logs example_config = true
  /\ (Equal example_platform example_logs renamed_config = true <->
      exists p ta tb, parseConfig example_platform example_config = Ok (p, ta)
                      /\ parseConfig example_platform renamed_config = Ok (p, tb)).
Proof.
  apply (Equal_iff_same_path example_platform fresh_os example_config renamed_config
           (fst new_logs) example_logs true).
  vm_compute. reflexivity.
Defined.

Example renamed_config_is_duplicate :
  Equal example_platform example_logs renamed_config = true.
Proof. vm_compute. reflexivity. Qed.

End FilelogFacts.

(** ** The storage manager *)

Module StorageFacts.

Import Dvid Storage.

Section ManagerFacts.

Context {engines : Engines}.

Local Abbreviation manager := (managerT Store GraphDB Cache).

(** *** Facts about map iteration *)

Lemma iter_lookup {V : Type} (m : gmap string V) k v :
  (k, v) ∈ iter V m <-> m !! k = Some v.
Proof. rewrite (iter_perm V m). apply elem_of_map_to_list. Qed.

Lemma iter_NoDup {V : Type} (m : gmap string V) : NoDup ((iter V m).*1).
Proof.
  rewrite (iter_perm V m). apply NoDup_fst_map_to_list.
Qed.

Lemma iter_length {V : Type} (m : gmap string V) : length (iter V m) = size m.
Proof. rewrite (iter_perm V m). apply length_map_to_list. Qed.

Lemma find_duplicate_Some m c y :
  find_duplicate m c = Some y ->
  exists sy, stores m !! y = Some sy /\ Equal sy c = true.
Proof.
  unfold find_duplicate.
  destruct (List.find _ _) as [[k s]|] eqn:E; [|discriminate].
  intros H. injection H as <-. apply find_some in E as [Hin He].
  exists s. split; [|exact He].
  apply iter_lookup. now apply list_elem_of_In.
Qed.

Lemma find_duplicate_None m c y sy :
  find_duplicate m c = None -> stores m !! y = Some sy -> Equal sy c = false.
Proof.
  unfold find_duplicate.
  destruct (List.find _ _) as [[k s]|] eqn:E; [discriminate|].
  intros _ Hy. apply iter_lookup, list_elem_of_In in Hy.
  apply (find_none _ _ E (y, sy) Hy).
Qed.

(** *** The default store survives every call *)

Lemma open_store_default_kept m0 b alias c o o' e :
  default_kept m0 o -> open_store b alias c o = (o', e) ->
  default_kept m0 o' /\ (e = None -> is_Some (lastStore o')).
Proof.
  intros (Hs & Hd & Hg). unfold open_store.
  destruct (find_duplicate (mgr o) c).
  { intros H. injection H as <- <-. split; [now split|discriminate]. }
  destruct (NewStore (world o) c) as [w [[store created]|]].
  2:{ intros H. injection H as <- <-. split; [now split|discriminate]. }
  destruct (String.eqb alias (Metadata b)); destruct (String.eqb alias (DefaultKVDB b));
    destruct (String.eqb alias (DefaultLog b)); try destruct (isWriteLog store);
    cbn [fst snd mgr gotDefault]; intros H; injection H as <- <-;
    (split; [unfold default_kept; cbn; repeat split; eauto | first [discriminate | cbn; eauto]]).
Qed.

Lemma open_stores_default_kept m0 b l :
  forall o o' e,
  default_kept m0 o -> open_stores b l o = (o', e) ->
  default_kept m0 o' /\ (e = None -> l <> [] -> is_Some (lastStore o')).
Proof.
  induction l as [|[alias c] l IH]; intros o o' e Hk; cbn [open_stores].
  - intros H. injection H as <- <-. split; [assumption|]. intros _ Hl. now elim Hl.
  - destruct (open_store b alias c o) as [o1 [e1|]] eqn:E1.
    + intros H. injection H as <- <-.
      apply (open_store_default_kept m0) in E1 as [Hk1 _]; [|assumption].
      split; [assumption|discriminate].
    + apply (open_store_default_kept m0) in E1 as [Hk1 Hlast]; [|assumption].
      intros H. destruct l as [|kc l'].
      * cbn [open_stores] in H. injection H as <- <-. split; [assumption|]. auto.
      * destruct (IH _ _ _ Hk1 H) as [Hk' Hlast']. split; [assumption|].
        intros He _. apply Hlast'; [assumption|discriminate].
Qed.

Lemma setup_graph_defaultKV m c m' r :
  setup_graph m c = (m', r) -> defaultKV m' = defaultKV m /\ setup m' = setup m.
Proof.
  unfold setup_graph. destruct (assignedStoreByType m "labelgraph") as [[kvdb|]|e].
  - destruct (isOrdered kvdb); cbn [negb].
    + destruct (NewGraphStore kvdb) as [g|].
      * destruct (isGraphSetter g); cbn [negb];
          [destruct (isGraphGetter g); cbn [negb]|];
          intros H; injection H as <- <-; now split.
      * intros H; injection H as <- <-; now split.
    + intros H; injection H as <- <-; now split.
  - intros H; injection H as <- <-; now split.
  - intros H; injection H as <- <-; now split.
Qed.

(** After the opening loop [Initialize] no longer touches the default
    store: every state it can end in has the default store of [Hany]. *)
Ltac after_opening Hany :=
  destruct (gotMetadata _); cbn [negb];
  destruct (setupGroupcache _) as [? [?|]]; cbn [fst snd];
  try (apply Hany; reflexivity);
  destruct (assign_stores _ _ _) as [? [?|]]; cbn [fst snd];
  try (apply Hany; reflexivity);
  destruct (assign_logs _ _ _) as [? [?|]]; cbn [fst snd];
  try (apply Hany; reflexivity);
  let Egr := fresh "Egr" in
  destruct (setup_graph _ _) as [? ?] eqn:Egr; cbn [fst snd];
  apply setup_graph_defaultKV in Egr as [Egr _]; apply Hany; rewrite Egr; reflexivity.

(** [Initialize] never leaves a manager that is set up without a
    default key-value store. *)
Lemma Initialize_default_present w m b :
  default_present m -> default_present (snd (fst (Initialize w m b))).
Proof.
  intros Hm. unfold Initialize.
  set (o0 := mkOpening w (with_stores ∅ m) false false false false false None).
  assert (Hk0 : default_kept m o0).
  { unfold default_kept. cbn. repeat split; auto. discriminate. }
  destruct (open_stores b (iter StoreConfig (Stores b)) o0) as [o [e|]] eqn:Eo.
  { apply (open_stores_default_kept m) in Eo as [(Hs & Hd & _) _]; [|assumption].
    cbn [fst snd]. intros Hset. rewrite Hs in Hset.
    destruct Hd as [-> | Hd]; auto. }
  apply (open_stores_default_kept m) in Eo as [(Hs & Hd & Hg) Hlast]; [|assumption].
  assert (Hfail : default_present (mgr o)).
  { intros Hset. rewrite Hs in Hset. destruct Hd as [-> | Hd]; auto. }
  destruct (gotDefault o) eqn:Eg; cbn [negb].
  - specialize (Hg eq_refl).
    assert (Hany : forall m1 : manager, defaultKV m1 = defaultKV (mgr o) ->
                   default_present m1).
    { intros m1 E _. rewrite E. exact Hg. }
    after_opening Hany.
  - destruct (Nat.eqb_spec (size (Stores b)) 1) as [Hone|Hmany]; [|exact Hfail].
    assert (Hl : is_Some (lastStore o)).
    { apply Hlast; [reflexivity|]. intros Hnil. apply (f_equal length) in Hnil.
      rewrite iter_length, Hone in Hnil. discriminate. }
    assert (Hany : forall m1 : manager, defaultKV m1 = lastStore o -> default_present m1).
    { intros m1 E _. rewrite E. exact Hl. }
    after_opening Hany.
Qed.

Lemma reachable_default_present m : reachable m -> default_present m.
Proof.
  induction 1 as [|w m b _ IH|m _ _].
  - discriminate.
  - now apply Initialize_default_present.
  - discriminate.
Qed.

(** C5.  Once the storage manager is set up, [GetAssignedStore]
    resolves the store as the spec lays down: the per-instance
    assignment, else the per-datatype assignment, else the default store
    (which is there whenever the manager is set up); a data instance
    served by groupcache gets that store through [wrapGroupcache]. *)
Theorem GetAssignedStore_resolves (m : manager) (dataname root typename : string) :
  reachable m -> setup m = true ->
  exists s,
    resolve_store m dataname root typename = Ok s
    /\ GetAssignedStore m dataname root typename =
         Ok (if decide (GetDataSpecifier dataname root ∈ supported (gcache m))
             then fst (wrapGroupcache (Some s) (cache (gcache m)))
             else Some s).
Proof.
  intros Hr Hs. destruct (reachable_default_present m Hr Hs) as [d Hd].
  unfold resolve_store, GetAssignedStore, assignedStoreByType. rewrite Hs. cbn [negb].
  destruct (instanceStore m !! GetDataSpecifier dataname root) as [s|].
  { exists s. split; [reflexivity|]. now destruct (decide _). }
  destruct (datatypeStore m !! typename) as [s|].
  { exists s. split; [reflexivity|]. now destruct (decide _). }
  rewrite Hd. exists d. split; [reflexivity|]. now destruct (decide _).
Qed.

(** C8.  In a manager that is set up, when neither the data instance
    nor its datatype has a log assigned and no default log is
    configured, [GetAssignedLog] returns a nil log and a nil error. *)
Theorem GetAssignedLog_nil_without_default (m : manager) (dataname root typename : string) :
  setup m = true ->
  instanceLog m !! GetDataSpecifier dataname root = None ->
  datatypeLog m !! typename = None ->
  defaultLog m = None ->
  GetAssignedLog m dataname root typename = Ok None.
Proof.
  intros Hs Hi Ht Hd. unfold GetAssignedLog, assignedLogByType.
  rewrite Hs, Hi, Ht, Hd. reflexivity.
Qed.

(** *** Duplicate configurations *)

Lemma open_store_cases b alias c o o' e :
  open_store b alias c o = (o', e) ->
  setup (mgr o') = setup (mgr o)
  /\ match e with
     | Some err =>
         (exists y, err = ErrDuplicate alias y /\ find_duplicate (mgr o) c = Some y)
         \/ (err = ErrBadStore alias /\ snd (NewStore (world o) c) = None)
         \/ (err = ErrNotWriteLog alias /\ alias = DefaultLog b /\
             exists s, opened_from c s /\ isWriteLog s = false)
     | None =>
         find_duplicate (mgr o) c = None
         /\ exists s, opened_from c s /\ stores (mgr o') = <[alias := s]> (stores (mgr o))
     end.
Proof.
  unfold open_store.
  destruct (find_duplicate (mgr o) c) as [y|] eqn:Ef.
  { intros H. injection H as <- <-. split; [reflexivity|]. left. eauto. }
  destruct (NewStore (world o) c) as [w [[store created]|]] eqn:En.
  2:{ intros H. injection H as <- <-. split; [reflexivity|]. right. left.
      split; reflexivity. }
  assert (Hop : opened_from c store) by (exists (world o), w, created; exact En).
  destruct (String.eqb alias (Metadata b)); destruct (String.eqb alias (DefaultKVDB b));
    destruct (String.eqb_spec alias (DefaultLog b)) as [El|El];
    try destruct (isWriteLog store) eqn:Ew;
    cbn [fst snd mgr]; intros H; injection H as <- <-; cbn;
    (split; [reflexivity|]); eauto 10.
Qed.

Lemma open_stores_duplicate b a a' ca ca' :
  a <> a' -> Stores b !! a = Some ca -> Stores b !! a' = Some ca' ->
  duplicates ca ca' -> duplicates ca' ca ->
  forall l o,
  opening_ok b l o -> duplicate_ahead a a' ca ca' l o ->
  exists o' e,
    open_stores b l o = (o', Some e)
    /\ setup (mgr o') = setup (mgr o) /\ opening_error b e.
Proof.
  intros Hne Ha Ha' Hdup Hdup'.
  induction l as [|[x cx] l IH]; intros o (Hst & Hall & Hnd & Hfresh) Hahead.
  { destruct Hahead as [[H _]|[[_ H]|[_ H]]]; now apply elem_of_nil in H. }
  cbn [open_stores].
  apply Forall_cons in Hall as [Hx Hall]. cbn [fst snd] in Hx.
  cbn [fmap list_fmap fst] in Hnd, Hfresh.
  apply NoDup_cons in Hnd as [Hxl Hnd].
  destruct (open_store b x cx o) as [o1 [e|]] eqn:E1;
    apply open_store_cases in E1 as [Hset Hcase].
  - exists o1, e. split; [reflexivity|]. split; [assumption|].
    destruct Hcase as [(y & -> & Hf)|[[-> Hf]|(-> & Hlog & s & Hop & Hw)]].
    + left. apply find_duplicate_Some in Hf as (sy & Hy & He).
      destruct (Hst y sy Hy) as (cy & Hcy & Hop).
      exists x, y, cx, cy, sy. repeat split; auto.
      intros ->. rewrite (Hfresh y) in Hy; [discriminate|]. apply elem_of_cons. now left.
    + right. left. exists x, cx, (world o). auto.
    + right. right. exists x, cx, s. auto.
  - destruct Hcase as (Hnone & s & Hop & Hstores).
    destruct (IH o1) as (o' & e & Hrun & Hset' & Herr).
    + split; [|split; [|split]]; auto.
      * intros y sy. rewrite Hstores, lookup_insert.
        destruct (decide (x = y)) as [<-|Hxy].
        -- intros H. injection H as <-. eauto.
        -- apply Hst.
      * intros y Hy. rewrite Hstores, lookup_insert_ne.
        -- apply Hfresh. apply elem_of_cons. now right.
        -- intros ->. contradiction.
    + unfold duplicate_ahead in *. rewrite Hstores.
      assert (Hkeep : forall y, is_Some (stores (mgr o) !! y) ->
                      is_Some (<[x := s]> (stores (mgr o)) !! y)).
      { intros y [sy Hy]. rewrite lookup_insert. destruct (decide (x = y)); eauto. }
      assert (Hnew : is_Some (<[x := s]> (stores (mgr o)) !! x)).
      { rewrite lookup_insert_eq. eauto. }
      destruct Hahead as [[H1 H2]|[[[sa H1] H2]|[[sa' H1] H2]]].
      * apply elem_of_cons in H1 as [H1|H1]; apply elem_of_cons in H2 as [H2|H2].
        -- injection H1 as -> ->. injection H2 as -> ->. contradiction.
        -- injection H1 as -> ->. right. left. auto.
        -- injection H2 as -> ->. right. right. auto.
        -- left. auto.
      * apply elem_of_cons in H2 as [H2|H2].
        -- injection H2 as -> ->. exfalso.
           destruct (Hst a sa H1) as (c0 & Hc0 & Hop0).
           rewrite Ha in Hc0. injection Hc0 as <-.
           pose proof (find_duplicate_None _ _ _ _ Hnone H1) as Hno.
           rewrite (Hdup sa Hop0) in Hno. discriminate.
        -- right. left. eauto.
      * apply elem_of_cons in H2 as [H2|H2].
        -- injection H2 as -> ->. exfalso.
           destruct (Hst a' sa' H1) as (c0 & Hc0 & Hop0).
           rewrite Ha' in Hc0. injection Hc0 as <-.
           pose proof (find_duplicate_None _ _ _ _ Hnone H1) as Hno.
           rewrite (Hdup' sa' Hop0) in Hno. discriminate.
        -- right. right. eauto.
    + exists o', e. rewrite Hrun. split; [reflexivity|]. split; [congruence|assumption].
Qed.

Lemma Initialize_opening_error (w : W) (m : manager) (b : Backend GroupcacheConfig)
    (a a' : string) (ca ca' : StoreConfig) :
  a <> a' -> Stores b !! a = Some ca -> Stores b !! a' = Some ca' ->
  duplicates ca ca' -> duplicates ca' ca ->
  exists e,
    snd (Initialize w m b) = (false, Some e)
    /\ setup (snd (fst (Initialize w m b))) = setup m
    /\ opening_error b e.
Proof.
  intros Hne Ha Ha' Hdup Hdup'. unfold Initialize.
  set (o0 := mkOpening w (with_stores ∅ m) false false false false false None).
  destruct (open_stores_duplicate b a a' ca ca' Hne Ha Ha' Hdup Hdup'
              (iter StoreConfig (Stores b)) o0) as (o' & e & Hrun & Hset & Herr).
  - split; [|split; [|split]].
    + intros x s. cbn. now rewrite lookup_empty.
    + apply Forall_forall. intros [k c] Hin. now apply iter_lookup.
    + apply iter_NoDup.
    + intros x _. cbn. apply lookup_empty.
  - left. split; now apply iter_lookup.
  - rewrite Hrun. cbn [fst snd]. exists e. split; [reflexivity|].
    split; [|assumption]. rewrite Hset. reflexivity.
Qed.

(** C7 (as the code has it).  When two distinct aliases of the backend
    have configurations that a store opened from either takes for its
    own, [Initialize] returns an error and leaves the manager not set
    up.  The error names a pair of distinct aliases whose
    configurations are duplicates, unless it was pre-empted by a store
    that failed to open or by a default log that is no write log. *)
Theorem Initialize_rejects_duplicates (w : W) (m : manager) (b : Backend GroupcacheConfig)
    (a a' : string) (ca ca' : StoreConfig) :
  a <> a' -> Stores b !! a = Some ca -> Stores b !! a' = Some ca' ->
  duplicates ca ca' -> duplicates ca' ca ->
  setup m = false ->
  exists e,
    snd (Initialize w m b) = (false, Some e)
    /\ setup (snd (fst (Initialize w m b))) = false
    /\ opening_error b e.
Proof.
  intros Hne Ha Ha' Hdup Hdup' Hs.
  destruct (Initialize_opening_error w m b a a' ca ca' Hne Ha Ha' Hdup Hdup')
    as (e & Hres & Hset & Herr).
  exists e. rewrite Hset. auto.
Qed.

(** When every store of the backend opens and the default log, if
    any, is a write log, the error does name a duplicate pair. *)
Corollary Initialize_names_duplicate_pair (w : W) (m : manager)
    (b : Backend GroupcacheConfig) (a a' : string) (ca ca' : StoreConfig) :
  a <> a' -> Stores b !! a = Some ca -> Stores b !! a' = Some ca' ->
  duplicates ca ca' -> duplicates ca' ca ->
  (forall x cx w0, Stores b !! x = Some cx -> snd (NewStore w0 cx) <> None) ->
  (forall cx s, Stores b !! DefaultLog b = Some cx -> opened_from cx s ->
     isWriteLog s = true) ->
  exists x y cx cy sy,
    snd (Initialize w m b) = (false, Some (ErrDuplicate x y))
    /\ x <> y /\ Stores b !! x = Some cx /\ Stores b !! y = Some cy
    /\ opened_from cy sy /\ Equal sy cx = true.
Proof.
  intros Hne Ha Ha' Hdup Hdup' Hopen Hlog.
  destruct (Initialize_opening_error w m b a a' ca ca' Hne Ha Ha' Hdup Hdup')
    as (e & Hres & _ & Herr).
  destruct Herr as [(x & y & cx & cy & sy & -> & Hxy & Hx & Hy & Hop & He)
                   |[(x & cx & w0 & _ & Hx & Hnone)
                    |(x & cx & s & _ & -> & Hx & Hop & Hw)]].
  - exists x, y, cx, cy, sy. repeat split; assumption.
  - now elim (Hopen x cx w0 Hx).
  - rewrite (Hlog cx s Hx Hop) in Hw. discriminate.
Qed.

(** The lookup itself has no error for a missing default store: on a
    manager record that is set up and has none, which no sequence of
    calls produces, it returns a nil store and a nil error. *)
Remark GetAssignedStore_nil_default (m : manager) (dataname root typename : string) :
  setup m = true ->
  instanceStore m !! GetDataSpecifier dataname root = None ->
  datatypeStore m !! typename = None ->
  defaultKV m = None ->
  GetDataSpecifier dataname root ∉ supported (gcache m) ->
  GetAssignedStore m dataname root typename = Ok None.
Proof.
  intros Hs Hi Ht Hd Hg. unfold GetAssignedStore, assignedStoreByType.
  rewrite Hs, Hi, Ht, Hd. cbn [negb]. now destruct (decide _).
Qed.

(** *** The lookups that take no data instance *)

(** X1.  On every state the manager can reach, [DefaultKVStore]
    succeeds exactly when the manager is set up: its second error, a
    missing default store, never shows, and before [Initialize] and
    after [Close] it reports a manager that is not initialized. *)
Theorem DefaultKVStore_iff_setup (m : manager) :
  reachable m ->
  (setup m = true -> exists s, defaultKV m = Some s /\ DefaultKVStore m = Ok s)
  /\ (setup m = false -> DefaultKVStore m = Err NotInitialized)
  /\ DefaultKVStore (Close m) = Err NotInitialized.
Proof.
  intros Hr. split; [|split].
  - intros Hs. destruct (reachable_default_present m Hr Hs) as [s Hd].
    exists s. split; [exact Hd|]. unfold DefaultKVStore. now rewrite Hs, Hd.
  - intros Hs. unfold DefaultKVStore. now rewrite Hs.
  - reflexivity.
Qed.

(** *** Logs are write logs *)

Lemma open_store_logs b alias c o o' e :
  open_store b alias c o = (o', e) ->
  logs_are_write_logs (mgr o) -> logs_are_write_logs (mgr o').
Proof.
  unfold open_store, logs_are_write_logs.
  destruct (find_duplicate (mgr o) c).
  { intros H. injection H as <- <-. auto. }
  destruct (NewStore (world o) c) as [w [[store created]|]].
  2:{ intros H. injection H as <- <-. auto. }
  destruct (String.eqb alias (Metadata b)); destruct (String.eqb alias (DefaultKVDB b));
    destruct (String.eqb alias (DefaultLog b)); try destruct (isWriteLog store) eqn:Ew;
    cbn [fst snd mgr]; intros H; injection H as <- <-; cbn;
    intros (Hd & Hi & Ht); (split; [|split; assumption]);
    intros s Hs; first [ injection Hs as <-; exact Ew | discriminate | now apply Hd ].
Qed.

Lemma open_stores_logs b l :
  forall o o' e,
  open_stores b l o = (o', e) ->
  logs_are_write_logs (mgr o) -> logs_are_write_logs (mgr o').
Proof.
  induction l as [|[alias c] l IH]; intros o o' e; cbn [open_stores].
  - intros H. now injection H as <- <-.
  - destruct (open_store b alias c o) as [o1 [e1|]] eqn:E1.
    + intros H. injection H as <- <-. now apply (open_store_logs _ _ _ _ _ _ E1).
    + intros H Hl. apply (IH _ _ _ H). now apply (open_store_logs _ _ _ _ _ _ E1).
Qed.

Lemma assign_write_logs dataspec store it it' :
  isWriteLog store = true ->
  assign dataspec store it = Ok it' ->
  map_Forall (fun _ s => isWriteLog s = true) (fst it) ->
  map_Forall (fun _ s => isWriteLog s = true) (snd it) ->
  map_Forall (fun _ s => isWriteLog s = true) (fst it')
  /\ map_Forall (fun _ s => isWriteLog s = true) (snd it').
Proof.
  intros Hw. unfold assign.
  destruct (Split (Trim dataspec quote) colon) as [|p0 [|p1 [|p2 ps]]];
    try discriminate; intros H; injection H as <-; cbn [fst snd]; intros Hi Ht;
    (split; [|]); try assumption; now apply map_Forall_insert_2.
Qed.

Lemma assign_logs_write_logs m l :
  forall it it' e,
  assign_logs m l it = (it', e) ->
  map_Forall (fun _ s => isWriteLog s = true) (fst it) ->
  map_Forall (fun _ s => isWriteLog s = true) (snd it) ->
  map_Forall (fun _ s => isWriteLog s = true) (fst it')
  /\ map_Forall (fun _ s => isWriteLog s = true) (snd it').
Proof.
  induction l as [|[dataspec alias] l IH]; intros it it' e; cbn [assign_logs].
  - intros H. injection H as <- <-. auto.
  - destruct (String.eqb dataspec "default"); [apply IH|].
    destruct (stores m !! alias) as [store|]; [|intros H; injection H as <- <-; auto].
    destruct (isWriteLog store) eqn:Ew; cbn [negb]; [|intros H; injection H as <- <-; auto].
    destruct (assign dataspec store it) as [it1|e1] eqn:Ea;
      [|intros H; injection H as <- <-; auto].
    intros H Hi Ht. destruct (assign_write_logs _ _ _ _ Ew Ea Hi Ht) as [Hi1 Ht1].
    now apply (IH _ _ _ H).
Qed.

Lemma setup_graph_logs m c m' r :
  setup_graph m c = (m', r) ->
  defaultLog m' = defaultLog m /\ instanceLog m' = instanceLog m
  /\ datatypeLog m' = datatypeLog m /\ stores m' = stores m
  /\ metadataStore m' = metadataStore m /\ datatypeStore m' = datatypeStore m
  /\ instanceStore m' = instanceStore m /\ gcache m' = gcache m.
Proof.
  unfold setup_graph. destruct (assignedStoreByType m "labelgraph") as [[kvdb|]|e].
  - destruct (isOrdered kvdb); cbn [negb].
    + destruct (NewGraphStore kvdb) as [g|].
      * destruct (isGraphSetter g); cbn [negb];
          [destruct (isGraphGetter g); cbn [negb]|];
          intros H; injection H as <- <-; now repeat split.
      * intros H; injection H as <- <-; now repeat split.
    + intros H; injection H as <- <-; now repeat split.
  - intros H; injection H as <- <-; now repeat split.
  - intros H; injection H as <- <-; now repeat split.
Qed.

(** The stages of [Initialize] after the opening loop, one goal for
    each way it can end. *)
Ltac Initialize_stages :=
  repeat match goal with
  | |- context [if negb (gotMetadata ?o) then _ else _] =>
      destruct (gotMetadata o) eqn:?; cbn [negb]
  | |- context [setupGroupcache ?x] =>
      destruct (setupGroupcache x) as [? [?|]] eqn:?; cbn [fst snd]
  | |- context [assign_stores ?x ?y ?z] =>
      destruct (assign_stores x y z) as [? [?|]] eqn:?; cbn [fst snd]
  | |- context [assign_logs ?x ?y ?z] =>
      destruct (assign_logs x y z) as [? [?|]] eqn:?; cbn [fst snd]
  | |- context [setup_graph ?x ?y] =>
      destruct (setup_graph x y) as [? [? ?]] eqn:?; cbn [fst snd]
  end.

Lemma Initialize_logs w m b :
  logs_are_write_logs m -> logs_are_write_logs (snd (fst (Initialize w m b))).
Proof.
  intros Hm. unfold Initialize.
  set (o0 := mkOpening w (with_stores ∅ m) false false false false false None).
  destruct (open_stores b (iter StoreConfig (Stores b)) o0) as [o [e|]] eqn:Eo;
    apply open_stores_logs in Eo; try exact Hm; cbn [fst snd]; [exact Eo|].
  assert (Hany : forall m1 : manager,
             defaultLog m1 = defaultLog (mgr o) ->
             (instanceLog m1 = instanceLog (mgr o) /\ datatypeLog m1 = datatypeLog (mgr o)
              \/ map_Forall (fun _ s => isWriteLog s = true) (instanceLog m1)
                 /\ map_Forall (fun _ s => isWriteLog s = true) (datatypeLog m1)) ->
             logs_are_write_logs m1).
  { intros m1 Ed Hl. destruct Eo as (Hd & Hi & Ht). unfold logs_are_write_logs.
    rewrite Ed. split; [exact Hd|]. destruct Hl as [[-> ->]|[Hi1 Ht1]]; auto. }
  destruct (gotDefault o); cbn [negb];
    [|destruct (Nat.eqb (size (Stores b)) 1); [|apply Hany; auto]];
    Initialize_stages;
    try (apply Hany; [reflexivity | left; split; reflexivity]);
    repeat match goal with
    | H : assign_logs _ _ _ = _ |- _ =>
        apply assign_logs_write_logs in H;
          [|cbn [fst snd]; apply map_Forall_empty|cbn [fst snd]; apply map_Forall_empty]
    | H : setup_graph _ _ = _ |- _ =>
        apply setup_graph_logs in H as (Hgd & Hgi & Hgt & _)
    end;
    apply Hany; cbn; try rewrite Hgd; try rewrite Hgi; try rewrite Hgt; cbn;
    try reflexivity; right; assumption.
Qed.

Lemma reachable_logs m : reachable m -> logs_are_write_logs m.
Proof.
  induction 1 as [|w m b _ IH|m _ _].
  - repeat split; cbn; intros; first [discriminate | now rewrite lookup_empty in *].
  - now apply Initialize_logs.
  - repeat split; cbn; intros; first [discriminate | now rewrite lookup_empty in *].
Qed.

(** X2.  On every state the manager can reach, a log handed out by
    [GetAssignedLog] or [DefaultLogStore] is a store that passed the
    [WriteLog] assertion: no configuration makes the manager return a
    store of another kind as a log. *)
Theorem assigned_logs_are_write_logs (m : manager) (dataname root typename : string)
    (l : Store) :
  reachable m ->
  (GetAssignedLog m dataname root typename = Ok (Some l) -> isWriteLog l = true)
  /\ (DefaultLogStore m = Ok l -> isWriteLog l = true).
Proof.
  intros Hr. destruct (reachable_logs m Hr) as (Hd & Hi & Ht). split.
  - unfold GetAssignedLog, assignedLogByType. destruct (setup m); cbn [negb]; [|discriminate].
    destruct (instanceLog m !! GetDataSpecifier dataname root) as [s|] eqn:Ei.
    { intros H. injection H as <-. exact (Hi _ _ Ei). }
    destruct (datatypeLog m !! typename) as [s|] eqn:Et.
    { intros H. injection H as <-. exact (Ht _ _ Et). }
    destruct (defaultLog m) as [s|] eqn:Ed; [|discriminate].
    intros H. injection H as <-. exact (Hd _ eq_refl).
  - unfold DefaultLogStore. destruct (setup m); cbn [negb]; [|discriminate].
    destruct (defaultLog m) as [s|] eqn:Ed; [|discriminate].
    intros H. injection H as <-. exact (Hd _ eq_refl).
Qed.

(** *** What a successful [Initialize] establishes *)

Lemma open_store_tracked b alias c o o' :
  open_store b alias c o = (o', None) ->
  defaults_tracked b o ->
  defaults_tracked b o'
  /\ lastStore o' = stores (mgr o') !! alias /\ is_Some (lastStore o').
Proof.
  unfold open_store, defaults_tracked.
  destruct (find_duplicate (mgr o) c); [discriminate|].
  destruct (NewStore (world o) c) as [w [[store created]|]]; [|discriminate].
  destruct (String.eqb_spec alias (Metadata b)) as [Em|Em];
    destruct (String.eqb_spec alias (DefaultKVDB b)) as [Ed|Ed];
    destruct (String.eqb alias (DefaultLog b)); try destruct (isWriteLog store);
    cbn [fst snd mgr]; try discriminate; intros H; injection H as <-; cbn;
    intros [Hd Hm];
    (split; [split|split; [now rewrite lookup_insert_eq|eauto]]);
    try (rewrite <- Em); try (rewrite <- Ed);
    try (rewrite lookup_insert_eq; split; [eauto|reflexivity]);
    try (rewrite lookup_insert_ne by congruence; assumption).
Qed.

Lemma open_stores_tracked b l :
  forall o o',
  open_stores b l o = (o', None) ->
  defaults_tracked b o -> defaults_tracked b o'.
Proof.
  induction l as [|[alias c] l IH]; intros o o'; cbn [open_stores].
  - intros H. now injection H as <-.
  - destruct (open_store b alias c o) as [o1 [e1|]] eqn:E1; [discriminate|].
    intros H Ht. apply (IH _ _ H). now apply (open_store_tracked _ _ _ _ _ E1).
Qed.

Lemma open_stores_opened b l :
  forall o o',
  open_stores b l o = (o', None) -> NoDup (l.*1) ->
  (forall x c, (x, c) ∈ l -> exists s, stores (mgr o') !! x = Some s /\ opened_from c s)
  /\ (forall x, x ∉ l.*1 -> stores (mgr o') !! x = stores (mgr o) !! x).
Proof.
  induction l as [|[alias c] l IH]; intros o o'; cbn [open_stores].
  - intros H _. injection H as <-. split; [|reflexivity].
    intros x c Hin. now apply elem_of_nil in Hin.
  - destruct (open_store b alias c o) as [o1 [e1|]] eqn:E1; [discriminate|].
    intros H Hnd. cbn [fmap list_fmap fst] in Hnd. apply NoDup_cons in Hnd as [Hfresh Hnd].
    destruct (IH _ _ H Hnd) as [Hin Hout].
    apply open_store_cases in E1 as (_ & _ & s & Hop & Hst).
    split.
    + intros x cx Hx. apply elem_of_cons in Hx as [Hx|Hx].
      * injection Hx as -> ->. exists s. split; [|exact Hop].
        rewrite (Hout _ Hfresh), Hst. apply lookup_insert_eq.
      * now apply Hin.
    + intros x Hx. cbn [fmap list_fmap fst] in Hx. apply not_elem_of_cons in Hx as [Hne Hx].
      rewrite (Hout _ Hx), Hst. now apply lookup_insert_ne.
Qed.

(** The stores after a loop that opened every store of the backend. *)
Lemma opened_backend b o0 o :
  stores (mgr o0) = ∅ ->
  open_stores b (iter StoreConfig (Stores b)) o0 = (o, None) ->
  forall x,
    match Stores b !! x with
    | Some c => exists s, stores (mgr o) !! x = Some s /\ opened_from c s
    | None => stores (mgr o) !! x = None
    end.
Proof.
  intros H0 Hopen x.
  destruct (open_stores_opened _ _ _ _ Hopen (iter_NoDup _)) as [Hin Hout].
  destruct (Stores b !! x) as [c|] eqn:Ex.
  - apply Hin. now apply iter_lookup.
  - rewrite Hout, H0; [apply lookup_empty|].
    intros Hx. apply list_elem_of_fmap in Hx as ([x' c] & -> & Hx).
    apply iter_lookup in Hx. cbn in Ex. congruence.
Qed.

Lemma setup_graph_success m c m' c' :
  setup_graph m c = (m', (c', None)) ->
  c' = c
  /\ exists kvdb g,
       assignedStoreByType m "labelgraph" = Ok (Some kvdb)
       /\ isOrdered kvdb = true /\ NewGraphStore kvdb = Some g
       /\ isGraphSetter g = true /\ isGraphGetter g = true
       /\ graphDB m' = Some g /\ graphSetter m' = Some g /\ graphGetter m' = Some g
       /\ setup m' = setup m /\ datatypeStore m' = datatypeStore m
       /\ defaultKV m' = defaultKV m.
Proof.
  unfold setup_graph. destruct (assignedStoreByType m "labelgraph") as [[kvdb|]|e];
    try discriminate.
  destruct (isOrdered kvdb) eqn:Eo; cbn [negb]; [|discriminate].
  destruct (NewGraphStore kvdb) as [g|] eqn:Eg; [|discriminate].
  destruct (isGraphSetter g) eqn:Es; cbn [negb]; [|discriminate].
  destruct (isGraphGetter g) eqn:Et; cbn [negb]; [|discriminate].
  intros H. injection H as <- <-. split; [reflexivity|].
  exists kvdb, g. now repeat split.
Qed.

Lemma setup_graph_failure m c m' c' e :
  setup m = true ->
  setup_graph m c = (m', (c', Some e)) -> graph_setup_fails m.
Proof.
  intros Hs. unfold setup_graph, graph_setup_fails, assignedStoreByType.
  rewrite Hs. cbn [negb].
  destruct (datatypeStore m !! "labelgraph") as [kvdb|]; [|destruct (defaultKV m) as [kvdb|]];
    try (intros _; exact I);
    (destruct (isOrdered kvdb); cbn [negb]; [|intros _; now left]);
    (destruct (NewGraphStore kvdb) as [g|]; [|intros _; now right]);
    (destruct (isGraphSetter g); cbn [negb]; [|intros _; right; now left]);
    (destruct (isGraphGetter g); cbn [negb]; [discriminate|intros _; right; now right]).
Qed.

(** X3.  When [Initialize] returns no error, the manager is set up
    and its graph store is in place: [GraphStore] returns a database
    that [NewGraphStore] built over the store assigned to the datatype
    labelgraph, that store is an ordered key-value store, and the
    database is cached as graph setter and graph getter. *)
Theorem Initialize_success_graph (w : W) (m : manager) (b : Backend GroupcacheConfig) :
  snd (snd (Initialize w m b)) = None ->
  let m' := snd (fst (Initialize w m b)) in
  setup m' = true
  /\ exists kvdb g,
       assignedStoreByType m' "labelgraph" = Ok (Some kvdb)
       /\ isOrdered kvdb = true /\ NewGraphStore kvdb = Some g
       /\ GraphStore m' = Ok (Some g)
       /\ graphSetter m' = Some g /\ graphGetter m' = Some g
       /\ isGraphSetter g = true /\ isGraphGetter g = true.
Proof.
  cbv zeta. unfold Initialize.
  set (o0 := mkOpening w (with_stores ∅ m) false false false false false None).
  destruct (open_stores b (iter StoreConfig (Stores b)) o0) as [o [e|]] eqn:Eo;
    cbn [fst snd]; [discriminate|].
  destruct (gotDefault o); cbn [negb];
    [|destruct (Nat.eqb (size (Stores b)) 1); [|discriminate]];
    Initialize_stages; try discriminate; intros ->.
  all:
    match goal with
    | H : setup_graph _ _ = _ |- _ =>
        apply setup_graph_success in H
          as (_ & kvdb & gdb & Ha & Hord & Hg & Hgs & Hgg & Hdb & Hst & Hgt & Hset & Hdt & Hdk)
    end;
    (assert (Hs : setup m0 = true) by (rewrite Hset; reflexivity));
    (split; [exact Hs|]); exists kvdb, gdb;
    (repeat split; try assumption;
     [ revert Ha; unfold assignedStoreByType; rewrite Hs, Hdt, Hdk; cbn; trivial
     | unfold GraphStore; rewrite Hs, Hdb; reflexivity ]).
Qed.

(** The run of an [Initialize] that returned no error. *)
Lemma Initialize_success_inv (w : W) (m : manager) (b : Backend GroupcacheConfig) :
  snd (snd (Initialize w m b)) = None ->
  let m' := snd (fst (Initialize w m b)) in
  exists o m3 it m4 il,
    open_stores b (iter StoreConfig (Stores b))
      (mkOpening w (with_stores ∅ m) false false false false false None) = (o, None)
    /\ setup m' = true /\ stores m' = stores (mgr o)
    /\ (gotDefault o = true \/ size (Stores b) = 1%nat)
    /\ defaultKV m' = (if gotDefault o then defaultKV (mgr o) else lastStore o)
    /\ metadataStore m' = (if gotMetadata o then metadataStore (mgr o) else defaultKV m')
    /\ defaultLog m' = defaultLog (mgr o)
    /\ stores m3 = stores (mgr o)
    /\ assign_stores m3 (iter string (KVStore b)) (∅, ∅) = (it, None)
    /\ instanceStore m' = fst it /\ datatypeStore m' = snd it
    /\ stores m4 = stores (mgr o)
    /\ assign_logs m4 (iter string (LogStore b)) (∅, ∅) = (il, None)
    /\ instanceLog m' = fst il /\ datatypeLog m' = snd il.
Proof.
  cbv zeta. unfold Initialize.
  set (o0 := mkOpening w (with_stores ∅ m) false false false false false None).
  destruct (open_stores b (iter StoreConfig (Stores b)) o0) as [o [e|]] eqn:Eo;
    cbn [fst snd]; [discriminate|].
  destruct (gotDefault o) eqn:Egd; cbn [negb];
    [|destruct (Nat.eqb_spec (size (Stores b)) 1); [|discriminate]];
    Initialize_stages; try discriminate; intros ->.
  all:
    match goal with
    | H : setup_graph _ _ = _ |- _ =>
        pose proof (setup_graph_defaultKV _ _ _ _ H) as [Hdk Hset];
        apply setup_graph_logs in H as (Hdl & Hil & Htl & Hst & Hmd & Hdt & Hit & _)
    end;
    match goal with
    | H1 : assign_stores ?m3 _ _ = (?it, None), H2 : assign_logs ?m4 _ _ = (?il, None),
      H3 : gotMetadata _ = _ |- _ =>
        exists o, m3, it, m4, il; rewrite H3, Egd
    end;
    rewrite Hdk, Hset, Hst, Hmd, Hdl, Hit, Hdt, Hil, Htl; cbn;
    repeat split; auto.
Qed.

(** X4.  After an [Initialize] that returned no error,
    [GetStoreByAlias] finds a store for exactly the aliases of
    [backend.Stores], and the store found under an alias is one that
    [NewStore] opened from that alias's configuration. *)
Theorem Initialize_opens_every_store (w : W) (m : manager) (b : Backend GroupcacheConfig)
    (alias : string) :
  snd (snd (Initialize w m b)) = None ->
  match Stores b !! alias with
  | Some c =>
      exists s, GetStoreByAlias (snd (fst (Initialize w m b))) alias = Ok s
                /\ opened_from c s
  | None =>
      GetStoreByAlias (snd (fst (Initialize w m b))) alias = Err (NoStoreWithAlias alias)
  end.
Proof.
  intros Hok.
  destruct (Initialize_success_inv w m b Hok)
    as (o & _ & _ & _ & _ & Hopen & Hset & Hst & _).
  pose proof (fun H0 => opened_backend b _ o H0 Hopen alias) as Hx.
  specialize (Hx eq_refl).
  unfold GetStoreByAlias. rewrite Hset, Hst. cbn [negb].
  destruct (Stores b !! alias) as [c|].
  - destruct Hx as (s & -> & Hop). now exists s.
  - now rewrite Hx.
Qed.

(** X5.  After an [Initialize] that returned no error, the default
    store is the store opened under [backend.DefaultKVDB] when that
    alias is among the stores, and otherwise the single store of the
    backend; the metadata store is the store opened under
    [backend.Metadata] when that alias is among the stores, and
    otherwise the default store. *)
Theorem Initialize_default_and_metadata (w : W) (m : manager)
    (b : Backend GroupcacheConfig) :
  snd (snd (Initialize w m b)) = None ->
  let m' := snd (fst (Initialize w m b)) in
  is_Some (defaultKV m')
  /\ (if decide (is_Some (Stores b !! DefaultKVDB b))
      then defaultKV m' = stores m' !! DefaultKVDB b
      else exists alias c, Stores b = {[alias := c]} /\ defaultKV m' = stores m' !! alias)
  /\ (if decide (is_Some (Stores b !! Metadata b))
      then metadataStore m' = stores m' !! Metadata b
      else metadataStore m' = defaultKV m').
Proof.
  intros Hok. cbv zeta.
  destruct (Initialize_success_inv w m b Hok)
    as (o & _ & _ & _ & _ & Hopen & Hset & Hst & Hone & Hdk & Hmd & _).
  set (o0 := mkOpening w (with_stores ∅ m) false false false false false None) in Hopen.
  assert (Ht : defaults_tracked b o).
  { apply (open_stores_tracked _ _ _ _ Hopen). split; cbn; apply lookup_empty. }
  pose proof (opened_backend b o0 o eq_refl Hopen) as Hx.
  destruct Ht as [Htd Htm]. rewrite Hmd, Hdk, Hst.
  assert (Hdef : is_Some (if gotDefault o then defaultKV (mgr o) else lastStore o)
                 /\ if decide (is_Some (Stores b !! DefaultKVDB b))
                    then (if gotDefault o then defaultKV (mgr o) else lastStore o)
                         = stores (mgr o) !! DefaultKVDB b
                    else exists alias c, Stores b = {[alias := c]}
                         /\ (if gotDefault o then defaultKV (mgr o) else lastStore o)
                            = stores (mgr o) !! alias).
  { destruct (gotDefault o).
    - destruct Htd as [Hsome Heq]. split; [exact Hsome|].
      destruct (decide _) as [_|Hno]; [exact Heq|].
      exfalso. apply Hno. specialize (Hx (DefaultKVDB b)).
      destruct (Stores b !! DefaultKVDB b); [eauto|].
      rewrite Hx in Heq. rewrite Heq in Hsome. now destruct Hsome.
    - destruct Hone as [?|Hone]; [discriminate|].
      destruct (decide _) as [Hyes|_].
      { exfalso. specialize (Hx (DefaultKVDB b)). destruct Hyes as [c Hc].
        rewrite Hc in Hx. destruct Hx as (s & Hs & _). congruence. }
      pose proof (iter_length (Stores b)) as Hlen. rewrite Hone in Hlen.
      destruct (iter StoreConfig (Stores b)) as [|[alias c] [|? ?]] eqn:Ei; try discriminate.
      cbn [open_stores] in Hopen.
      destruct (open_store b alias c o0) as [o1 [e1|]] eqn:E1; [discriminate|].
      injection Hopen as <-.
      apply open_store_tracked in E1 as (_ & Hlast & Hsome);
        [|split; cbn; apply lookup_empty].
      split; [exact Hsome|]. exists alias, c. split; [|exact Hlast].
      apply map_eq. intros x. destruct (decide (x = alias)) as [->|Hne].
      + rewrite lookup_singleton_eq. apply iter_lookup. rewrite Ei. apply list_elem_of_here.
      + rewrite lookup_singleton_ne by congruence.
        destruct (Stores b !! x) as [cx|] eqn:Ex; [|reflexivity].
        apply iter_lookup in Ex. rewrite Ei in Ex.
        apply list_elem_of_singleton in Ex. congruence. }
  destruct Hdef as [Hsome Hdef]. split; [exact Hsome|]. split; [exact Hdef|].
  destruct (gotMetadata o).
  - destruct Htm as [Hms Heq].
    destruct (decide (is_Some (Stores b !! Metadata b))) as [_|Hno]; [exact Heq|].
    exfalso. apply Hno. specialize (Hx (Metadata b)).
    destruct (Stores b !! Metadata b); [eauto|].
    rewrite Hx in Heq. rewrite Heq in Hms. now destruct Hms.
  - destruct (decide (is_Some (Stores b !! Metadata b))) as [Hyes|_]; [|reflexivity].
    exfalso. specialize (Hx (Metadata b)). destruct Hyes as [c Hc].
    rewrite Hc in Hx. destruct Hx as (s & Hs & _). congruence.
Qed.

(** X6.  [Initialize] marks the manager as set up before it sets up
    the graph store: when a call on a manager that was not set up
    returns an error and leaves the manager set up, the error comes from
    the graph store set-up (the store assigned to labelgraph is missing
    or not ordered, [NewGraphStore] failed, or the database is no graph
    setter or getter), and the lookups answer from then on. *)
Theorem Initialize_error_after_setup (w : W) (m : manager) (b : Backend GroupcacheConfig)
    (e : error) :
  setup m = false ->
  snd (snd (Initialize w m b)) = Some e ->
  let m' := snd (fst (Initialize w m b)) in
  setup m' = true ->
  graph_setup_fails m'
  /\ AllStores m' = Ok (stores m')
  /\ forall dataname root typename,
       GetAssignedStore m' dataname root typename <> Err ErrNotInitialized.
Proof.
  intros Hm. cbv zeta. unfold Initialize.
  set (o0 := mkOpening w (with_stores ∅ m) false false false false false None).
  assert (Hk0 : default_kept m o0).
  { unfold default_kept. cbn. repeat split; auto. discriminate. }
  destruct (open_stores b (iter StoreConfig (Stores b)) o0) as [o [e0|]] eqn:Eo;
    apply (open_stores_default_kept m) in Eo as [(Hs & _) _]; try exact Hk0;
    cbn [fst snd]; rewrite Hm in Hs.
  { intros _ Hset. congruence. }
  destruct (gotDefault o); cbn [negb];
    [|destruct (Nat.eqb (size (Stores b)) 1); [|intros _ Hset; cbn in Hset; congruence]];
    Initialize_stages; try (intros _ Hset; cbn in Hset; congruence); intros -> Hset.
  all:
    match goal with
    | H : setup_graph _ _ = _ |- _ =>
        pose proof (setup_graph_logs _ _ _ _ H) as (_ & _ & _ & _ & _ & Hdt & _);
        pose proof (setup_graph_defaultKV _ _ _ _ H) as [Hdk _];
        apply setup_graph_failure in H as Hfail; [|reflexivity]
    end;
    (split; [|split]);
    [ revert Hfail; unfold graph_setup_fails, assignedStoreByType; rewrite Hset, Hdt, Hdk;
      cbn; trivial
    | unfold AllStores; rewrite Hset; reflexivity
    | intros dataname root typename; unfold GetAssignedStore, assignedStoreByType;
      rewrite Hset; cbn [negb];
      destruct (instanceStore _ !! _); [|destruct (datatypeStore _ !! _)];
      destruct (decide _); discriminate ].
Qed.

(** *** The flag that [Initialize] returns *)

Lemma open_store_created b alias c o o' :
  Stores b !! alias = Some c ->
  open_store b alias c o = (o', None) ->
  created_tracked b o -> created_tracked b o'.
Proof.
  intros Hc. unfold open_store, created_tracked.
  destruct (find_duplicate (mgr o) c); [discriminate|].
  destruct (NewStore (world o) c) as [w [[store created]|]] eqn:En; [|discriminate].
  assert (Hnew : created_from b store created) by (exists alias, c, (world o), w; auto).
  destruct (String.eqb alias (Metadata b)); destruct (String.eqb alias (DefaultKVDB b));
    destruct (String.eqb alias (DefaultLog b)); try destruct (isWriteLog store);
    cbn [fst snd mgr]; try discriminate; intros H; injection H as <-; cbn;
    intros (Hm & Hd & Hl); (split; [|split]);
    try (intros _; exists store; split; [reflexivity|exact Hnew]);
    try assumption;
    intros s Hs; injection Hs as <-; exact Hnew.
Qed.

Lemma open_stores_created b l :
  Forall (fun kc => Stores b !! fst kc = Some (snd kc)) l ->
  forall o o',
  open_stores b l o = (o', None) ->
  created_tracked b o -> created_tracked b o'.
Proof.
  induction 1 as [|[alias c] l Hc _ IH]; intros o o'; cbn [open_stores].
  - intros H. now injection H as <-.
  - destruct (open_store b alias c o) as [o1 [e1|]] eqn:E1; [discriminate|].
    intros H Ht. apply (IH _ _ H). now apply (open_store_created _ _ _ _ _ Hc E1).
Qed.

(** X26.  The flag that a successful [Initialize] returns is the
    flag of the metadata store: the manager has a metadata store, it is
    a store that [NewStore] opened from a configuration of the backend,
    and the returned [createdMetadata] is what [NewStore] reported as
    [created] for it. *)
Theorem Initialize_returns_created_flag (w : W) (m : manager)
    (b : Backend GroupcacheConfig) :
  snd (snd (Initialize w m b)) = None ->
  exists s,
    metadataStore (snd (fst (Initialize w m b))) = Some s
    /\ created_from b s (fst (snd (Initialize w m b))).
Proof.
  unfold Initialize.
  set (o0 := mkOpening w (with_stores ∅ m) false false false false false None).
  destruct (open_stores b (iter StoreConfig (Stores b)) o0) as [o [e|]] eqn:Eo;
    cbn [fst snd]; [discriminate|].
  assert (Ht : created_tracked b o).
  { apply (open_stores_created b (iter StoreConfig (Stores b))) with (o := o0);
      [|exact Eo|].
    - apply Forall_forall. intros [x c] Hin. now apply iter_lookup.
    - repeat split; cbn; intros; discriminate. }
  destruct Ht as (Hm & Hd & Hl).
  assert (Hlast : size (Stores b) = 1%nat -> is_Some (lastStore o)).
  { intros Hone.
    assert (Hk0 : default_kept m o0).
    { unfold default_kept. cbn. repeat split; auto. discriminate. }
    apply (open_stores_default_kept m) in Eo as [_ Hlast]; [|assumption].
    apply Hlast; [reflexivity|]. intros Hnil. apply (f_equal length) in Hnil.
    rewrite iter_length, Hone in Hnil. discriminate. }
  destruct (gotDefault o) eqn:Egd; cbn [negb];
    [|destruct (Nat.eqb_spec (size (Stores b)) 1) as [Hone|]; [|discriminate]];
    destruct (gotMetadata o) eqn:Egm; cbn [negb];
    Initialize_stages; try discriminate; intros ->.
  all:
    match goal with
    | H : setup_graph _ _ = _ |- _ =>
        pose proof (setup_graph_success _ _ _ _ H) as (-> & _);
        apply setup_graph_logs in H as (_ & _ & _ & _ & Hmd & _)
    end;
    rewrite Hmd; cbn.
  - now apply Hm.
  - now apply Hd.
  - now apply Hm.
  - destruct (Hlast Hone) as [s Hs]. rewrite Hs. exists s. split; [reflexivity|]. now apply Hl.
Qed.

(** *** Assignments by datatype and by data instance *)

Lemma Split_length s sep : length (Split s sep) = S (count_char sep s).
Proof.
  induction s as [|a s IH]; cbn [Split count_char]; [reflexivity|].
  destruct (Ascii.eqb a sep); cbn [length Nat.add].
  - now rewrite IH.
  - destruct (Split s sep) as [|h t]; [discriminate|]. exact IH.
Qed.

Lemma Split_no_sep s sep : count_char sep s = 0%nat -> Split s sep = [s].
Proof.
  induction s as [|a s IH]; cbn [Split count_char]; [reflexivity|].
  destruct (Ascii.eqb a sep); [discriminate|]. cbn [Nat.add]. intros H.
  now rewrite (IH H).
Qed.

Lemma Split_one_sep s sep :
  count_char sep s = 1%nat ->
  exists p0 p1,
    Split s sep = [p0; p1] /\ s = (p0 ++ String sep p1)%string
    /\ count_char sep p0 = 0%nat /\ count_char sep p1 = 0%nat.
Proof.
  induction s as [|a s IH]; cbn [Split count_char]; [discriminate|].
  destruct (Ascii.eqb_spec a sep) as [->|Hne]; cbn [Nat.add].
  - intros H. injection H as H. exists EmptyString, s.
    rewrite (Split_no_sep _ _ H). now repeat split.
  - intros H. destruct (IH H) as (p0 & p1 & -> & -> & H0 & H1).
    exists (String a p0), p1. repeat split; try assumption.
    cbn [count_char]. destruct (Ascii.eqb_spec a sep); [contradiction|exact H0].
Qed.

Lemma assign_cases (dataspec : string) (store : Store)
    (it : gmap string Store * gmap string Store) :
  match count_char colon (Trim dataspec quote) with
  | O => assign dataspec store it = Ok (fst it, <[Trim dataspec quote := store]> (snd it))
  | S O =>
      exists p0 p1,
        Trim dataspec quote = (p0 ++ String colon p1)%string
        /\ count_char colon p0 = 0%nat /\ count_char colon p1 = 0%nat
        /\ assign dataspec store it = Ok (<[GetDataSpecifier p0 p1 := store]> (fst it), snd it)
  | S (S _) => assign dataspec store it = Err (ErrBadSpec dataspec)
  end.
Proof.
  unfold assign. destruct (count_char colon (Trim dataspec quote)) as [|[|k]] eqn:Ec.
  - now rewrite (Split_no_sep _ _ Ec).
  - destruct (Split_one_sep _ _ Ec) as (p0 & p1 & Es & En & H0 & H1).
    exists p0, p1. rewrite Es. now repeat split.
  - pose proof (Split_length (Trim dataspec quote) colon) as Hl. rewrite Ec in Hl.
    destruct (Split (Trim dataspec quote) colon) as [|? [|? [|? ?]]]; try discriminate.
    reflexivity.
Qed.

(** X7.  How [Initialize] reads the name of an assignment once the
    surrounding quotes are trimmed: without a colon it assigns the store
    to the datatype of that name, with one colon to the data instance
    made of the two parts, and with more colons it rejects the
    specification. *)
Theorem assign_by_colons (dataspec : string) (store : Store)
    (it : gmap string Store * gmap string Store) :
  match count_char colon (Trim dataspec quote) with
  | O => assign dataspec store it = Ok (fst it, <[Trim dataspec quote := store]> (snd it))
  | S O =>
      exists p0 p1,
        Trim dataspec quote = (p0 ++ String colon p1)%string
        /\ count_char colon p0 = 0%nat /\ count_char colon p1 = 0%nat
        /\ assign dataspec store it = Ok (<[GetDataSpecifier p0 p1 := store]> (fst it), snd it)
  | S (S _) => assign dataspec store it = Err (ErrBadSpec dataspec)
  end.
Proof. exact (assign_cases dataspec store it). Qed.

Lemma assign_stores_unknown m l ds alias :
  (ds, alias) ∈ l -> ds <> "default" -> ds <> "metadata" -> stores m !! alias = None ->
  forall it, exists it' e, assign_stores m l it = (it', Some e).
Proof.
  intros Hin Hd Hm Hno. induction l as [|[ds' alias'] l IH]; intros it.
  { now apply elem_of_nil in Hin. }
  cbn [assign_stores]. apply elem_of_cons in Hin as [Hin|Hin].
  - injection Hin as <- <-.
    destruct (String.eqb_spec ds "default"); [contradiction|].
    destruct (String.eqb_spec ds "metadata"); [contradiction|]. cbn [orb].
    rewrite Hno. eauto.
  - destruct (_ || _); [now apply IH|].
    destruct (stores m !! alias'); [|eauto].
    destruct (assign ds' s it); [now apply IH|eauto].
Qed.

Lemma assign_logs_unknown m l ds alias :
  (ds, alias) ∈ l -> ds <> "default" -> stores m !! alias = None ->
  forall it, exists it' e, assign_logs m l it = (it', Some e).
Proof.
  intros Hin Hd Hno. induction l as [|[ds' alias'] l IH]; intros it.
  { now apply elem_of_nil in Hin. }
  cbn [assign_logs]. apply elem_of_cons in Hin as [Hin|Hin].
  - injection Hin as <- <-.
    destruct (String.eqb_spec ds "default"); [contradiction|].
    rewrite Hno. eauto.
  - destruct (String.eqb ds' "default"); [now apply IH|].
    destruct (stores m !! alias'); [|eauto].
    destruct (isWriteLog s); cbn [negb]; [|eauto].
    destruct (assign ds' s it); [now apply IH|eauto].
Qed.

(** X8.  An assignment that names a store the backend does not have
    makes [Initialize] fail: whether it is a store assignment (other
    than those of default and metadata, which the loop skips) or a log
    assignment (other than that of default), the call returns an error
    and leaves the manager's [setup] flag as it found it. *)
Theorem Initialize_rejects_unknown_alias (w : W) (m : manager)
    (b : Backend GroupcacheConfig) (dataspec alias : string) :
  (KVStore b !! dataspec = Some alias /\ dataspec <> "default" /\ dataspec <> "metadata")
  \/ (LogStore b !! dataspec = Some alias /\ dataspec <> "default") ->
  Stores b !! alias = None ->
  exists e,
    snd (snd (Initialize w m b)) = Some e
    /\ setup (snd (fst (Initialize w m b))) = setup m.
Proof.
  intros Hspec Hno. unfold Initialize.
  set (o0 := mkOpening w (with_stores ∅ m) false false false false false None).
  assert (Hk0 : default_kept m o0).
  { unfold default_kept. cbn. repeat split; auto. discriminate. }
  destruct (open_stores b (iter StoreConfig (Stores b)) o0) as [o [e0|]] eqn:Eo;
    pose proof (open_stores_default_kept m _ _ _ _ _ Hk0 Eo) as [(Hs & _) _];
    cbn [fst snd]; [eauto|].
  pose proof (opened_backend b o0 o eq_refl Eo alias) as Hx. rewrite Hno in Hx.
  destruct (gotDefault o); cbn [negb];
    [|destruct (Nat.eqb (size (Stores b)) 1); [|cbn; eauto]];
    Initialize_stages; try (cbn; eauto); exfalso.
  all:
    destruct Hspec as [(Hkv & Hd & Hm)|(Hlg & Hd)];
    [ apply iter_lookup in Hkv;
      match goal with
      | H : assign_stores ?m3 _ ?it0 = (_, None) |- _ =>
          destruct (assign_stores_unknown m3 _ _ _ Hkv Hd Hm Hx it0) as (? & ? & Hbad);
          rewrite Hbad in H; discriminate
      end
    | apply iter_lookup in Hlg;
      match goal with
      | H : assign_logs ?m4 _ ?it0 = (_, None) |- _ =>
          destruct (assign_logs_unknown m4 _ _ _ Hlg Hd Hx it0) as (? & ? & Hbad);
          rewrite Hbad in H; discriminate
      end ].
Qed.

Lemma assign_stores_other m l name :
  (forall ds al, (ds, al) ∈ l -> Trim ds quote <> name) ->
  forall it it', assign_stores m l it = (it', None) -> snd it' !! name = snd it !! name.
Proof.
  induction l as [|[ds al] l IH]; intros Hl it it'; cbn [assign_stores].
  - intros H. now injection H as <-.
  - assert (Hl' : forall ds0 al0, (ds0, al0) ∈ l -> Trim ds0 quote <> name).
    { intros ds0 al0 Hin. apply (Hl ds0 al0). now apply elem_of_cons; right. }
    destruct (_ || _); [now apply IH|].
    destruct (stores m !! al) as [store|]; [|discriminate].
    destruct (assign ds store it) as [it1|] eqn:Ea; [|discriminate].
    intros H. rewrite (IH Hl' _ _ H).
    pose proof (assign_cases ds store it) as Hc. rewrite Ea in Hc.
    destruct (count_char colon (Trim ds quote)) as [|[|k]].
    + injection Hc as ->. cbn [snd]. apply lookup_insert_ne.
      apply (Hl ds al). apply list_elem_of_here.
    + destruct Hc as (p0 & p1 & _ & _ & _ & Hc). now injection Hc as ->.
    + discriminate.
Qed.

Lemma assign_stores_datatype m l name alias :
  NoDup (l.*1) -> (name, alias) ∈ l ->
  name <> "default" -> name <> "metadata" ->
  Trim name quote = name -> count_char colon name = 0%nat ->
  (forall ds al, (ds, al) ∈ l -> Trim ds quote = name -> ds = name) ->
  forall it it', assign_stores m l it = (it', None) ->
  is_Some (stores m !! alias) /\ snd it' !! name = stores m !! alias.
Proof.
  intros Hnd Hin Hd Hm Ht Hc Huniq.
  induction l as [|[ds al] l IH]; intros it it'.
  { now apply elem_of_nil in Hin. }
  cbn [fmap list_fmap fst] in Hnd. apply NoDup_cons in Hnd as [Hfresh Hnd].
  assert (Huniq' : forall ds0 al0, (ds0, al0) ∈ l -> Trim ds0 quote = name -> ds0 = name).
  { intros ds0 al0 Hin0. apply (Huniq ds0 al0). now apply elem_of_cons; right. }
  cbn [assign_stores]. apply elem_of_cons in Hin as [Hin|Hin].
  - injection Hin as <- <-.
    destruct (String.eqb_spec name "default"); [contradiction|].
    destruct (String.eqb_spec name "metadata"); [contradiction|]. cbn [orb].
    destruct (stores m !! alias) as [store|]; [|discriminate].
    pose proof (assign_cases name store it) as Ha. rewrite Ht, Hc in Ha. rewrite Ha.
    intros H. split; [eauto|].
    rewrite (assign_stores_other m l name) with (it := (fst it, <[name := store]> (snd it)))
                                                (it' := it'); [|
      |exact H].
    + cbn [snd]. apply lookup_insert_eq.
    + intros ds0 al0 Hin0 Heq. apply Hfresh.
      rewrite <- (Huniq' ds0 al0 Hin0 Heq).
      apply list_elem_of_fmap. exists (ds0, al0). now split.
  - assert (Hne : ds <> name).
    { intros ->. apply Hfresh. apply list_elem_of_fmap. exists (name, alias). now split. }
    destruct (_ || _); [now apply IH|].
    destruct (stores m !! al) as [store|]; [|discriminate].
    destruct (assign ds store it) as [it1|]; [|discriminate].
    now apply IH.
Qed.

(** X9.  A datatype assignment of the configuration routes the data
    of that datatype: after an [Initialize] that returned no error, when
    [backend.KVStore] assigns a plain datatype name (no quotes, no
    colon, neither default nor metadata, and no other key that trims to
    it) to an alias, [GetAssignedStore] returns the store opened under
    that alias for every data instance of the datatype that has no
    assignment of its own and is not served by groupcache. *)
Theorem Initialize_routes_datatype (w : W) (m : manager) (b : Backend GroupcacheConfig)
    (typename alias : string) :
  snd (snd (Initialize w m b)) = None ->
  KVStore b !! typename = Some alias ->
  typename <> "default" -> typename <> "metadata" ->
  Trim typename quote = typename -> count_char colon typename = 0%nat ->
  (forall ds, is_Some (KVStore b !! ds) -> Trim ds quote = typename -> ds = typename) ->
  let m' := snd (fst (Initialize w m b)) in
  exists c s,
    Stores b !! alias = Some c /\ opened_from c s
    /\ GetStoreByAlias m' alias = Ok s
    /\ forall dataname root,
         instanceStore m' !! GetDataSpecifier dataname root = None ->
         GetDataSpecifier dataname root ∉ supported (gcache m') ->
         GetAssignedStore m' dataname root typename = Ok (Some s).
Proof.
  intros Hok Hkv Hd Hm Ht Hc Huniq. cbv zeta.
  destruct (Initialize_success_inv w m b Hok)
    as (o & m3 & it & _ & _ & Hopen & Hset & Hst & _ & _ & _ & _ & Hst3 & Has & _ & Hdt & _).
  pose proof (fun H0 => opened_backend b _ o H0 Hopen alias) as Hx.
  specialize (Hx eq_refl).
  destruct (assign_stores_datatype m3 (iter string (KVStore b)) typename alias)
    with (it := (∅ : gmap string Store, ∅ : gmap string Store)) (it' := it)
    as [Hsome Hlook]; try assumption.
  { apply iter_NoDup. }
  { now apply iter_lookup. }
  { intros ds al Hin. apply Huniq. apply iter_lookup in Hin. eauto. }
  rewrite Hst3 in Hsome, Hlook. destruct Hsome as [s Hs]. rewrite Hs in Hlook.
  destruct (Stores b !! alias) as [c|]; [|congruence].
  destruct Hx as (s' & Hs' & Hop). assert (s' = s) as -> by congruence.
  exists c, s. split; [reflexivity|]. split; [exact Hop|]. split.
  - unfold GetStoreByAlias. now rewrite Hset, Hst, Hs.
  - intros dataname root Hi Hg. unfold GetAssignedStore, assignedStoreByType.
    rewrite Hset, Hi, Hdt, Hlook. cbn [negb]. now destruct (decide _).
Qed.

End ManagerFacts.

(** *** The sample configuration *)

Example example_Initialize_succeeds :
  snd (Initialize Filelog.fresh_os zero example_backend) = (false, None)
  /\ setup example_manager = true.
Proof. vm_compute. split; reflexivity. Qed.

Example example_routes :
  GetAssignedStore example_manager "grayscale" "99ef22cd85f143f58a623bd22aad0ef7" "uint8blk"
    = Ok (Some (AKV "/datassd/dbs/basholeveldb"))
  /\ GetAssignedStore example_manager "segmentation" "99ef22cd85f143f58a623bd22aad0ef7"
       "labelblk"
    = Ok (Some (AKV "/datassd/dbs/basholeveldb"))
  /\ GetAssignedStore example_manager "bodies" "99ef22cd85f143f58a623bd22aad0ef7" "labelvol"
    = Ok (Some (AKV "/data/dbs/basholeveldb"))
  /\ GetAssignedStore example_manager "graytiles" "99ef22cd85f143f58a623bd22aad0ef7"
       "imagetile"
    = Ok (Some (ACached (AKV "/data/dbs/basholeveldb"))).
Proof. vm_compute. repeat split; reflexivity. Qed.

(** *** Worked examples *)

Lemma log_config_duplicates : duplicates log_config log_config.
Proof.
  intros s (w & w' & created & H).
  cbn [NewStore example_engines] in H. unfold example_NewStore in H.
  change (String.eqb (Engine log_config) "filelog") with true in H. cbv iota in H.
  destruct (Filelog.newWriteLogs Filelog.example_platform w log_config)
    as [w1 [[logs c]|e]] eqn:En; [|discriminate].
  injection H as _ <- _. cbn [Equal example_engines example_Equal].
  apply (FilelogFacts.Equal_same_path Filelog.example_platform log_config log_config
           "/data/mutationlogs" false false w w1 logs c); [reflexivity|reflexivity|exact En].
Qed.

Lemma GetAssignedStore_resolves_witness :
  exists s,
    resolve_store example_manager "bodies" "99ef22cd85f143f58a623bd22aad0ef7" "labelvol" = Ok s
    /\ GetAssignedStore example_manager "bodies" "99ef22cd85f143f58a623bd22aad0ef7" "labelvol" =
         Ok (if decide (GetDataSpecifier "bodies" "99ef22cd85f143f58a623bd22aad0ef7"
                          ∈ supported (gcache example_manager))
             then fst (wrapGroupcache (Some s) (cache (gcache example_manager)))
             else Some s).
Proof.
  apply (GetAssignedStore_resolves (engines := example_engines) example_manager
           "bodies" "99ef22cd85f143f58a623bd22aad0ef7" "labelvol").
  - unfold example_manager. apply reachable_Initialize, reachable_zero.
  - vm_compute. reflexivity.
Defined.

Lemma GetAssignedLog_nil_without_default_witness :
  GetAssignedLog single_manager "bodies" "99ef22cd85f143f58a623bd22aad0ef7" "labelvol" = Ok None.
Proof.
  apply (GetAssignedLog_nil_without_default (engines := example_engines) single_manager
           "bodies" "99ef22cd85f143f58a623bd22aad0ef7" "labelvol").
  - vm_compute. reflexivity.
  - vm_compute. reflexivity.
  - vm_compute. reflexivity.
  - vm_compute. reflexivity.
Defined.

Lemma Initialize_rejects_duplicates_witness :
  exists e,
    snd (Initialize Filelog.fresh_os zero twin_backend) = (false, Some e)
    /\ setup (snd (fst (Initialize Filelog.fresh_os zero twin_backend))) = false
    /\ opening_error twin_backend e.
Proof.
  apply (Initialize_rejects_duplicates (engines := example_engines)
           Filelog.fresh_os zero twin_backend
           "log1" "log2" log_config log_config).
  - discriminate.
  - vm_compute. reflexivity.
  - vm_compute. reflexivity.
  - exact log_config_duplicates.
  - exact log_config_duplicates.
  - reflexivity.
Defined.

Example twin_backend_error :
  snd (Initialize Filelog.fresh_os zero twin_backend) =
    (false, Some (ErrDuplicate "log2" "log1")).
Proof. vm_compute. reflexivity. Qed.

(** C7 as stated fails when another store is opened first and fails:
    with the two duplicate logs and a store without a path, visited in
    the order [broken], [log1], [log2], the error of [Initialize] names
    the store that failed to open and no duplicate pair. *)
Lemma Initialize_duplicate_error_preempted :
  Stores duplicate_backend !! "log1" = Some log_config
  /\ Stores duplicate_backend !! "log2" = Some log_config
  /\ "log1" <> "log2"
  /\ duplicates log_config log_config
  /\ (iter StoreConfig (Stores duplicate_backend)).*1 = ["broken"; "log1"; "log2"]
  /\ snd (Initialize Filelog.fresh_os zero duplicate_backend) =
       (false, Some (ErrBadStore "broken"))
  /\ forall x y, snd (snd (Initialize Filelog.fresh_os zero duplicate_backend))
                 <> Some (ErrDuplicate x y).
Proof.
  split; [vm_compute; reflexivity|]. split; [vm_compute; reflexivity|].
  split; [discriminate|]. split; [exact log_config_duplicates|].
  split; [vm_compute; reflexivity|].
  assert (H : snd (Initialize Filelog.fresh_os zero duplicate_backend) =
              (false, Some (ErrBadStore "broken"))) by (vm_compute; reflexivity).
  split; [exact H|]. intros x y. rewrite H. discriminate.
Qed.

(** *** The further properties on the sample configuration *)

Lemma example_manager_reachable : reachable example_manager.
Proof. unfold example_manager. apply reachable_Initialize, reachable_zero. Qed.

Lemma DefaultKVStore_iff_setup_witness :
  (setup example_manager = true ->
   exists s, defaultKV example_manager = Some s /\ DefaultKVStore example_manager = Ok s)
  /\ (setup example_manager = false -> DefaultKVStore example_manager = Err NotInitialized)
  /\ DefaultKVStore (Close example_manager) = Err NotInitialized.
Proof.
  apply (DefaultKVStore_iff_setup (engines := example_engines) example_manager).
  exact example_manager_reachable.
Defined.

Lemma assigned_logs_are_write_logs_witness :
  (GetAssignedLog example_manager "bodies" "99ef22cd85f143f58a623bd22aad0ef7" "labelvol"
     = Ok (Some example_log) -> isWriteLog example_log = true)
  /\ (DefaultLogStore example_manager = Ok example_log -> isWriteLog example_log = true).
Proof.
  apply (assigned_logs_are_write_logs (engines := example_engines) example_manager
           "bodies" "99ef22cd85f143f58a623bd22aad0ef7" "labelvol" example_log).
  exact example_manager_reachable.
Defined.

Example example_log_assigned :
  GetAssignedLog example_manager "bodies" "99ef22cd85f143f58a623bd22aad0ef7" "labelvol"
    = Ok (Some example_log)
  /\ DefaultLogStore example_manager = Ok example_log.
Proof. vm_compute. split; reflexivity. Qed.

Lemma Initialize_success_graph_witness :
  setup example_manager = true
  /\ exists kvdb g,
       assignedStoreByType example_manager "labelgraph" = Ok (Some kvdb)
       /\ isOrdered kvdb = true /\ NewGraphStore kvdb = Some g
       /\ GraphStore example_manager = Ok (Some g)
       /\ graphSetter example_manager = Some g /\ graphGetter example_manager = Some g
       /\ isGraphSetter g = true /\ isGraphGetter g = true.
Proof.
  apply (Initialize_success_graph (engines := example_engines)
           Filelog.fresh_os zero example_backend).
  vm_compute. reflexivity.
Defined.

Lemma Initialize_opens_every_store_witness :
  exists s,
    GetStoreByAlias example_manager "ssd" = Ok s
    /\ opened_from (path_config "basholeveldb" "/datassd/dbs/basholeveldb") s.
Proof.
  apply (Initialize_opens_every_store (engines := example_engines)
           Filelog.fresh_os zero example_backend "ssd").
  vm_compute. reflexivity.
Defined.

Lemma Initialize_default_and_metadata_witness :
  is_Some (defaultKV example_manager)
  /\ (if decide (is_Some (Stores example_backend !! DefaultKVDB example_backend))
      then defaultKV example_manager = stores example_manager !! DefaultKVDB example_backend
      else exists alias c,
             Stores example_backend = {[alias := c]}
             /\ defaultKV example_manager = stores example_manager !! alias)
  /\ (if decide (is_Some (Stores example_backend !! Metadata example_backend))
      then metadataStore example_manager = stores example_manager !! Metadata example_backend
      else metadataStore example_manager = defaultKV example_manager).
Proof.
  apply (Initialize_default_and_metadata (engines := example_engines)
           Filelog.fresh_os zero example_backend).
  vm_compute. reflexivity.
Defined.

Example log_only_backend_error :
  snd (Initialize Filelog.fresh_os zero log_only_backend) = (false, Some ErrNotOrdered)
  /\ setup (snd (fst (Initialize Filelog.fresh_os zero log_only_backend))) = true.
Proof. vm_compute. split; reflexivity. Qed.

Lemma Initialize_error_after_setup_witness :
  graph_setup_fails (snd (fst (Initialize Filelog.fresh_os zero log_only_backend)))
  /\ AllStores (snd (fst (Initialize Filelog.fresh_os zero log_only_backend)))
     = Ok (stores (snd (fst (Initialize Filelog.fresh_os zero log_only_backend))))
  /\ forall dataname root typename,
       GetAssignedStore (snd (fst (Initialize Filelog.fresh_os zero log_only_backend)))
         dataname root typename <> Err ErrNotInitialized.
Proof.
  apply (Initialize_error_after_setup (engines := example_engines)
           Filelog.fresh_os zero log_only_backend ErrNotOrdered).
  - reflexivity.
  - vm_compute. reflexivity.
  - vm_compute. reflexivity.
Defined.

Lemma Initialize_returns_created_flag_witness :
  exists s,
    metadataStore example_manager = Some s
    /\ created_from example_backend s
         (fst (snd (Initialize Filelog.fresh_os zero example_backend))).
Proof.
  apply (Initialize_returns_created_flag (engines := example_engines)
           Filelog.fresh_os zero example_backend).
  vm_compute. reflexivity.
Defined.

Lemma Initialize_rejects_unknown_alias_witness :
  exists e,
    snd (snd (Initialize Filelog.fresh_os zero dangling_backend)) = Some e
    /\ setup (snd (fst (Initialize Filelog.fresh_os zero dangling_backend))) = setup zero.
Proof.
  apply (Initialize_rejects_unknown_alias (engines := example_engines)
           Filelog.fresh_os zero dangling_backend "labelblk" "ssd").
  - left. split; [vm_compute; reflexivity|]. split; discriminate.
  - vm_compute. reflexivity.
Defined.

Example dangling_backend_error :
  snd (Initialize Filelog.fresh_os zero dangling_backend) =
    (false, Some (ErrBadAlias "labelblk" "ssd")).
Proof. vm_compute. reflexivity. Qed.

Lemma Initialize_routes_datatype_witness :
  exists c s,
    Stores example_backend !! "ssd" = Some c /\ opened_from c s
    /\ GetStoreByAlias example_manager "ssd" = Ok s
    /\ forall dataname root,
         instanceStore example_manager !! GetDataSpecifier dataname root = None ->
         GetDataSpecifier dataname root ∉ supported (gcache example_manager) ->
         GetAssignedStore example_manager dataname root "labelblk" = Ok (Some s).
Proof.
  apply (Initialize_routes_datatype (engines := example_engines)
           Filelog.fresh_os zero example_backend "labelblk" "ssd").
  - vm_compute. reflexivity.
  - vm_compute. reflexivity.
  - discriminate.
  - discriminate.
  - vm_compute. reflexivity.
  - vm_compute. reflexivity.
  - intros ds [al Hal]. cbn [KVStore example_backend] in Hal.
    apply lookup_insert_Some in Hal as [[<- _]|[_ Hal]]; [reflexivity|].
    apply lookup_singleton_Some in Hal as [<- _].
    intros H. vm_compute in H. discriminate.
Defined.

End StorageFacts.

(** ** Creating a labelsz instance *)

Module LabelszNewFacts.

Import Labelsz LabelszNew.

(** X21.  [NewData] checks the ROI setting only when the key is
    present: a value that does not hold exactly one comma is rejected
    with the bad-ROI error before the base data is created.  When
    [NewData] succeeds the instance carries the value unchanged as its
    static ROI, has not loaded any ROI yet, and, when a value was given,
    that value is a name and a version separated by the one comma; an
    instance made with an empty static ROI takes every element to be in
    the ROI without ever calling the loader. *)
Theorem NewData_checks_ROI (roistr : string) (found : bool)
    (NewDataService : option (Result Labelsz.error OrderedKeyValueDB)) :
  (found = true -> Storage.count_char comma roistr <> 1%nat ->
   NewData (Some (roistr, found)) NewDataService = Err (ErrBadROI roistr))
  /\ forall d,
       NewData (Some (roistr, found)) NewDataService = Ok d ->
       StaticROI d = roistr /\ roiChecked d = false /\ iROI d = None
       /\ NewDataService = Some (GetOrderedKeyValueDB d)
       /\ (found = true ->
           exists name uuid,
             roistr = (name ++ String comma uuid)%string
             /\ Storage.count_char comma name = 0%nat
             /\ Storage.count_char comma uuid = 0%nat)
       /\ (roistr = "" ->
           forall ImmutableBySpec loads e,
             inROI ImmutableBySpec loads d e = (true, d, loads)).
Proof.
  unfold NewData. rewrite StorageFacts.Split_length. split.
  - intros -> Hc. cbn [andb].
    destruct (Nat.eqb_spec (S (Storage.count_char comma roistr)) 2) as [E|E]; [lia|].
    reflexivity.
  - intros d.
    destruct (found && negb (S (Storage.count_char comma roistr) =? 2)%nat) eqn:Ef;
      [discriminate|].
    destruct NewDataService as [basedata|]; [|discriminate].
    intros H. injection H as <-. cbn [StaticROI roiChecked iROI GetOrderedKeyValueDB].
    repeat split.
    + intros ->. cbn [andb] in Ef. apply negb_false_iff, Nat.eqb_eq in Ef.
      destruct (StorageFacts.Split_one_sep roistr comma) as (p0 & p1 & _ & Hr & H0 & H1);
        [lia|]. eauto.
    + intros -> ImmutableBySpec loads e. reflexivity.
Qed.

Example NewData_examples :
  NewData (Some ("someroi,99ef22cd", true)) (Some (Ok example_store)) = Ok roi_data
  /\ NewData (Some ("someroi", true)) (Some (Ok example_store)) = Err (ErrBadROI "someroi")
  /\ NewData (Some ("a,b,c", true)) (Some (Ok example_store)) = Err (ErrBadROI "a,b,c")
  /\ NewData (Some ("", false)) (Some (Ok example_store)) = Ok example_data.
Proof. vm_compute. repeat split; reflexivity. Qed.

End LabelszNewFacts.

(** ** The file log as a testable engine *)

Module FilelogEngineFacts.

Import Bin BinFacts Dvid Storage Filelog FilelogEngine FilelogFacts.

Lemma parseConfig_test_config pf uuid :
  parseConfig pf (test_config uuid) = Ok (test_path pf uuid, true).
Proof. reflexivity. Qed.

(** X15.  When [AddTestConfig] succeeds the backend had no default
    log; afterwards its default log is the alias filelog, whose
    configuration is a file log in testing mode that [parseConfig] places
    under the temporary directory, the other stores are as they were, a
    store that [NewStore] opens from the configuration is [Equal] to it,
    and a second [AddTestConfig] on the result fails and changes
    nothing. *)
Theorem AddTestConfig_once {G : Type} (pf : Platform) (uuid uuid' : list byte)
    (backend backend' : Backend G) :
  AddTestConfig uuid backend = (backend', None) ->
  DefaultLog backend = ""
  /\ DefaultLog backend' = "filelog"
  /\ Stores backend' !! "filelog" = Some (test_config uuid)
  /\ (forall alias, alias <> "filelog" -> Stores backend' !! alias = Stores backend !! alias)
  /\ parseConfig pf (test_config uuid) = Ok (test_path pf uuid, true)
  /\ (forall os os' wlogs created,
        NewStore pf os (test_config uuid) = (os', Ok (wlogs, created)) ->
        path wlogs = test_path pf uuid /\ Equal pf wlogs (test_config uuid) = true)
  /\ AddTestConfig uuid' backend' = (backend', Some (ErrDefaultLogSet "filelog")).
Proof.
  unfold AddTestConfig.
  destruct (String.eqb_spec (DefaultLog backend) "") as [Hd|Hd]; cbn [negb]; [|discriminate].
  intros H. injection H as <-. cbn [DefaultLog Stores].
  split; [exact Hd|]. split; [reflexivity|]. split; [apply lookup_insert_eq|].
  split; [intros alias Ha; now apply lookup_insert_ne|].
  split; [apply parseConfig_test_config|]. split; [|reflexivity].
  intros os os' wlogs created Hn. unfold NewStore in Hn.
  destruct (newWriteLogs_path _ _ _ _ _ _ Hn) as [t Ht].
  rewrite parseConfig_test_config in Ht. injection Ht as Hp _. split; [now symmetry|].
  apply Equal_spec. exists true. rewrite parseConfig_test_config. now rewrite Hp.
Qed.

Lemma AddTestConfig_once_witness :
  DefaultLog untested_backend = ""
  /\ DefaultLog (fst (AddTestConfig example_uuid untested_backend)) = "filelog"
  /\ Stores (fst (AddTestConfig example_uuid untested_backend)) !! "filelog" =
       Some (test_config example_uuid)
  /\ (forall alias, alias <> "filelog" ->
        Stores (fst (AddTestConfig example_uuid untested_backend)) !! alias =
          Stores untested_backend !! alias)
  /\ parseConfig example_platform (test_config example_uuid) =
       Ok (test_path example_platform example_uuid, true)
  /\ (forall os os' wlogs created,
        NewStore example_platform os (test_config example_uuid) = (os', Ok (wlogs, created)) ->
        path wlogs = test_path example_platform example_uuid
        /\ Equal example_platform wlogs (test_config example_uuid) = true)
  /\ AddTestConfig [] (fst (AddTestConfig example_uuid untested_backend)) =
       (fst (AddTestConfig example_uuid untested_backend), Some (ErrDefaultLogSet "filelog")).
Proof.
  apply (AddTestConfig_once example_platform example_uuid [] untested_backend
           (fst (AddTestConfig example_uuid untested_backend))).
  reflexivity.
Defined.

Example example_test_path :
  test_path example_platform example_uuid = "/tmp/dvid-test-filelog-12abff00".
Proof. vm_compute. reflexivity. Qed.

End FilelogEngineFacts.
